(** * Generate GTFS Route Shapes, Step 1 (Step1_MakeShapesFC.py)

    A shallow embedding of [RunStep1], [Generate_Shapes_Street],
    [Generate_Shapes_Straight], [SQLize_GTFS] and [check_latlon_fields]: the
    SQL tables are lists of rows, the Python dictionaries are finite maps,
    exceptions are an error monad, and the parts of the host that the script
    does not fix (the order in which SQLite and Python 2 enumerate things,
    the Network Analyst solver, the codec and SQLite itself while the files
    are loaded) are fields of a [runtime] or [loader_host] record over which
    every theorem quantifies.

    Two statements of [RunStep1] are built by pasting a trip id between
    quotes. The model reads the pasted text the way SQLite's tokenizer reads
    a string literal: an id without a quote selects the rows of that trip, an
    id whose quotes leave the literal open makes [execute] raise
    [sqlite3.OperationalError], an id whose quotes are all doubled selects
    the rows of the id with the quotes halved, and whatever else follows the
    literal is left to the host.

    TEXT cells that are only compared, looked up or passed through are byte
    strings; [route_desc], which the script slices, is a Python 2 [unicode]
    object, a sequence of code units. A [route_type] cell is whatever
    SQLite's INTEGER affinity stores: NULL, an integer, a float or a text.

    arcpy is taken to raise when [AddField] is given a feature class that
    does not exist (a run in which no pass created Shapes); which exception
    it raises is the host's.

    [RunStep1] starts from the tables as [SQLize_GTFS] loaded them; the
    loading is modelled apart, as the commands it sends to SQLite. Left out:
    the ArcGIS version and licence checks, the U-turn and junction settings,
    and the informational [AddMessage] calls. The street pass reads
    [stoplocfielddict], which the script builds only when [useNA] is set;
    the model covers the runs in which it exists. *)

From Stdlib Require Import ZArith QArith String Ascii.
From stdpp Require Import gmap strings list fin_maps pretty sorting.

Local Open Scope string_scope.
Local Open Scope list_scope.

(** ** Python exceptions *)

Inductive exn : Set :=
| KeyError | TypeError | ValueError | IndexError | OverflowError
| ExecuteError          (* arcpy.ExecuteError *)
| OperationalError.     (* sqlite3.OperationalError *)

Inductive result (A : Type) : Type :=
| Ok (a : A)
| Raise (e : exn).
Arguments Ok {A} a.
Arguments Raise {A} e.

Definition bind {A B} (m : result A) (k : A → result B) : result B :=
  match m with
  | Ok a => k a
  | Raise e => Raise e
  end.

Notation "'do' x <- m ; k" := (bind m (λ x, k))
  (at level 10, x pattern, m at level 100, k at level 200).

(** [for x in l: b = f(b, x)] where the body may raise. *)
Fixpoint foldM {A B} (f : B → A → result B) (b : B) (l : list A) : result B :=
  match l with
  | [] => Ok b
  | x :: l' => do b' <- f b x; foldM f b' l'
  end.

(** [d[k]] on a dictionary: KeyError when the key is absent. *)
Definition getitem `{Countable K} {V} (d : gmap K V) (k : K) : result V :=
  match d !! k with
  | Some v => Ok v
  | None => Raise KeyError
  end.

(** [d.setdefault(k, []).append(x)] *)
Definition setdefault_append `{Countable K} {V} (d : gmap K (list V)) (k : K) (x : V)
  : gmap K (list V) :=
  <[k := default [] (d !! k) ++ [x]]> d.

(** [sorted(l, key=...)]: Python's sort is stable; [le] is the comparison of
    the keys. Insertion from the right keeps equal keys in their input order. *)
Section Sorted.
Context {A : Type} (le : A → A → bool).

Fixpoint insert_sorted (x : A) (l : list A) : list A :=
  match l with
  | [] => [x]
  | y :: l' => if le x y then x :: y :: l' else y :: insert_sorted x l'
  end.

Definition sorted (l : list A) : list A := foldr insert_sorted [] l.
End Sorted.

(** ** The GTFS tables, as [SQLize_GTFS] leaves them in SQLite

    TEXT columns hold a string or NULL ([None]). [route_type] is declared
    INTEGER, which in SQLite is an affinity and not a constraint: a text
    that reads as an integer is stored as INTEGER, one that reads as a
    number with a fraction as REAL, and any other text as it is. *)

(** A Python float: the doubles are among the rationals, plus the three
    special values. *)
Inductive pyfloat :=
| Finite (q : Q)
| PosInf | NegInf | NaN.

(** What [fetchall] hands over for a cell of an INTEGER column: [None], an
    [int], a [float] or a [unicode] text. *)
Inductive cell :=
| Null
| Integer (z : Z)
| Real (x : pyfloat)
| Text (s : string).

(** A Python 2 [unicode] object, as the sequence of its elements (what
    [len] counts and slicing cuts). *)
Definition unicode : Type := list N.

Record stop_row := {
  s_stop_id : string;
  s_stop_lat : Q;
  s_stop_lon : Q }.

Record stop_time_row := {
  st_trip_id : string;
  st_stop_id : string;
  st_stop_sequence : Z }.

Record trip_row := {
  tr_trip_id : string;
  tr_route_id : string;
  tr_shape_id : option string }.

(** A row of [routesfetch], in the order of its SELECT list (indices 0..8). *)
Record route_row := {
  r_route_id : string;                  (* route[0] *)
  r_agency_id : option string;          (* route[1] *)
  r_route_short_name : option string;   (* route[2] *)
  r_route_long_name : option string;    (* route[3] *)
  r_route_desc : option unicode;        (* route[4] *)
  r_route_type : cell;                  (* route[5] *)
  r_route_url : option string;          (* route[6] *)
  r_route_color : option string;        (* route[7] *)
  r_route_text_color : option string }. (* route[8] *)

Record gtfs := {
  stops : list stop_row;
  stop_times : list stop_time_row;
  trips : list trip_row;
  routes : list route_row }.

(** The dedup key [(route_id, stop_sequence)]. *)
Definition sequence_key : Type := string * list string.

(** ** Text helpers *)

(** [warnings.split("\n")] *)
Fixpoint split_lines (s : string) : list string :=
  match s with
  | EmptyString => [EmptyString]
  | String c s' =>
      if Ascii.eqb c "010"%char then EmptyString :: split_lines s'
      else match split_lines s' with
           | w :: ws => String c w :: ws
           | [] => [String c EmptyString]
           end
  end.

(** [re.match('No route for ', w)] *)
Definition re_match_No_route_for (w : string) : bool :=
  String.prefix "No route for " w.

(** [re.search(' is unlocated.', w)]: the final dot stands for any one
    character, so something must follow the word. *)
Fixpoint re_search_is_unlocated (w : string) : bool :=
  match w with
  | EmptyString => false
  | String _ w' =>
      (String.prefix " is unlocated" w
       && (String.length " is unlocated" <? String.length w)%nat)
      || re_search_is_unlocated w'
  end.

(** [re.findall('"(.+?)"', w)], scanning left to right: [group] is [None]
    outside quotes and holds the characters read since the opening quote
    otherwise. The group is not empty, so the character right after the
    opening quote belongs to it even when it is a quote. *)
Fixpoint findall_quoted_from (group : option string) (w : string) : list string :=
  match w with
  | EmptyString => []
  | String c w' =>
      match group with
      | None =>
          if Ascii.eqb c "034"%char then findall_quoted_from (Some EmptyString) w'
          else findall_quoted_from None w'
      | Some EmptyString => findall_quoted_from (Some (String c EmptyString)) w'
      | Some g =>
          if Ascii.eqb c "034"%char then g :: findall_quoted_from None w'
          else findall_quoted_from (Some (g +:+ String c EmptyString)) w'
      end
  end.

Definition findall_quoted (w : string) : list string := findall_quoted_from None w.

(** [thingsInQuotes[0]] *)
Definition first_item {A} (l : list A) : result A :=
  match l with
  | x :: _ => Ok x
  | [] => Raise IndexError
  end.

Definition digit_of (c : ascii) : option Z :=
  let n := nat_of_ascii c in
  if (48 <=? n)%nat && (n <=? 57)%nat then Some (Z.of_nat (n - 48)) else None.

Fixpoint digits_value (acc : Z) (s : string) : option Z :=
  match s with
  | EmptyString => Some acc
  | String c s' =>
      match digit_of c with
      | Some d => digits_value (10 * acc + d)%Z s'
      | None => None
      end
  end.

Definition is_space (c : ascii) : bool :=
  let n := nat_of_ascii c in
  (n =? 32)%nat || ((9 <=? n)%nat && (n <=? 13)%nat).

Fixpoint lstrip (s : string) : string :=
  match s with
  | EmptyString => EmptyString
  | String c s' => if is_space c then lstrip s' else s
  end.

Definition strip (s : string) : string := String.rev (lstrip (String.rev (lstrip s))).

(** [int(text)] in base 10: blanks around, an optional sign, then digits. *)
Definition int_of_text (s : string) : result Z :=
  let unsigned (d : string) : option Z :=
    match d with
    | EmptyString => None
    | _ => digits_value 0 d
    end in
  let parsed :=
    match strip s with
    | String "-" d => Z.opp <$> unsigned d
    | String "+" d => unsigned d
    | d => unsigned d
    end in
  match parsed with
  | Some z => Ok z
  | None => Raise ValueError
  end.

(** ** The host: what the script leaves to SQLite, Python 2 and arcpy *)

Definition point : Type := Q * Q.

(** [stoplocfielddict[stop]]: SourceID, SourceOID, PosAlong, SideOfEdge as
    Add Locations computed them (NULL for a stop it could not locate). *)
Record locfields := {
  SourceID : option Z;
  SourceOID : option Z;
  PosAlong : option Q;
  SideOfEdge : option Z }.

(** A row of Stops_wShapeIDs (and of TempInputRoutePoints, its copy). The
    straight-line pass leaves the location fields unset. *)
Record seq_point := {
  pt_X : Q;
  pt_Y : Q;
  pt_shape_id : Z;
  pt_sequence : Z;
  pt_CurbApproach : Z;
  pt_stop_id : string;
  pt_locfields : option locfields }.

(** What [arcpy.na.Solve] does on one chunk: it raises, leaving its messages,
    or it returns the Routes sublayer (one line per RouteName, i.e. shape_id)
    and its warning messages. *)
Inductive solve_outcome :=
| SolveFailed (warning_messages error_messages : string)
| Solved (RoutesLayer : list (Z * list point)) (warning_messages : string).

Record runtime := {
  (** the order in which SELECT DISTINCT yields the values *)
  select_distinct : list string → list string;
  (** the order in which [for k in d] visits a Python 2 dictionary *)
  iter_sequence_shape_dict : gmap sequence_key Z → list sequence_key;
  iter_shape_trip_dict : gmap Z (list string) → list Z;
  (** the order in which [set(l)] is enumerated *)
  iter_set : list string → list string;
  (** the location fields computed by Add Locations on the dummy layer *)
  stoplocfielddict : gmap string locfields;
  Solve : list seq_point → solve_outcome;
  (** [c.execute(text)] on stop_times and on trips, for a statement in which
      more SQL follows the literal that the pasted value opens *)
  sqlite_select : string → list stop_time_row → result (list (string * Z));
  sqlite_update : string → list trip_row → result (list trip_row);
  (** [int(text)] on a text with characters outside printable ASCII, where
      Unicode digits and blanks count *)
  unicode_int : string → result Z;
  (** what [arcpy.management.AddField] raises on a feature class that does
      not exist *)
  AddField_missing : exn }.

Record runtime_laws (rt : runtime) : Prop := {
  select_distinct_NoDup : ∀ l, NoDup (select_distinct rt l);
  select_distinct_elem : ∀ l x, x ∈ select_distinct rt l ↔ x ∈ l;
  iter_sequence_shape_dict_keys :
    ∀ m, iter_sequence_shape_dict rt m ≡ₚ (map_to_list m).*1;
  iter_shape_trip_dict_keys :
    ∀ m, iter_shape_trip_dict rt m ≡ₚ (map_to_list m).*1;
  iter_set_NoDup : ∀ l, NoDup (iter_set rt l);
  iter_set_elem : ∀ l x, x ∈ iter_set rt l ↔ x ∈ l }.

(** ** Statements with a value pasted between quotes (lines 321 and 352)

    [stopfetch] and [updatetripstablestmt] are built with the [%] operator:
    the trip id lands between two quotes of the statement text, and SQLite
    reads the text, not the id. *)

Inductive pasted :=
| Unterminated
| Closed (literal rest : string).

Definition pasted_cons (c : ascii) (q : pasted) : pasted :=
  match q with
  | Unterminated => Unterminated
  | Closed literal rest => Closed (String c literal) rest
  end.

(** SQLite reading a string literal, from the character after the opening
    quote: two quotes in a row are one quote of the literal, a single quote
    closes it, and the end of the text leaves it open. *)
Fixpoint read_quoted (s : string) : pasted :=
  match s with
  | EmptyString => Unterminated
  | String c s' =>
      if Ascii.eqb c "'"%char then
        match s' with
        | String c' s'' =>
            if Ascii.eqb c' "'"%char then pasted_cons "'"%char (read_quoted s'')
            else Closed EmptyString s'
        | EmptyString => Closed EmptyString EmptyString
        end
      else pasted_cons c (read_quoted s')
  end.

Fixpoint has_NUL (s : string) : bool :=
  match s with
  | EmptyString => false
  | String c s' => Ascii.eqb c "000"%char || has_NUL s'
  end.

(** What a statement ending in [WHERE trip_id='%s'], with [trip] pasted for
    [%s], asks for. *)
Inductive where_clause :=
| Equals (literal : string)   (* the rows whose trip_id is [literal] *)
| Illegal                     (* the literal is left open: no statement *)
| Other.                      (* more SQL follows the literal *)

Definition where_trip_id (trip : string) : where_clause :=
  if has_NUL trip then Other
  else match read_quoted (trip +:+ "'") with
       | Unterminated => Illegal
       | Closed literal EmptyString => Equals literal
       | Closed _ _ => Other
       end.

(** ** Make dictionary of route info (lines 243-284) *)

Definition route_type_dict : gmap Z string :=
  list_to_map
    [ (0, "Tram, Streetcar, Light rail"); (1, "Subway, Metro"); (2, "Rail");
      (3, "Bus"); (4, "Ferry"); (5, "Cable car");
      (6, "Gondola, Suspended cable car"); (7, "Funicular") ]%Z.

(** The characters on which [int] reads a [unicode] text as it reads a
    [str]: printable ASCII and the blanks tab .. carriage return. *)
Definition is_plain_char (c : ascii) : bool :=
  let n := nat_of_ascii c in
  ((32 <=? n)%nat && (n <=? 126)%nat) || ((9 <=? n)%nat && (n <=? 13)%nat).

Fixpoint plain_text (s : string) : bool :=
  match s with
  | EmptyString => true
  | String c s' => is_plain_char c && plain_text s'
  end.

(** [int(x)] on a float: the fraction is dropped (rounding toward zero). *)
Definition int_of_float (x : pyfloat) : result Z :=
  match x with
  | Finite q => Ok (Z.quot (Qnum q) (Z.pos (Qden q)))
  | PosInf | NegInf => Raise OverflowError
  | NaN => Raise ValueError
  end.

Section RouteDict.
Variable rt : runtime.

(** [int(route[5])] *)
Definition int_of_cell (c : cell) : result Z :=
  match c with
  | Null => Raise TypeError
  | Integer z => Ok z
  | Real x => int_of_float x
  | Text s => if plain_text s then int_of_text s else unicode_int rt s
  end.

(** [route[5] = '100']: [route] is a row of [c.fetchall()], a tuple, and item
    assignment on a tuple raises TypeError whatever the index and value. *)
Definition tuple_setitem (route : route_row) (i : nat) (v : string) : result route_row :=
  Raise TypeError.

(** [RouteDict[route_id]], indices 0..8. *)
Record route_info := {
  ri_agency_id : option string;         (* [0] *)
  ri_route_short_name : option string;  (* [1] *)
  ri_route_long_name : option string;   (* [2] *)
  ri_route_desc : option unicode;       (* [3] *)
  ri_route_type : cell;                 (* [4] *)
  ri_route_url : option string;         (* [5] *)
  ri_route_color : option string;       (* [6] *)
  ri_route_text_color : option string;  (* [7] *)
  ri_route_type_text : string }.        (* [8] *)

Definition make_route_info (route : route_row) (route_type_text : string) : route_info :=
  {| ri_agency_id := r_agency_id route;
     ri_route_short_name := r_route_short_name route;
     ri_route_long_name := r_route_long_name route;
     ri_route_desc := r_route_desc route;
     ri_route_type := r_route_type route;
     ri_route_url := r_route_url route;
     ri_route_color := r_route_color route;
     ri_route_text_color := r_route_text_color route;
     ri_route_type_text := route_type_text |}.

(** The body of [for route in routelist]. The bare [except:] catches whatever
    the [try] raised; what the handler itself raises propagates. *)
Definition RouteDict_step (RouteDict : gmap string route_info) (route : route_row)
  : result (gmap string route_info) :=
  match bind (int_of_cell (r_route_type route)) (getitem route_type_dict) with
  | Ok route_type_text =>
      Ok (<[r_route_id route := make_route_info route route_type_text]> RouteDict)
  | Raise _ =>
      let route_type_text := "Other / Type not specified" in
      do route' <- tuple_setitem route 5 "100";
      Ok (<[r_route_id route' := make_route_info route' route_type_text]> RouteDict)
  end.

Definition make_RouteDict (routelist : list route_row) : result (gmap string route_info) :=
  foldM RouteDict_step ∅ routelist.
End RouteDict.

(** ** Match trip_ids with route_ids (lines 287-300) *)

Definition make_trip_route_dict (triproutelist : list trip_row) : gmap string string :=
  foldl (λ d triproute, <[tr_trip_id triproute := tr_route_id triproute]> d) ∅ triproutelist.

(** ** Create ordered stop sequences (lines 311-340) *)

(** [SELECT stop_id, stop_sequence FROM stop_times WHERE trip_id = literal];
    the rows come in table order. *)
Definition select_stops (stop_times : list stop_time_row) (literal : string)
  : list (string * Z) :=
  (λ r, (st_stop_id r, st_stop_sequence r)) <$>
    filter (λ r, st_trip_id r = literal) stop_times.

Section Dedup.
Variable rt : runtime.

(** [stopfetch = "SELECT ... WHERE trip_id='%s'" % trip[0]], the text handed
    to [c.execute]. *)
Definition stopfetch (trip : string) : string :=
  "SELECT stop_id, stop_sequence FROM stop_times WHERE trip_id='" +:+ trip +:+ "'".

(** [c.execute(stopfetch); selectedstops = c.fetchall()] *)
Definition selectedstops (stop_times : list stop_time_row) (trip : string)
  : result (list (string * Z)) :=
  match where_trip_id trip with
  | Equals literal => Ok (select_stops stop_times literal)
  | Illegal => Raise OperationalError
  | Other => sqlite_select rt (stopfetch trip) stop_times
  end.

(** [selectedstops.sort(key=operator.itemgetter(1))] and the tuple of ids. *)
Definition sort_stops (selectedstops : list (string * Z)) : list string :=
  (sorted (λ a b, (a.2 <=? b.2)%Z) selectedstops).*1.

Definition stop_sequence_of (stop_times : list stop_time_row) (trip : string)
  : result (list string) :=
  do rows <- selectedstops stop_times trip;
  Ok (sort_stops rows).

Record dedup_state := {
  sequence_shape_dict : gmap sequence_key Z;
  shape_trip_dict : gmap Z (list string);
  shape_id : Z }.

(** The body of [for trip in alltrips]. *)
Definition dedup_step (trip_route_dict : gmap string string)
    (stop_times : list stop_time_row) (st : dedup_state) (trip : string)
  : result dedup_state :=
  do stop_sequence <- stop_sequence_of stop_times trip;
  do route_id <- getitem trip_route_dict trip;
  let sequence_shape_dict_key := (route_id, stop_sequence) in
  match sequence_shape_dict st !! sequence_shape_dict_key with
  | Some sh =>
      Ok {| sequence_shape_dict := sequence_shape_dict st;
            shape_trip_dict := setdefault_append (shape_trip_dict st) sh trip;
            shape_id := shape_id st |}
  | None =>
      Ok {| sequence_shape_dict :=
              <[sequence_shape_dict_key := shape_id st]> (sequence_shape_dict st);
            shape_trip_dict := setdefault_append (shape_trip_dict st) (shape_id st) trip;
            shape_id := (shape_id st + 1)%Z |}
  end.

Definition dedup_init : dedup_state :=
  {| sequence_shape_dict := ∅; shape_trip_dict := ∅; shape_id := 1%Z |}.

Definition dedup (trip_route_dict : gmap string string)
    (stop_times : list stop_time_row) (alltrips : list string) : result dedup_state :=
  foldM (dedup_step trip_route_dict stop_times) dedup_init alltrips.
End Dedup.

Definition numshapes (st : dedup_state) : Z := (shape_id st - 1)%Z.

(** ** The sqlite3 connection on the trips table

    [execute] changes the working copy, [commit] makes it durable, and
    [close] drops whatever was not committed. *)
Record connection := {
  committed : list trip_row;
  working : list trip_row }.

Definition connect (trips : list trip_row) : connection :=
  {| committed := trips; working := trips |}.

(** [UPDATE trips SET shape_id = shape WHERE trip_id = literal], on one row;
    [shape] is the decimal text of the shape id. *)
Definition set_shape_id (shape : Z) (literal : string) (r : trip_row) : trip_row :=
  if decide (tr_trip_id r = literal)
  then {| tr_trip_id := tr_trip_id r; tr_route_id := tr_route_id r;
          tr_shape_id := Some (pretty shape) |}
  else r.

(** [updatetripstablestmt = "UPDATE trips SET shape_id='%s' WHERE
    trip_id='%s'" % (shape, trip)], the text handed to [c.execute]. *)
Definition updatetripstablestmt (shape : Z) (trip : string) : string :=
  "UPDATE trips SET shape_id='" +:+ pretty shape +:+ "' WHERE trip_id='" +:+ trip +:+ "'".

(** [c.execute(updatetripstablestmt)] *)
Definition execute_update (rt : runtime) (conn : connection) (shape : Z) (trip : string)
  : result connection :=
  match where_trip_id trip with
  | Equals literal =>
      Ok {| committed := committed conn;
            working := set_shape_id shape literal <$> working conn |}
  | Illegal => Raise OperationalError
  | Other =>
      do rows <- sqlite_update rt (updatetripstablestmt shape trip) (working conn);
      Ok {| committed := committed conn; working := rows |}
  end.

Definition commit (conn : connection) : connection :=
  {| committed := working conn; working := working conn |}.

Definition close (conn : connection) : list trip_row := committed conn.

(** ** Figure out which routes go with which shapes and update trips table
    (lines 343-358) *)

Section Update.
Variable rt : runtime.
Variable trip_route_dict : gmap string string.
Variable shape_trip_dict : gmap Z (list string).

(** The body of [for trip in shape_trip_dict[shape]]. *)
Definition update_trip (shape : Z) (acc : list string * connection) (trip : string)
  : result (list string * connection) :=
  do route <- getitem trip_route_dict trip;
  do conn <- execute_update rt acc.2 shape trip;
  Ok (acc.1 ++ [route], conn).

(** The body of [for shape in shape_trip_dict]. *)
Definition update_shape (acc : gmap Z (list string) * connection) (shape : Z)
  : result (gmap Z (list string) * connection) :=
  do tripsofshape <- getitem shape_trip_dict shape;
  do (shaperoutes, conn) <- foldM (update_trip shape) ([], acc.2) tripsofshape;
  let conn := commit conn in
  let shaperoutesset := iter_set rt shaperoutes in
  Ok (foldl (λ d route, setdefault_append d shape route) acc.1 shaperoutesset, conn).

Definition update_trips_table (conn : connection)
  : result (gmap Z (list string) * connection) :=
  foldM update_shape (∅, conn) (iter_shape_trip_dict rt shape_trip_dict).
End Update.

(** ** Output feature classes and messages *)

Inductive geometry :=
| NetworkPath (vertices : list point)     (* a line of the solved Routes layer *)
| StraightLine (vertices : list point).   (* arcpy.Polyline(array, WGSCoords) *)

(** A row of the Shapes feature class; the fields after [sf_SHAPE] are added
    and filled by the last stage of [RunStep1]. *)
Record shape_feature := {
  sf_Name : Z;
  sf_SHAPE : geometry;
  sf_shape_id : option Z;
  sf_route_id : option string;
  sf_route_short_name : option string;
  sf_route_long_name : option string;
  sf_route_desc : option unicode;
  sf_route_type : cell;
  sf_route_type_text : option string }.

Definition new_feature (name : Z) (g : geometry) : shape_feature :=
  {| sf_Name := name; sf_SHAPE := g; sf_shape_id := None; sf_route_id := None;
     sf_route_short_name := None; sf_route_long_name := None;
     sf_route_desc := None; sf_route_type := Null; sf_route_type_text := None |}.

(** What [arcpy.AddWarning] is called with: a text, the list of shape ids, or
    a text followed by [unicode(badStops)]. *)
Inductive warning :=
| WarnText (text : string)
| WarnShapeIds (shape_ids : list Z)
| WarnTextStops (text : string) (stop_ids : list string).

(** The state shared by the two generation passes. *)
Record fc_state := {
  outRoutesfc : option (list shape_feature);   (* [None]: does not exist yet *)
  outSequencePoints : list seq_point;
  NoRouteGenerated : list Z;
  warnings : list warning }.

(** [route_type in route_types]: the stored cell against the configured
    codes, by [==]. An int equals itself, a float equals the int of the same
    value, and [None] or a text equals no int. *)
Definition cell_eq_int (route_type : cell) (z : Z) : bool :=
  match route_type with
  | Integer z' => bool_decide (z' = z)
  | Real (Finite q) => Qeq_bool q (inject_Z z)
  | Real _ | Null | Text _ => false
  end.

Definition route_type_in (route_type : cell) (route_types : list Z) : bool :=
  existsb (cell_eq_int route_type) route_types.

(** [for i in xrange(0, len(l), ChunkSize): chunked.append(l[i:i+ChunkSize])] *)
Definition xrange_by (len step : nat) : list nat :=
  (λ k, k * step)%nat <$> seq 0 (Nat.div (len + step - 1) step).

Definition chunked {A} (ChunkSize : nat) (l : list A) : list (list A) :=
  (λ i, take ChunkSize (drop i l)) <$> xrange_by (length l) ChunkSize.

Definition ChunkSize : nat := 100.

(** [for x in l: out.append(f(x))] where [f] may raise. *)
Fixpoint mapR {A B} (f : A → result B) (l : list A) : result (list B) :=
  match l with
  | [] => Ok []
  | x :: l' => do y <- f x; do ys <- mapR f l'; Ok (y :: ys)
  end.

Definition msg_no_street_shapes_1 : string :=
  "On-street route shapes for the following shape_ids could not be generated.  Straight-line route shapes will be generated for these shape_ids instead:".
Definition msg_no_street_shapes_2 : string :=
  "If you are unhappy with this result, try re-running your analysis with a different u-turn policy and/or network restrictions, and check your network dataset for connectivity problems.".
Definition msg_bad_stops : string :=
  "Your stop_times.txt lists times for the following stops which are not included in your stops.txt file. These stops will be ignored. ".
Definition msg_unlocated_stops : string :=
  "The following stop_ids could not be located on your network dataset and were skipped when route shapes were generated.  If you are unhappy with this result, please double-check your stop_lat and stop_lon values in stops.txt and your network dataset geometry to make sure everything is correct.".

(** ** Generate_Shapes_Street and Generate_Shapes_Straight *)

Section Generate.
Variable rt : runtime.
(** [route_types_Street], [route_types_Straight]: the codes read off the
    two semicolon-separated input strings. *)
Variables route_types_Street route_types_Straight : list Z.
Variable CurbApproach : Z.
(** [stoplatlon_dict[stop] = [stop_lat, stop_lon]] *)
Variable stoplatlon_dict : gmap string (Q * Q).
Variable RouteDict : gmap string route_info.
Variable sequence_shape_dict : gmap sequence_key Z.

(** [RouteDict[sequence[0]][4]] *)
Definition route_type_of (sequence : sequence_key) : result cell :=
  do info <- getitem RouteDict sequence.1;
  Ok (ri_route_type info).

(** Extract only the sequences we want to make street-based shapes for. *)
Definition sequences_Streets : result (list sequence_key) :=
  foldM (λ acc sequence,
           do shape_id <- getitem sequence_shape_dict sequence;
           do route_type <- route_type_of sequence;
           Ok (if route_type_in route_type route_types_Street
               then acc ++ [sequence] else acc))
        [] (iter_sequence_shape_dict rt sequence_shape_dict).

Definition sequences_Streets_chunked : result (list (list sequence_key)) :=
  do l <- sequences_Streets;
  Ok (chunked ChunkSize l).

(** The body of [for stop in sequence[1]] of the street pass, on
    (rows inserted, badStops, sequence_num). *)
Definition street_stop (shape_id : Z) (s : list seq_point * list string * Z)
    (stop : string) : list seq_point * list string * Z :=
  let '(rows, badStops, sequence_num) := s in
  match stoplatlon_dict !! stop, stoplocfielddict rt !! stop with
  | Some (stop_lat, stop_lon), Some loc =>
      (rows ++ [ {| pt_X := stop_lon; pt_Y := stop_lat; pt_shape_id := shape_id;
                    pt_sequence := sequence_num; pt_CurbApproach := CurbApproach;
                    pt_stop_id := stop; pt_locfields := Some loc |} ],
       badStops, (sequence_num + 1)%Z)
  | _, _ => (rows, badStops ++ [stop], (sequence_num + 1)%Z)
  end.

(** The body of [for sequence in chunk], on
    (rows inserted, shapes_in_chunk, badStops). *)
Definition street_sequence (s : list seq_point * list Z * list string)
    (sequence : sequence_key) : result (list seq_point * list Z * list string) :=
  let '(rows, shapes_in_chunk, badStops) := s in
  do shape_id <- getitem sequence_shape_dict sequence;
  let '(rows, badStops, _) :=
    foldl (street_stop shape_id) (rows, badStops, 1%Z) sequence.2 in
  Ok (rows, shapes_in_chunk ++ [shape_id], badStops).

(** The body of [for w in warninglist], on (NoRouteGenerated, unlocated_stops). *)
Definition read_warning (s : list Z * list string) (w : string)
  : result (list Z * list string) :=
  if re_match_No_route_for w then
    do q <- first_item (findall_quoted w);
    do n <- int_of_text q;
    Ok (s.1 ++ [n], s.2)
  else if re_search_is_unlocated w then
    do q <- first_item (findall_quoted w);
    Ok (s.1, s.2 ++ [q])
  else Ok s.

Record street_state := {
  fc : fc_state;
  badStops : list string;
  unlocated_stops : list string }.

(** [CopyFeatures] when Shapes does not exist yet, [Append] otherwise. *)
Definition save_routes (outRoutesfc : option (list shape_feature))
    (RoutesLayer : list (Z * list point)) : option (list shape_feature) :=
  let saved := (λ r, new_feature r.1 (NetworkPath r.2)) <$> RoutesLayer in
  match outRoutesfc with
  | None => Some saved
  | Some rows => Some (rows ++ saved)
  end.

(** The body of [for chunk in sequences_Streets_chunked]. *)
Definition street_chunk (st : street_state) (chunk : list sequence_key)
  : result street_state :=
  do (InputRoutePoints, shapes_in_chunk, badStops') <-
     foldM street_sequence ([], [], badStops st) chunk;
  match Solve rt InputRoutePoints with
  | SolveFailed warning_messages error_messages =>
      (* except: ... NoRouteGenerated += shapes_in_chunk; continue *)
      Ok {| fc := {| outRoutesfc := outRoutesfc (fc st);
                     outSequencePoints := outSequencePoints (fc st);
                     NoRouteGenerated := NoRouteGenerated (fc st) ++ shapes_in_chunk;
                     warnings := warnings (fc st) ++
                       [ WarnText "Unable to create on-street Routes because the Solve failed.";
                         WarnText "Solve warning messages:";
                         WarnText warning_messages;
                         WarnText "Solve error messages:";
                         WarnText error_messages ] |};
            badStops := badStops';
            unlocated_stops := unlocated_stops st |}
  | Solved RoutesLayer warning_messages =>
      do (NoRouteGenerated', unlocated_stops') <-
         foldM read_warning (NoRouteGenerated (fc st), unlocated_stops st)
               (split_lines warning_messages);
      Ok {| fc := {| outRoutesfc := save_routes (outRoutesfc (fc st)) RoutesLayer;
                     outSequencePoints := outSequencePoints (fc st) ++ InputRoutePoints;
                     NoRouteGenerated := NoRouteGenerated';
                     warnings := warnings (fc st) |};
            badStops := badStops';
            unlocated_stops := unlocated_stops' |}
  end.

(** The three [if] blocks that close the street pass. *)
Definition street_warnings (st : street_state) : list warning :=
  (match NoRouteGenerated (fc st) with
   | [] => []
   | _ => [ WarnText msg_no_street_shapes_1;
            WarnShapeIds (sorted Z.leb (NoRouteGenerated (fc st)));
            WarnText msg_no_street_shapes_2 ]
   end) ++
  (match badStops st with
   | [] => []
   | _ => [ WarnTextStops msg_bad_stops (sorted String.leb (iter_set rt (badStops st))) ]
   end) ++
  (match unlocated_stops st with
   | [] => []
   | _ => (* unlocated_stops = sorted(list(set(unlocated_stops))) is computed
             and the warning is the text alone *)
          [ WarnText msg_unlocated_stops ]
   end).

Definition Generate_Shapes_Street (st : fc_state) : result fc_state :=
  do chunks <- sequences_Streets_chunked;
  do st' <- foldM street_chunk
              {| fc := st; badStops := []; unlocated_stops := [] |} chunks;
  Ok {| outRoutesfc := outRoutesfc (fc st');
        outSequencePoints := outSequencePoints (fc st');
        NoRouteGenerated := NoRouteGenerated (fc st');
        warnings := warnings (fc st') ++ street_warnings st' |}.

(** The body of [for stop in sequence[1]] of the straight-line pass, on
    (points inserted, array, badStops, sequence_num). *)
Definition straight_stop (NoRouteGenerated : list Z) (shape_id : Z)
    (s : list seq_point * list point * list string * Z) (stop : string)
  : list seq_point * list point * list string * Z :=
  let '(rows, array, badStops, sequence_num) := s in
  match stoplatlon_dict !! stop with
  | Some (stop_lat, stop_lon) =>
      (rows ++ [ {| pt_X := stop_lon; pt_Y := stop_lat; pt_shape_id := shape_id;
                    pt_sequence := sequence_num; pt_CurbApproach := CurbApproach;
                    pt_stop_id := stop; pt_locfields := None |} ],
       array ++ [(stop_lon, stop_lat)], badStops, (sequence_num + 1)%Z)
  | None =>
      (rows, array,
       if bool_decide (shape_id ∈ NoRouteGenerated) then badStops else badStops ++ [stop],
       (sequence_num + 1)%Z)
  end.

(** The body of [for sequence in sequence_shape_dict] of the straight-line
    pass, on (Shapes rows inserted, points inserted, badStops). *)
Definition straight_sequence (NoRouteGenerated : list Z)
    (s : list shape_feature * list seq_point * list string) (sequence : sequence_key)
  : result (list shape_feature * list seq_point * list string) :=
  let '(shapes, rows, badStops) := s in
  do shape_id <- getitem sequence_shape_dict sequence;
  do route_type <- route_type_of sequence;
  if route_type_in route_type route_types_Straight
     || bool_decide (shape_id ∈ NoRouteGenerated)
  then
    let '(rows, array, badStops, _) :=
      foldl (straight_stop NoRouteGenerated shape_id) (rows, [], badStops, 1%Z) sequence.2 in
    Ok (shapes ++ [new_feature shape_id (StraightLine array)], rows, badStops)
  else Ok (shapes, rows, badStops).

Definition Generate_Shapes_Straight (Created_Street_Output : bool) (st : fc_state)
  : result fc_state :=
  (* if not Created_Street_Output or not arcpy.Exists(outRoutesfc):
     create an empty Shapes feature class *)
  let existing :=
    if negb Created_Street_Output || negb (bool_decide (is_Some (outRoutesfc st)))
    then [] else default [] (outRoutesfc st) in
  do (shapes, rows, badStops) <-
     foldM (straight_sequence (NoRouteGenerated st)) ([], [], [])
           (iter_sequence_shape_dict rt sequence_shape_dict);
  Ok {| outRoutesfc := Some (existing ++ shapes);
        outSequencePoints := outSequencePoints st ++ rows;
        NoRouteGenerated := NoRouteGenerated st;
        warnings := warnings st ++
          match badStops with
          | [] => []
          | _ => [ WarnTextStops msg_bad_stops (iter_set rt badStops) ]
          end |}.

(** Lines 376-387: the street pass when street types were chosen, then the
    straight-line pass when straight types were chosen or a street shape
    could not be generated. *)
Definition generate_shapes : result fc_state :=
  let st := {| outRoutesfc := None; outSequencePoints := [];
               NoRouteGenerated := []; warnings := [] |} in
  do (Created_Street_Output, st) <-
     match route_types_Street with
     | [] => Ok (false, st)
     | _ => do st' <- Generate_Shapes_Street st; Ok (true, st')
     end;
  match route_types_Straight, NoRouteGenerated st with
  | [], [] => Ok st
  | _, _ => Generate_Shapes_Straight Created_Street_Output st
  end.
End Generate.

(** ** Add route information to output feature class (lines 390-424) *)

Definition max_route_desc_length : nat := 250.

(** Truth value of a TEXT cell: [None] and the empty text are false. *)
Definition truthy (route_desc : option unicode) : bool :=
  match route_desc with
  | None | Some [] => false
  | Some _ => true
  end.

(** [route_desc[0:max_route_desc_length] if route_desc else route_desc] *)
Definition output_route_desc (route_desc : option unicode) : option unicode :=
  if truthy route_desc
  then take max_route_desc_length <$> route_desc
  else route_desc.

(** The body of [for row in ucursor]. *)
Definition add_route_info (RouteDict : gmap string route_info)
    (shape_route_dict : gmap Z (list string)) (row : shape_feature)
  : result shape_feature :=
  let shape_id := sf_Name row in
  do routesofshape <- getitem shape_route_dict shape_id;
  do route_id <- first_item routesofshape;
  do info <- getitem RouteDict route_id;
  Ok {| sf_Name := sf_Name row;
        sf_SHAPE := sf_SHAPE row;
        sf_shape_id := Some shape_id;
        sf_route_id := Some route_id;
        sf_route_short_name := ri_route_short_name info;
        sf_route_long_name := ri_route_long_name info;
        sf_route_desc := output_route_desc (ri_route_desc info);
        sf_route_type := ri_route_type info;
        sf_route_type_text := Some (ri_route_type_text info) |}.

(** The [AddField] calls and the update cursor. When no pass created the
    Shapes feature class, the first [AddField] is given a path at which
    nothing exists: the script has no code for that case, and the model
    takes the geoprocessing tool to fail there, with the exception the host
    names. *)
Definition add_route_information (rt : runtime) (RouteDict : gmap string route_info)
    (shape_route_dict : gmap Z (list string)) (outRoutesfc : option (list shape_feature))
  : result (list shape_feature) :=
  match outRoutesfc with
  | None => Raise (AddField_missing rt)
  | Some rows => mapR (add_route_info RouteDict shape_route_dict) rows
  end.

(** ** RunStep1 *)

Record parameters := {
  route_types_Street : list Z;
  route_types_Straight : list Z;
  driveSide : string }.

(** Lines 117-123. The assignment makes [driveSide] a local of [RunStep1]:
    the tool's input is never read. *)
Definition CurbApproach_of (driveSide_input : string) : Z :=
  let driveSide := "Right" in
  if decide (driveSide = "Right") then 1%Z else 2%Z.

Definition make_stoplatlon_dict (stoplatlons : list stop_row) : gmap string (Q * Q) :=
  foldl (λ d stop, <[s_stop_id stop := (s_stop_lat stop, s_stop_lon stop)]> d) ∅ stoplatlons.

(** [SELECT DISTINCT trip_id FROM stop_times] *)
Definition alltrips (rt : runtime) (db : gtfs) : list string :=
  select_distinct rt (st_trip_id <$> stop_times db).

(** Lines 287-358: the dedup loop, then the trips table update, ending with
    [conn.close()]. Returns the three dictionaries and the trips table as it
    is stored from then on. *)
Definition dedup_phase (rt : runtime) (db : gtfs)
  : result (dedup_state * gmap Z (list string) * list trip_row) :=
  let trip_route_dict := make_trip_route_dict (trips db) in
  do st <- dedup rt trip_route_dict (stop_times db) (alltrips rt db);
  do (shape_route_dict, conn) <-
     update_trips_table rt trip_route_dict (shape_trip_dict st) (connect (trips db));
  Ok (st, shape_route_dict, close conn).

Record output := {
  out_trips : list trip_row;
  out_Shapes : list shape_feature;
  out_Stops_wShapeIDs : list seq_point;
  out_warnings : list warning }.

Definition RunStep1 (rt : runtime) (params : parameters) (db : gtfs) : result output :=
  let CurbApproach := CurbApproach_of (driveSide params) in
  let stoplatlon_dict := make_stoplatlon_dict (stops db) in
  do RouteDict <- make_RouteDict rt (routes db);
  do (st, shape_route_dict, trips') <- dedup_phase rt db;
  do fc <- generate_shapes rt (route_types_Street params) (route_types_Straight params)
             CurbApproach stoplatlon_dict RouteDict (sequence_shape_dict st);
  do Shapes <- add_route_information rt RouteDict shape_route_dict (outRoutesfc fc);
  Ok {| out_trips := trips';
        out_Shapes := Shapes;
        out_Stops_wShapeIDs := outSequencePoints fc;
        out_warnings := warnings fc |}.

(** The keys in the order in which they are first met. *)
Definition first_seen `{EqDecision A} (l : list A) : list A :=
  foldl (λ acc k, if decide (k ∈ acc) then acc else acc ++ [k]) [] l.

(** The dedup key the loop computes for a trip: none when the SELECT raises
    or the trip has no route. *)
Definition key_of (rt : runtime) (trip_route_dict : gmap string string)
    (stop_times : list stop_time_row) (trip : string) : option sequence_key :=
  match stop_sequence_of rt stop_times trip with
  | Ok stop_sequence => (λ route_id, (route_id, stop_sequence)) <$> trip_route_dict !! trip
  | Raise _ => None
  end.

(** [shape_trip_dict[sh]], empty when [sh] is no key. *)
Definition trips_of_shape (st : dedup_state) (sh : Z) : list string :=
  default [] (shape_trip_dict st !! sh).

(** The [try]/[except KeyError] of the dedup loop, once the key is known. *)
Definition assign_shape (st : dedup_state) (tk : string * sequence_key) : dedup_state :=
  match sequence_shape_dict st !! tk.2 with
  | Some sh =>
      {| sequence_shape_dict := sequence_shape_dict st;
         shape_trip_dict := setdefault_append (shape_trip_dict st) sh tk.1;
         shape_id := shape_id st |}
  | None =>
      {| sequence_shape_dict := <[tk.2 := shape_id st]> (sequence_shape_dict st);
         shape_trip_dict := setdefault_append (shape_trip_dict st) (shape_id st) tk.1;
         shape_id := (shape_id st + 1)%Z |}
  end.

(** What the dedup loop maintains, [tks] being the trips processed so far
    with their keys. *)
Record dedup_inv (tks : list (string * sequence_key)) (st : dedup_state) : Prop := {
  inv_ssd : ∀ k i, sequence_shape_dict st !! k = Some i ↔
      ∃ n : nat, first_seen tks.*2 !! n = Some k ∧ i = (Z.of_nat n + 1)%Z;
  inv_shape_id : shape_id st = (Z.of_nat (length (first_seen tks.*2)) + 1)%Z;
  inv_std : ∀ sh t, t ∈ trips_of_shape st sh ↔
      ∃ k, (t, k) ∈ tks ∧ sequence_shape_dict st !! k = Some sh;
  inv_std_dom : ∀ sh, is_Some (shape_trip_dict st !! sh) ↔
      ∃ k, sequence_shape_dict st !! k = Some sh }.

(** The trips of a list for which the loop computes a key, each with it. *)
Definition keyed (rt : runtime) (trip_route_dict : gmap string string)
    (stop_times : list stop_time_row) (ts : list string) : list (string * sequence_key) :=
  omap (λ t, pair t <$> key_of rt trip_route_dict stop_times t) ts.

(** ** What the claims mean by the stop sequence of a trip

    The stop ids of the rows of stop_times that carry the trip's id, by
    ascending stop_sequence, rows with equal stop_sequence in table order;
    and the (route_id, ordered stop sequence) key of a trip that has a row
    in trips. These are read off the tables, not off the statements the
    script sends. *)
Definition spec_stop_sequence (stop_times : list stop_time_row) (trip : string)
  : list string :=
  st_stop_id <$>
    sorted (λ a b, (st_stop_sequence a <=? st_stop_sequence b)%Z)
           (filter (λ r, st_trip_id r = trip) stop_times).

Definition spec_key (db : gtfs) (trip : string) : option sequence_key :=
  (λ row, (tr_route_id row, spec_stop_sequence (stop_times db) trip)) <$>
    last (filter (λ row, tr_trip_id row = trip) (trips db)).

(** An id that reads the same inside quotes: no quote and no NUL in it. *)
Fixpoint no_quote (s : string) : bool :=
  match s with
  | EmptyString => true
  | String c s' => negb (Ascii.eqb c "'"%char) && no_quote s'
  end.

Definition plain_id (s : string) : bool := no_quote s && negb (has_NUL s).

(** ** A small feed and host to run the model on

    Routes R1 and R2 are bus routes; trips A and B (route R1) and C (route
    R2) visit S1 then S2; trip D has no stop times. *)

Definition ex_loc : locfields :=
  {| SourceID := Some 1%Z; SourceOID := Some 7%Z; PosAlong := Some 0%Q;
     SideOfEdge := Some 1%Z |}.

(** A solver that returns one line for every shape id it is given. *)
Definition solve_all (pts : list seq_point) : solve_outcome :=
  Solved ((λ sh, (sh, [])) <$> remove_dups (pt_shape_id <$> pts)) "".

(** A host that refuses every statement in which more SQL follows the
    pasted literal, and every text with characters outside ASCII as an
    integer. *)
Definition ex_rt_with (solver : list seq_point → solve_outcome) : runtime :=
  {| select_distinct := remove_dups;
     iter_sequence_shape_dict := λ m, (map_to_list m).*1;
     iter_shape_trip_dict := λ m, (map_to_list m).*1;
     iter_set := remove_dups;
     stoplocfielddict := list_to_map [("S1", ex_loc); ("S2", ex_loc)];
     Solve := solver;
     sqlite_select := λ _ _, Raise OperationalError;
     sqlite_update := λ _ _, Raise OperationalError;
     unicode_int := λ _, Raise ValueError;
     AddField_missing := ExecuteError |}.

Definition ex_rt : runtime := ex_rt_with solve_all.

Definition ex_route (id : string) (desc : option unicode) (type : cell) : route_row :=
  {| r_route_id := id; r_agency_id := None; r_route_short_name := Some id;
     r_route_long_name := None; r_route_desc := desc; r_route_type := type;
     r_route_url := None; r_route_color := None; r_route_text_color := None |}.

Definition ex_stops : list stop_row :=
  [ {| s_stop_id := "S1"; s_stop_lat := 0; s_stop_lon := 0 |};
    {| s_stop_id := "S2"; s_stop_lat := 1; s_stop_lon := 1 |} ].

Definition ex_stop_times : list stop_time_row :=
  [ {| st_trip_id := "A"; st_stop_id := "S2"; st_stop_sequence := 2 |};
    {| st_trip_id := "A"; st_stop_id := "S1"; st_stop_sequence := 1 |};
    {| st_trip_id := "B"; st_stop_id := "S1"; st_stop_sequence := 5 |};
    {| st_trip_id := "B"; st_stop_id := "S2"; st_stop_sequence := 9 |};
    {| st_trip_id := "C"; st_stop_id := "S1"; st_stop_sequence := 1 |};
    {| st_trip_id := "C"; st_stop_id := "S2"; st_stop_sequence := 2 |} ].

Definition ex_trips : list trip_row :=
  [ {| tr_trip_id := "A"; tr_route_id := "R1"; tr_shape_id := None |};
    {| tr_trip_id := "B"; tr_route_id := "R1"; tr_shape_id := None |};
    {| tr_trip_id := "C"; tr_route_id := "R2"; tr_shape_id := None |};
    {| tr_trip_id := "D"; tr_route_id := "R2"; tr_shape_id := Some "old" |} ].

Definition ex_db : gtfs :=
  {| stops := ex_stops; stop_times := ex_stop_times; trips := ex_trips;
     routes := [ ex_route "R1" (Some []) (Integer 3); ex_route "R2" None (Integer 3) ] |}.

(** The state the dedup loop ends in on a feed (the initial one if it raised). *)
Definition dedup_result (rt : runtime) (db : gtfs) : dedup_state :=
  match dedup rt (make_trip_route_dict (trips db)) (stop_times db) (alltrips rt db) with
  | Ok st => st
  | Raise _ => dedup_init
  end.

(** The same feed with a stop time of a trip E that the trips table lacks. *)
Definition ex_db_orphan : gtfs :=
  {| stops := ex_stops;
     stop_times := ex_stop_times ++
       [ {| st_trip_id := "E"; st_stop_id := "S1"; st_stop_sequence := 1 |} ];
     trips := ex_trips;
     routes := routes ex_db |}.

(** A feed with a quote in trip ids. Trips A and N''1, both of route R1,
    visit S1 then S2; the trips table also has a trip N'1, of route R2, that
    has no stop times. *)
Definition ex_db_doubled : gtfs :=
  {| stops := ex_stops;
     stop_times :=
       [ {| st_trip_id := "A"; st_stop_id := "S1"; st_stop_sequence := 1 |};
         {| st_trip_id := "A"; st_stop_id := "S2"; st_stop_sequence := 2 |};
         {| st_trip_id := "N''1"; st_stop_id := "S1"; st_stop_sequence := 1 |};
         {| st_trip_id := "N''1"; st_stop_id := "S2"; st_stop_sequence := 2 |} ];
     trips :=
       [ {| tr_trip_id := "A"; tr_route_id := "R1"; tr_shape_id := None |};
         {| tr_trip_id := "N''1"; tr_route_id := "R1"; tr_shape_id := None |};
         {| tr_trip_id := "N'1"; tr_route_id := "R2"; tr_shape_id := Some "old" |} ];
     routes := routes ex_db |}.

(** The first feed with a stop time of a trip Riders' that the trips table
    lacks; pasted between quotes, the id leaves the literal open. *)
Definition ex_db_orphan_quote : gtfs :=
  {| stops := ex_stops;
     stop_times := ex_stop_times ++
       [ {| st_trip_id := "Riders'"; st_stop_id := "S1"; st_stop_sequence := 1 |} ];
     trips := ex_trips;
     routes := routes ex_db |}.

(** The literal SQLite compares trip_id with, when the statement with the
    pasted id is a plain comparison. *)
Definition literal_of (trip : string) : option string :=
  match where_trip_id trip with
  | Equals literal => Some literal
  | Illegal | Other => None
  end.

(** The effect on one row of a list of UPDATE statements, given as
    (shape, literal) pairs in the order of execution. *)
Definition apply_writes (ws : list (Z * string)) (r : trip_row) : trip_row :=
  foldl (λ r w, set_shape_id w.1 w.2 r) r ws.

(** The UPDATE statements issued while visiting the shapes [shapes], as
    (shape, trip) pairs. *)
Definition writes_of (shape_trip_dict : gmap Z (list string)) (shapes : list Z)
  : list (Z * string) :=
  shapes ≫= λ sh, pair sh <$> default [] (shape_trip_dict !! sh).

(** The same statements as SQLite reads them. *)
Definition literal_writes (ws : list (Z * string)) : list (Z * string) :=
  omap (λ w, pair w.1 <$> literal_of w.2) ws.

(** The result of the dedup phase on a feed (a dummy one if it raised). *)
Definition dedup_phase_result (rt : runtime) (db : gtfs)
  : dedup_state * gmap Z (list string) * list trip_row :=
  match dedup_phase rt db with
  | Ok x => x
  | Raise _ => (dedup_init, ∅, [])
  end.

(** [int] reads the route type as one of the GTFS codes 0..7. *)
Definition known_route_type (rt : runtime) (route : route_row) : Prop :=
  ∃ z, int_of_cell rt (r_route_type route) = Ok z ∧ (0 ≤ z ≤ 7)%Z.

(** A feed whose only route has route_type 8. *)
Definition ex_db_type8 : gtfs :=
  {| stops := ex_stops; stop_times := ex_stop_times; trips := ex_trips;
     routes := [ ex_route "R1" None (Integer 8) ] |}.

Definition ex_params : parameters :=
  {| route_types_Street := [3%Z]; route_types_Straight := []; driveSide := "Left" |}.

(** A feed whose route R1 has a route_desc of 260 characters, every tenth
    of them outside ASCII (U+0142), and whose route R2 has none. *)
Definition ex_long_desc : unicode :=
  mjoin (replicate 26 [322; 48; 49; 50; 51; 52; 53; 54; 55; 56]%N).

Definition ex_db_long : gtfs :=
  {| stops := ex_stops; stop_times := ex_stop_times; trips := ex_trips;
     routes := [ ex_route "R1" (Some ex_long_desc) (Integer 3);
                 ex_route "R2" None (Integer 3) ] |}.

(** What [RunStep1] returns (nothing at all if it raised). *)
Definition run_result (rt : runtime) (params : parameters) (db : gtfs) : output :=
  match RunStep1 rt params db with
  | Ok out => out
  | Raise _ => {| out_trips := []; out_Shapes := []; out_Stops_wShapeIDs := [];
                  out_warnings := [] |}
  end.

Definition first_shape (out : output) : shape_feature :=
  default (new_feature 0 (StraightLine [])) (head (out_Shapes out)).

(** ** The generation passes in closed form

    What the loops of the two passes add, written as functions of the
    sequences they visit; the lemmas below show that the loops compute them. *)

Section GenerateSpec.
Variable rt : runtime.
Variables route_types_Street route_types_Straight : list Z.
Variable CurbApproach : Z.
Variable stoplatlon_dict : gmap string (Q * Q).
Variable RouteDict : gmap string route_info.
Variable sequence_shape_dict : gmap sequence_key Z.

(** The rows the street pass inserts for the stops of one sequence. *)
Fixpoint street_rows (shape_id sequence_num : Z) (stops : list string) : list seq_point :=
  match stops with
  | [] => []
  | stop :: stops' =>
      match stoplatlon_dict !! stop, stoplocfielddict rt !! stop with
      | Some (stop_lat, stop_lon), Some loc =>
          [ {| pt_X := stop_lon; pt_Y := stop_lat; pt_shape_id := shape_id;
               pt_sequence := sequence_num; pt_CurbApproach := CurbApproach;
               pt_stop_id := stop; pt_locfields := Some loc |} ]
      | _, _ => []
      end ++ street_rows shape_id (sequence_num + 1)%Z stops'
  end.

(** The stops the street pass reports as bad. *)
Fixpoint street_bad (stops : list string) : list string :=
  match stops with
  | [] => []
  | stop :: stops' =>
      match stoplatlon_dict !! stop, stoplocfielddict rt !! stop with
      | Some (stop_lat, stop_lon), Some loc => []
      | _, _ => [stop]
      end ++ street_bad stops'
  end.

Definition shape_of_sequence (sequence : sequence_key) : Z :=
  default 0%Z (sequence_shape_dict !! sequence).

(** TempInputRoutePoints, shapes_in_chunk and the bad stops of one chunk. *)
Definition chunk_points (chunk : list sequence_key) : list seq_point :=
  chunk ≫= λ sequence, street_rows (shape_of_sequence sequence) 1 sequence.2.

Definition chunk_shapes (chunk : list sequence_key) : list Z :=
  shape_of_sequence <$> chunk.

Definition chunk_bad (chunk : list sequence_key) : list string :=
  chunk ≫= λ sequence, street_bad sequence.2.

(** The shape ids and stop ids read off the solver's warnings. *)
Definition parse_warnings (warning_messages : string) : result (list Z * list string) :=
  foldM read_warning ([], []) (split_lines warning_messages).

Definition no_route_ids (warning_messages : string) : list Z :=
  match parse_warnings warning_messages with
  | Ok (ids, _) => ids
  | Raise _ => []
  end.

Definition unlocated_ids (warning_messages : string) : list string :=
  match parse_warnings warning_messages with
  | Ok (_, stops) => stops
  | Raise _ => []
  end.

(** What one chunk adds to Shapes, to Stops_wShapeIDs and to
    NoRouteGenerated. *)
Definition chunk_routes (chunk : list sequence_key) : list shape_feature :=
  match Solve rt (chunk_points chunk) with
  | Solved RoutesLayer _ => (λ r, new_feature r.1 (NetworkPath r.2)) <$> RoutesLayer
  | SolveFailed _ _ => []
  end.

Definition chunk_saved_points (chunk : list sequence_key) : list seq_point :=
  match Solve rt (chunk_points chunk) with
  | Solved _ _ => chunk_points chunk
  | SolveFailed _ _ => []
  end.

Definition chunk_no_route (chunk : list sequence_key) : list Z :=
  match Solve rt (chunk_points chunk) with
  | Solved _ warning_messages => no_route_ids warning_messages
  | SolveFailed _ _ => chunk_shapes chunk
  end.

(** The test [route_type in route_types_Street] on a sequence. *)
Definition street_selected (sequence : sequence_key) : bool :=
  match RouteDict !! sequence.1 with
  | Some info => route_type_in (ri_route_type info) route_types_Street
  | None => false
  end.

(** The test of the straight-line pass on a sequence. *)
Definition straight_selected (NoRouteGenerated : list Z) (sequence : sequence_key) : bool :=
  match RouteDict !! sequence.1 with
  | Some info =>
      route_type_in (ri_route_type info) route_types_Straight
      || bool_decide (shape_of_sequence sequence ∈ NoRouteGenerated)
  | None => false
  end.

(** The rows and the vertices the straight-line pass makes of one sequence. *)
Fixpoint straight_rows (shape_id sequence_num : Z) (stops : list string) : list seq_point :=
  match stops with
  | [] => []
  | stop :: stops' =>
      match stoplatlon_dict !! stop with
      | Some (stop_lat, stop_lon) =>
          [ {| pt_X := stop_lon; pt_Y := stop_lat; pt_shape_id := shape_id;
               pt_sequence := sequence_num; pt_CurbApproach := CurbApproach;
               pt_stop_id := stop; pt_locfields := None |} ]
      | None => []
      end ++ straight_rows shape_id (sequence_num + 1)%Z stops'
  end.

Fixpoint straight_array (stops : list string) : list point :=
  match stops with
  | [] => []
  | stop :: stops' =>
      match stoplatlon_dict !! stop with
      | Some (stop_lat, stop_lon) => [(stop_lon, stop_lat)]
      | None => []
      end ++ straight_array stops'
  end.

Fixpoint straight_bad (quiet : bool) (stops : list string) : list string :=
  match stops with
  | [] => []
  | stop :: stops' =>
      match stoplatlon_dict !! stop with
      | Some _ => []
      | None => if quiet then [] else [stop]
      end ++ straight_bad quiet stops'
  end.

Definition straight_feature (sequence : sequence_key) : shape_feature :=
  new_feature (shape_of_sequence sequence) (StraightLine (straight_array sequence.2)).
End GenerateSpec.

Definition is_network_path (row : shape_feature) : bool :=
  match sf_SHAPE row with
  | NetworkPath _ => true
  | StraightLine _ => false
  end.

Definition is_straight_line (row : shape_feature) : bool :=
  match sf_SHAPE row with
  | NetworkPath _ => false
  | StraightLine _ => true
  end.

(** The whole of lines 376-387 in closed form. *)
Section RunSpec.
Variable rt : runtime.
Variables route_types_Street route_types_Straight : list Z.
Variable CurbApproach : Z.
Variable stoplatlon_dict : gmap string (Q * Q).
Variable RouteDict : gmap string route_info.
Variable sequence_shape_dict : gmap sequence_key Z.

(** The chunks the street pass solves, none when no street type was chosen. *)
Definition street_chunks : list (list sequence_key) :=
  match route_types_Street with
  | [] => []
  | _ => chunked ChunkSize
           (filter (street_selected route_types_Street RouteDict)
                   (iter_sequence_shape_dict rt sequence_shape_dict))
  end.

Definition final_NoRouteGenerated : list Z :=
  street_chunks ≫= chunk_no_route rt CurbApproach stoplatlon_dict sequence_shape_dict.

(** The sequences the straight-line pass draws. *)
Definition straight_sequences : list sequence_key :=
  match route_types_Straight, final_NoRouteGenerated with
  | [], [] => []
  | _, _ =>
      filter (straight_selected route_types_Straight RouteDict sequence_shape_dict
                final_NoRouteGenerated)
             (iter_sequence_shape_dict rt sequence_shape_dict)
  end.

Definition street_features : list shape_feature :=
  street_chunks ≫= chunk_routes rt CurbApproach stoplatlon_dict sequence_shape_dict.

Definition straight_features : list shape_feature :=
  straight_feature stoplatlon_dict sequence_shape_dict <$> straight_sequences.

Definition street_saved_points : list seq_point :=
  street_chunks ≫= chunk_saved_points rt CurbApproach stoplatlon_dict sequence_shape_dict.

Definition straight_points : list seq_point :=
  straight_sequences ≫= λ sequence,
    straight_rows CurbApproach stoplatlon_dict
      (shape_of_sequence sequence_shape_dict sequence) 1 sequence.2.
End RunSpec.

(** The geometries a Shapes feature class holds for one shape id. *)
Definition shape_geometries (rows : list shape_feature) (sh : Z) : list geometry :=
  omap (λ row, if decide (sf_Name row = sh) then Some (sf_SHAPE row) else None) rows.

(** What the code relies on from the solver: the lines it returns are named
    after shape ids of the points it was given. *)
Definition routes_named_by_input (solve : list seq_point → solve_outcome) : Prop :=
  ∀ pts RoutesLayer warning_messages,
    solve pts = Solved RoutesLayer warning_messages →
    ∀ name, name ∈ RoutesLayer.*1 → name ∈ pt_shape_id <$> pts.

(** The solver's contract of the specification: per shape id of its input,
    either one line or a no-route warning. *)
Definition solver_contract (solve : list seq_point → solve_outcome) : Prop :=
  ∀ pts RoutesLayer warning_messages,
    solve pts = Solved RoutesLayer warning_messages →
    NoDup RoutesLayer.*1 ∧
    (∀ name, name ∈ RoutesLayer.*1 → name ∈ pt_shape_id <$> pts) ∧
    (∀ name, name ∈ no_route_ids warning_messages →
             name ∈ pt_shape_id <$> pts ∧ name ∉ RoutesLayer.*1).

(** The dictionaries of a run. *)
Definition RouteDict_of (rt : runtime) (db : gtfs) : gmap string route_info :=
  match make_RouteDict rt (routes db) with
  | Ok RouteDict => RouteDict
  | Raise _ => ∅
  end.

Definition sequence_shape_dict_of (rt : runtime) (db : gtfs) : gmap sequence_key Z :=
  sequence_shape_dict (dedup_phase_result rt db).1.1.

(** The chunks of the street pass of a run, and the solver's input and the
    shape ids of a chunk. *)
Definition run_street_chunks (rt : runtime) (params : parameters) (db : gtfs)
  : list (list sequence_key) :=
  street_chunks rt (route_types_Street params) (RouteDict_of rt db)
    (sequence_shape_dict_of rt db).

Definition run_chunk_points (rt : runtime) (params : parameters) (db : gtfs)
    (chunk : list sequence_key) : list seq_point :=
  chunk_points rt (CurbApproach_of (driveSide params)) (make_stoplatlon_dict (stops db))
    (sequence_shape_dict_of rt db) chunk.

Definition run_chunk_shapes (rt : runtime) (db : gtfs) (chunk : list sequence_key)
  : list Z :=
  chunk_shapes (sequence_shape_dict_of rt db) chunk.

Definition first_point (out : output) : seq_point :=
  default {| pt_X := 0; pt_Y := 0; pt_shape_id := 0; pt_sequence := 0;
             pt_CurbApproach := 0; pt_stop_id := ""; pt_locfields := None |}
          (head (out_Stops_wShapeIDs out)).

(** A solver whose Solve always raises. *)
Definition solve_fails (pts : list seq_point) : solve_outcome :=
  SolveFailed "No solution found." "Solve failed.".

Definition first_chunk (chunks : list (list sequence_key)) : list sequence_key :=
  default [] (head chunks).

(** Bus routes chosen both for the street pass and for the straight-line
    pass. *)
Definition ex_params_both : parameters :=
  {| route_types_Street := [3%Z]; route_types_Straight := [3%Z]; driveSide := "Right" |}.

(** The first feed with route R2 turned into a subway line, and a run that
    sends bus routes to the street pass and subway lines to the
    straight-line pass. *)
Definition ex_db_mixed : gtfs :=
  {| stops := ex_stops; stop_times := ex_stop_times; trips := ex_trips;
     routes := [ ex_route "R1" (Some []) (Integer 3); ex_route "R2" None (Integer 1) ] |}.

Definition ex_params_mixed : parameters :=
  {| route_types_Street := [3%Z]; route_types_Straight := [1%Z]; driveSide := "Right" |}.

(** [s] between double quotes. *)
Definition quoted (s : string) : string :=
  String "034"%char (s +:+ String "034"%char EmptyString).

(** The warning Solve leaves for a stop it could not locate. *)
Definition unlocated_warning (stop : string) : string :=
  "Location " +:+ quoted stop +:+ " in " +:+ quoted "Stops" +:+ " is unlocated.".

(** A solver that returns a line for every shape and reports stop S2 as
    unlocated. *)
Definition solve_unlocated (pts : list seq_point) : solve_outcome :=
  Solved ((λ sh, (sh, [])) <$> remove_dups (pt_shape_id <$> pts)) (unlocated_warning "S2").

(** A feed whose only trip visits Z9 then A1, neither of them in stops. *)
Definition ex_db_bad_stops : gtfs :=
  {| stops := ex_stops;
     stop_times :=
       [ {| st_trip_id := "A"; st_stop_id := "Z9"; st_stop_sequence := 1 |};
         {| st_trip_id := "A"; st_stop_id := "A1"; st_stop_sequence := 2 |} ];
     trips := ex_trips;
     routes := routes ex_db |}.

Definition ex_params_straight : parameters :=
  {| route_types_Street := []; route_types_Straight := [3%Z]; driveSide := "Right" |}.

(** The rows of a table that carry the id [id], in table order. *)
Definition rows_with {A} (key : A → string) (id : string) (l : list A) : list A :=
  filter (λ r, key r = id) l.

(** The GTFS label of the code [int] reads in a route_type cell. *)
Definition route_type_text_of (rt : runtime) (route : route_row) : string :=
  match int_of_cell rt (r_route_type route) with
  | Ok z => default "" (route_type_dict !! z)
  | Raise _ => ""
  end.

(** A feed whose only route has the route_type 3.5, a REAL cell. *)
Definition ex_db_real : gtfs :=
  {| stops := ex_stops; stop_times := ex_stop_times; trips := ex_trips;
     routes := [ ex_route "R1" None (Real (Finite 3.5)); ex_route "R2" None (Text " 3 ") ] |}.

(** The vertex [Point(X = stop_lon, Y = stop_lat)] of a located stop. *)
Definition vertex_of (stoplatlon_dict : gmap string (Q * Q)) (stop : string) : option point :=
  (λ latlon : Q * Q, (latlon.2, latlon.1)) <$> stoplatlon_dict !! stop.

Definition ex_street_state : street_state :=
  {| fc := {| outRoutesfc := None; outSequencePoints := [];
              NoRouteGenerated := [3; 1; 3]%Z; warnings := [] |};
     badStops := ["b"; "a"; "b"];
     unlocated_stops := [] |}.

(** ** Set up the run, fix some inputs (lines 98-167) *)

(** [s.split(sep)] for a non-empty [sep]: the occurrences of [sep] are found
    from left to right and do not overlap. [skip] counts the characters of an
    occurrence that are still to be passed over. *)
Fixpoint split_skip (sep : string) (skip : nat) (s : string) : list string :=
  match s with
  | EmptyString => [EmptyString]
  | String c s' =>
      match skip with
      | S k => split_skip sep k s'
      | O =>
          if String.prefix sep s
          then EmptyString :: split_skip sep (String.length sep - 1) s'
          else match split_skip sep 0 s' with
               | w :: ws => String c w :: ws
               | [] => [String c EmptyString]
               end
      end
  end.

Definition py_split (sep s : string) : list string := split_skip sep 0 s.

(** [s.strip(ch)] for a one-character argument. *)
Fixpoint lstrip_char (ch : ascii) (s : string) : string :=
  match s with
  | EmptyString => EmptyString
  | String c s' => if Ascii.eqb c ch then lstrip_char ch s' else s
  end.

Definition strip_char (ch : ascii) (s : string) : string :=
  String.rev (lstrip_char ch (String.rev (lstrip_char ch s))).

(** [int(rtype.split(" - ")[0].strip('\''))] *)
Definition route_type_of_text (rtype : string) : result Z :=
  do code <- first_item (py_split " - " rtype);
  int_of_text (strip_char "'" code).

(** Lines 100-115: the codes of one of the two inputs, a string such as
    [0 - Tram, Streetcar, Light rail;3 - Bus] or nothing. *)
Definition parse_route_types (in_route_type : option string) : result (list Z) :=
  let route_type_textlist :=
    match in_route_type with
    | None | Some EmptyString => []
    | Some s => py_split ";" s
    end in
  mapR route_type_of_text route_type_textlist.

(** [s.lower()] on the ASCII letters; the bytes of other characters are kept. *)
Definition lower_char (c : ascii) : ascii :=
  let n := nat_of_ascii c in
  if (65 <=? n)%nat && (n <=? 90)%nat then ascii_of_nat (n + 32) else c.

Fixpoint lower (s : string) : string :=
  match s with
  | EmptyString => EmptyString
  | String c s' => String (lower_char c) (lower s')
  end.

(** [s.endswith(suffix)] *)
Definition endswith (s suffix : string) : bool :=
  (String.length suffix <=? String.length s)%nat
  && String.eqb (substring (String.length s - String.length suffix)
                           (String.length suffix) s) suffix.

(** Lines 160-161: [if not outGDBName.lower().endswith(".gdb"): outGDBName += ".gdb"] *)
Definition gdb_name (outGDBName : string) : string :=
  if negb (endswith (lower outGDBName) ".gdb") then outGDBName +:+ ".gdb" else outGDBName.

(** One value of a route type input as the tool's dialog writes it: the
    code, [ - ] and the label, between single quotes or not. The closing
    quote, if any, is the end of [label]. *)
Definition route_type_entry (entry : bool * Z * string) : string :=
  (if entry.1.1 then "'" else "") +:+ pretty entry.1.2 +:+ " - " +:+ entry.2.

(** The characters of a string. *)
Definition chars (s : string) : list ascii := list_ascii_of_string s.

(** [digits_value] on a list of characters. *)
Fixpoint digits_value_list (acc : Z) (l : list ascii) : option Z :=
  match l with
  | [] => Some acc
  | c :: l' =>
      match digit_of c with
      | Some d => digits_value_list (10 * acc + d)%Z l'
      | None => None
      end
  end.

(** ** SQLize_GTFS (lines 453-587) and check_latlon_fields (lines 590-627)

    The stage reads the four GTFS files and sends SQL to SQLite. The model
    keeps the SQL as text and records what is sent, in order; whether SQLite
    accepts a command is left to the host. *)

(** What the stage can raise. [CustomError] carries the message given to
    [arcpy.AddError] right before the [raise]. *)
Inductive load_exn :=
| CustomError (msg : string)
| StopIteration
| UnicodeDecodeError
| SQLiteError
| PythonError (e : exn).

(** [x <= y] on floats: false as soon as one side is a NaN. *)
Definition float_le (x y : pyfloat) : bool :=
  match x, y with
  | NaN, _ | _, NaN => false
  | NegInf, _ | _, PosInf => true
  | _, NegInf | PosInf, _ => false
  | Finite p, Finite q => Qle_bool p q
  end.

(** What is sent to the connection: [c.execute(stmt)], one row of
    [c.executemany(stmt, rows)], or [conn.commit()]. *)
Inductive sql_command :=
| Execute (stmt : string) (params : list string)
| Commit.

Record loader_host := {
  (** [x.decode('utf-8-sig').strip()], [None] for a UnicodeDecodeError *)
  clean : string → option string;
  (** [float(s)], [None] for a ValueError *)
  float_of_text : string → option pyfloat;
  (** the order in which [for col in sql_schema[GTFSfile]] visits the keys *)
  iter_schema : list string → list string;
  (** [os.path.join] *)
  os_path_join : string → string → string;
  (** whether SQLite carries out a command, given those carried out before *)
  accepts : list sql_command → sql_command → bool }.

Record loader_laws (host : loader_host) : Prop := {
  iter_schema_keys : ∀ l, iter_schema host l ≡ₚ l }.

Inductive outcome (A : Type) : Type :=
| Done (a : A)
| Abort (e : load_exn).
Arguments Done {A} a.
Arguments Abort {A} e.

(** Computations that send commands and may raise. *)
Definition load (A : Type) : Type := list sql_command → list sql_command * outcome A.

Definition load_ret {A} (a : A) : load A := λ log, (log, Done a).

Definition load_bind {A B} (m : load A) (k : A → load B) : load B :=
  λ log, match m log with
         | (log', Done a) => k a log'
         | (log', Abort e) => (log', Abort e)
         end.

Definition lift {A} (r : outcome A) : load A := λ log, (log, r).

Notation "'perform' x <- m ; k" := (load_bind m (λ x, k))
  (at level 10, x pattern, m at level 100, k at level 200).

(** [for x in l: body(x)] *)
Fixpoint for_each {A} (body : A → load unit) (l : list A) : load unit :=
  match l with
  | [] => load_ret tt
  | x :: l' => perform _ <- body x; for_each body l'
  end.

Definition send (host : loader_host) (cmd : sql_command) : load unit :=
  λ log, if accepts host log cmd then (log ++ [cmd], Done tt) else (log, Abort SQLiteError).

(** Schema of standard GTFS, with a 1 or 0 to indicate if the field is
    required. *)
Definition sql_schema : list (string * list (string * (string * Z))) :=
  [ ("stops",
     [ ("stop_id", ("TEXT", 1)); ("stop_code", ("TEXT", 0)); ("stop_name", ("TEXT", 1));
       ("stop_desc", ("TEXT", 0)); ("stop_lat", ("REAL", 1)); ("stop_lon", ("REAL", 1));
       ("zone_id", ("TEXT", 0)); ("stop_url", ("TEXT", 0));
       ("location_type", ("INTEGER", 0)); ("parent_station", ("TEXT", 0));
       ("stop_timezone", ("TEXT", 0)); ("wheelchair_boarding", ("INTEGER", 0)) ]);
    ("stop_times",
     [ ("trip_id", ("TEXT", 1)); ("arrival_time", ("TEXT", 1));
       ("departure_time", ("TEXT", 1)); ("stop_id", ("TEXT", 1));
       ("stop_sequence", ("INTEGER", 1)); ("stop_headsign", ("TEXT", 0));
       ("pickup_type", ("INTEGER", 0)); ("drop_off_type", ("INTEGER", 0));
       ("shape_dist_traveled", ("REAL", 0)) ]);
    ("trips",
     [ ("route_id", ("TEXT", 1)); ("service_id", ("TEXT", 1)); ("trip_id", ("TEXT", 1));
       ("trip_headsign", ("TEXT", 0)); ("trip_short_name", ("TEXT", 0));
       ("direction_id", ("INTEGER", 0)); ("block_id", ("TEXT", 0));
       ("shape_id", ("TEXT", 0)); ("wheelchair_accessible", ("INTEGER", 0)) ]);
    ("routes",
     [ ("route_id", ("TEXT", 1)); ("agency_id", ("TEXT", 0));
       ("route_short_name", ("TEXT", 0)); ("route_long_name", ("TEXT", 0));
       ("route_desc", ("TEXT", 0)); ("route_type", ("INTEGER", 1));
       ("route_url", ("TEXT", 0)); ("route_color", ("TEXT", 0));
       ("route_text_color", ("TEXT", 0)) ]) ]%Z.

Definition files_to_sqlize : list string := ["stops"; "stop_times"; "trips"; "routes"].

(** [d[k]] on a dictionary written as a list of items. *)
Definition assoc {V} (k : string) (d : list (string * V)) : option V :=
  snd <$> head (filter (λ kv, kv.1 = k) d).

(** [sql_schema[GTFSfile][col]] *)
Definition schema_field (GTFSfile col : string) : option (string * Z) :=
  assoc GTFSfile sql_schema ≫= assoc col.

(** The [try] of lines 529-534: the type of the GTFS schema, or TEXT for a
    custom field. *)
Definition column_type (GTFSfile col : string) : string :=
  match schema_field GTFSfile col with
  | Some (type, _) => type
  | None => "TEXT"
  end.

(** [s[:-2]] *)
Definition drop_last2 (s : string) : string :=
  substring 0 (String.length s - 2) s.

(** Lines 527-535. *)
Definition schema_of (GTFSfile : string) (columns : list string) : string :=
  let schema :=
    foldl (λ schema col, schema +:+ col +:+ " " +:+ column_type GTFSfile col +:+ ", ")
          "" columns in
  drop_last2 schema.

Definition msg_missing_field (GTFSfile col : string) : string :=
  "GTFS file " +:+ GTFSfile +:+ ".txt is missing required field '" +:+ col +:+ "'.".

(** [l.index(x)] *)
Fixpoint list_index (x : string) (l : list string) : outcome nat :=
  match l with
  | [] => Abort (PythonError ValueError)
  | y :: l' => if decide (y = x) then Done 0%nat
               else match list_index x l' with
                    | Done i => Done (S i)
                    | Abort e => Abort e
                    end
  end.

(** [row[i]] *)
Definition row_item (row : list string) (i : nat) : outcome string :=
  match row !! i with
  | Some x => Done x
  | None => Abort (PythonError IndexError)
  end.

Definition msg_not_numerical (fname field stop_id value : string) : string :=
  "stop_id " +:+ quoted stop_id +:+ " in " +:+ fname +:+
  " contains an invalid non-numerical value for the " +:+ field +:+ " field: " +:+
  quoted value +:+
  ". Please double-check all lat/lon values in your stops.txt file.".

Definition msg_lat_range (fname stop_id value : string) : string :=
  "stop_id " +:+ quoted stop_id +:+ " in " +:+ fname +:+
  " contains an invalid value outside the range (-90, 90) the stop_lat field: " +:+
  quoted value +:+
  ". stop_lat values must be in valid WGS 84 coordinates.  Please double-check all lat/lon values in your stops.txt file.".

Definition msg_lon_range (fname stop_id value : string) : string :=
  "stop_id " +:+ quoted stop_id +:+ " in " +:+ fname +:+
  " contains an invalid value outside the range (-180, 180) the stop_lon field: " +:+
  quoted value +:+
  ". stop_lon values must be in valid WGS 84 coordinates.  Please double-check all lat/lon values in your stops.txt file.".

Definition outcome_bind {A B} (m : outcome A) (k : A → outcome B) : outcome B :=
  match m with
  | Done a => k a
  | Abort e => Abort e
  end.

Notation "'try' x <- m ; k" := (outcome_bind m (λ x, k))
  (at level 10, x pattern, m at level 100, k at level 200).

Section Loader.
Variable host : loader_host.

(** [check_latlon_cols(row)] of [check_latlon_fields(rows, col_names, fname)]. *)
Definition check_latlon_cols (col_names : list string) (fname : string)
    (row : list string) : outcome (list string) :=
  try i <- list_index "stop_id" col_names;
  try stop_id <- row_item row i;
  try i <- list_index "stop_lat" col_names;
  try stop_lat <- row_item row i;
  try i <- list_index "stop_lon" col_names;
  try stop_lon <- row_item row i;
  match float_of_text host stop_lat with
  | None => Abort (CustomError (msg_not_numerical fname "stop_lat" stop_id stop_lat))
  | Some stop_lat_float =>
      match float_of_text host stop_lon with
      | None => Abort (CustomError (msg_not_numerical fname "stop_lon" stop_id stop_lon))
      | Some stop_lon_float =>
          if negb (float_le (Finite (-90)) stop_lat_float
                   && float_le stop_lat_float (Finite 90))
          then Abort (CustomError (msg_lat_range fname stop_id stop_lat))
          else if negb (float_le (Finite (-180)) stop_lon_float
                        && float_le stop_lon_float (Finite 180))
          then Abort (CustomError (msg_lon_range fname stop_id stop_lon))
          else Done row
      end
  end.

(** Lines 537-542: make sure the file has all the required fields. *)
Definition check_required_fields (GTFSfile : string) (columns : list string)
  : outcome unit :=
  match assoc GTFSfile sql_schema with
  | None => Abort (PythonError KeyError)
  | Some fields =>
      foldr (λ col rest,
               match assoc col fields with
               | Some (_, required) =>
                   if (required =? 1)%Z && negb (bool_decide (col ∈ columns))
                   then Abort (CustomError (msg_missing_field GTFSfile col))
                   else rest
               | None => Abort (PythonError KeyError)
               end)
            (Done tt) (iter_schema host fields.*1)
  end.

(** One row of the generator [reader] of line 521. *)
Fixpoint clean_row (r : list string) : outcome (list string) :=
  match r with
  | [] => Done []
  | x :: r' =>
      match clean host x with
      | None => Abort UnicodeDecodeError
      | Some y => try ys <- clean_row r'; Done (y :: ys)
      end
  end.

Definition insert_stmt (GTFSfile : string) (columns : list string) : string :=
  let values_placeholders := replicate (length columns) "?" in
  "INSERT INTO " +:+ GTFSfile +:+ " (" +:+ String.concat "," columns +:+ ") VALUES (" +:+
  String.concat "," values_placeholders +:+ ");".

(** What [c.executemany] does with one record of the file: the row is
    cleaned, checked when the file is stops, and inserted. *)
Definition insert_record (GTFSfile fname : string) (columns : list string)
    (r : list string) : load unit :=
  perform row <- lift (clean_row r);
  perform row <- lift (if decide (GTFSfile = "stops")
                       then check_latlon_cols columns fname row
                       else Done row);
  send host (Execute (insert_stmt GTFSfile columns) row).

Definition add_column (table col type : string) : load unit :=
  perform _ <- send host (Execute ("ALTER TABLE " +:+ table +:+ " ADD COLUMN " +:+ col +:+
                                   " " +:+ type) []);
  send host Commit.

(** The body of [for GTFSfile in files_to_sqlize]; [records] is what
    [csv.reader] yields for the file. The second [strip] of the column
    names is left out: it leaves a stripped text as it is. *)
Definition SQLize_file (inGTFSdir GTFSfile : string) (records : list (list string))
  : load unit :=
  let fname := os_path_join host inGTFSdir GTFSfile +:+ ".txt" in
  match filter (λ r, (0 < length r)%nat) records with
  | [] => lift (Abort StopIteration)
  | header :: rows =>
      perform columns <- lift (clean_row header);
      let schema := schema_of GTFSfile columns in
      perform _ <- lift (check_required_fields GTFSfile columns);
      perform _ <- send host (Execute ("DROP TABLE IF EXISTS " +:+ GTFSfile +:+ ";") []);
      let create_stmt := "CREATE TABLE " +:+ GTFSfile +:+ " (" +:+ schema +:+ ");" in
      perform _ <- send host (Execute create_stmt []);
      perform _ <- send host Commit;
      perform _ <- for_each (insert_record GTFSfile fname columns) rows;
      perform _ <- send host Commit;
      perform _ <-
        (if decide (GTFSfile = "routes")
         then for_each (λ col, if bool_decide (col ∈ columns) then load_ret tt
                               else add_column "routes" col (column_type GTFSfile col))
                       (iter_schema host (default [] (assoc "routes" sql_schema)).*1)
         else load_ret tt);
      perform _ <-
        (if decide (GTFSfile = "trips")
         then if bool_decide ("shape_id" ∈ columns) then load_ret tt
              else perform _ <- send host (Execute "ALTER TABLE trips ADD COLUMN shape_id TEXT" []);
                   send host Commit
         else load_ret tt);
      (if decide (GTFSfile = "stop_times")
       then if bool_decide ("shape_dist_traveled" ∈ columns) then load_ret tt
            else perform _ <- send host (Execute "ALTER TABLE stop_times ADD COLUMN shape_dist_traveled REAL" []);
                 send host Commit
       else load_ret tt)
  end.

Definition SQLize_GTFS (inGTFSdir : string) (files : list string)
    (records_of : string → list (list string)) : load unit :=
  perform _ <- for_each (λ GTFSfile, SQLize_file inGTFSdir GTFSfile (records_of GTFSfile))
                        files;
  perform _ <- send host (Execute "CREATE INDEX stoptimes_index_tripIDs ON stop_times (trip_id);" []);
  send host (Execute "CREATE INDEX trips_index_tripIDs ON trips (trip_id);" []).
End Loader.

(** Whether a command inserts a row, and whether it adds a column. *)
Definition is_insert (cmd : sql_command) : bool :=
  match cmd with
  | Execute stmt _ => String.prefix "INSERT INTO " stmt
  | Commit => false
  end.

Definition drop_create (GTFSfile : string) (columns : list string) : list sql_command :=
  [ Execute ("DROP TABLE IF EXISTS " +:+ GTFSfile +:+ ";") [];
    Execute ("CREATE TABLE " +:+ GTFSfile +:+ " (" +:+ schema_of GTFSfile columns +:+ ");") [];
    Commit ].

Definition alter_stmt (table col : string) : string :=
  "ALTER TABLE " +:+ table +:+ " ADD COLUMN " +:+ col +:+ " " +:+ column_type table col.

(** A host that accepts every command, reads integers as floats and visits
    the schema in the order in which it is written. *)
Definition ex_host : loader_host :=
  {| clean := λ x, Some (strip x);
     float_of_text := λ s, match int_of_text s with
                           | Ok z => Some (Finite (inject_Z z))
                           | Raise _ => None
                           end;
     iter_schema := λ l, l;
     os_path_join := λ dir file, dir +:+ "/" +:+ file;
     accepts := λ _ _, true |}.

Definition ex_stops_header : list string :=
  ["stop_id"; "stop_name"; "stop_lat"; "stop_lon"].
(** The columns that lines 566-581 add to the table of a file. *)
Definition added_columns (host : loader_host) (GTFSfile : string) (columns : list string)
  : list string :=
  (if decide (GTFSfile = "routes")
   then filter (λ col, col ∉ columns)
               (iter_schema host (default [] (assoc "routes" sql_schema)).*1)
   else []) ++
  (if decide (GTFSfile = "trips")
   then if bool_decide ("shape_id" ∈ columns) then [] else ["shape_id"]
   else []) ++
  (if decide (GTFSfile = "stop_times")
   then if bool_decide ("shape_dist_traveled" ∈ columns) then []
        else ["shape_dist_traveled"]
   else []).

Definition add_column_commands (table col : string) : list sql_command :=
  [ Execute (alter_stmt table col) []; Commit ].

(** The columns that the rest of the run reads or writes in a table. *)
Definition needed_column (GTFSfile col : string) : Prop :=
  (GTFSfile = "routes" ∧ is_Some (schema_field "routes" col)) ∨
  (GTFSfile = "trips" ∧ col = "shape_id") ∨
  (GTFSfile = "stop_times" ∧ col = "shape_dist_traveled").

(** A trips file with a blank record, and a stops file whose second stop has
    a latitude of 91. *)
Definition ex_trips_records : list (list string) :=
  [ ["trip_id"; "route_id"; "service_id"]; []; ["A"; "R1"; "weekday"] ].

Definition ex_stops_records : list (list string) :=
  [ ex_stops_header; ["S1"; "First"; "10"; "20"]; ["S2"; "Second"; "91"; "20"];
    ["S3"; "Third"; "30"; "40"] ].

Definition commands_of (m : load unit) : list sql_command := (m []).1.

Definition ex_records_of (GTFSfile : string) : list (list string) :=
  if decide (GTFSfile = "stops") then ex_stops_records
  else if decide (GTFSfile = "trips") then ex_trips_records
  else [].

(** A solver that finds no route for shape 1, says so in its warnings, and
    returns a line for every other shape it is given. *)
Definition solve_but_1 (pts : list seq_point) : solve_outcome :=
  if bool_decide (1%Z ∈ pt_shape_id <$> pts)
  then Solved ((λ sh, (sh, [])) <$>
                 remove_dups (filter (λ sh, sh ≠ 1%Z) (pt_shape_id <$> pts)))
              ("No route for " +:+ quoted "1" +:+ ".")
  else solve_all pts.

(** What the run needs from the solver to go on after a Solve that
    returned: lines named after shape ids of its input, and warnings in
    which each [No route for ] line quotes an integer and each unlocated
    line quotes something. *)
Definition solver_readable (solve : list seq_point → solve_outcome) : Prop :=
  ∀ pts RoutesLayer warning_messages,
    solve pts = Solved RoutesLayer warning_messages →
    (∀ name, name ∈ RoutesLayer.*1 → name ∈ pt_shape_id <$> pts) ∧
    ∃ ids stops, foldM read_warning ([], []) (split_lines warning_messages)
                 = Ok (ids, stops).

(** * Properties *)

(** ** The error monad *)

Lemma foldM_app {A B} (f : B → A → result B) b l1 l2 :
  foldM f b (l1 ++ l2) = do b' <- foldM f b l1; foldM f b' l2.
Proof.
  revert b. induction l1 as [|x l1 IH]; intros b; simpl; [done|].
  destruct (f b x) as [b'|e]; simpl; [apply IH|done].
Qed.

Lemma foldM_Ok_foldl {A B} (f : B → A → result B) (g : B → A → B) l b :
  (∀ b x, x ∈ l → f b x = Ok (g b x)) → foldM f b l = Ok (foldl g b l).
Proof.
  revert b. induction l as [|x l IH]; intros b Hf; simpl; [done|].
  rewrite Hf by left. simpl. apply IH. intros b' y Hy. apply Hf. by right.
Qed.

Lemma foldM_Raise {A B} (f : B → A → result B) e l1 x l2 b :
  (∀ b, f b x = Raise e) →
  (∀ b y, y ∈ l1 → ∃ b', f b y = Ok b') →
  foldM f b (l1 ++ x :: l2) = Raise e.
Proof.
  intros Hx. revert b. induction l1 as [|y l1 IH]; intros b Hl; simpl.
  - by rewrite Hx.
  - destruct (Hl b y) as [b' ->]; [left|]. simpl. apply IH.
    intros b'' z Hz. apply Hl. by right.
Qed.

Lemma bind_Ok {A B} (m : result A) (k : A → result B) b :
  bind m k = Ok b ↔ ∃ a, m = Ok a ∧ k a = Ok b.
Proof.
  destruct m as [a|e]; simpl; split.
  - eauto.
  - by intros (a' & [= ->] & ?).
  - done.
  - by intros (? & ? & ?).
Qed.

(** ** first_seen *)

Section FirstSeen.
Context `{EqDecision A}.
Implicit Types l : list A.

Lemma first_seen_snoc l k :
  first_seen (l ++ [k]) =
    if decide (k ∈ first_seen l) then first_seen l else first_seen l ++ [k].
Proof. unfold first_seen. by rewrite foldl_app. Qed.

Lemma elem_of_first_seen l x : x ∈ first_seen l ↔ x ∈ l.
Proof.
  induction l as [|k l IH] using rev_ind.
  - done.
  - rewrite first_seen_snoc. case_decide; set_solver.
Qed.

Lemma NoDup_first_seen l : NoDup (first_seen l).
Proof.
  induction l as [|k l IH] using rev_ind.
  - constructor.
  - rewrite first_seen_snoc. case_decide; [done|].
    apply NoDup_app. split_and!; [done| |apply NoDup_singleton].
    intros x Hx ->%list_elem_of_singleton. done.
Qed.

Lemma first_seen_nil : first_seen (@nil A) = [].
Proof. done. Qed.
End FirstSeen.

Lemma length_first_seen_size `{Countable A} (l : list A) :
  length (first_seen l) = size (list_to_set l : gset A).
Proof.
  rewrite <- (size_list_to_set (C := gset A) (first_seen l)) by apply NoDup_first_seen.
  f_equal. apply set_eq. intros x.
  by rewrite !elem_of_list_to_set, elem_of_first_seen.
Qed.

(** ** Reading a pasted id *)

Lemma String_app c s t : String c s +:+ t = String c (s +:+ t).
Proof. done. Qed.

Lemma empty_app t : "" +:+ t = t.
Proof. done. Qed.

Lemma read_quoted_no_quote s :
  no_quote s = true → read_quoted (s +:+ "'") = Closed s "".
Proof.
  induction s as [|c s IH]; [done|].
  cbn [no_quote]. intros [Hc Hs]%andb_true_iff. apply negb_true_iff in Hc.
  rewrite String_app. cbn [read_quoted]. rewrite Hc, IH by done. done.
Qed.

(** An id without quote and NUL selects by comparison with itself. *)
Lemma where_trip_id_plain trip :
  plain_id trip = true → where_trip_id trip = Equals trip.
Proof.
  unfold plain_id, where_trip_id. intros [Hq Hn]%andb_true_iff.
  apply negb_true_iff in Hn. by rewrite Hn, read_quoted_no_quote.
Qed.

(** ** Sorting the selected stops *)

Lemma insert_sorted_fmap {A B} (f : A → B) (leA : A → A → bool) (leB : B → B → bool) x l :
  (∀ a b, leB (f a) (f b) = leA a b) →
  insert_sorted leB (f x) (f <$> l) = f <$> insert_sorted leA x l.
Proof.
  intros Hle. induction l as [|y l IH]; [done|].
  rewrite fmap_cons. cbn [insert_sorted]. rewrite Hle.
  destruct (leA x y); [done|]. by rewrite fmap_cons, IH.
Qed.

Lemma sorted_fmap {A B} (f : A → B) (leA : A → A → bool) (leB : B → B → bool) l :
  (∀ a b, leB (f a) (f b) = leA a b) →
  sorted leB (f <$> l) = f <$> sorted leA l.
Proof.
  intros Hle. induction l as [|x l IH]; [done|].
  rewrite fmap_cons. unfold sorted in *. cbn [foldr]. rewrite IH.
  by apply insert_sorted_fmap.
Qed.

(** On the rows of one trip id, the script's sort gives the stop sequence
    of that trip. *)
Lemma sort_stops_select stop_times trip :
  sort_stops (select_stops stop_times trip) = spec_stop_sequence stop_times trip.
Proof.
  unfold sort_stops, select_stops, spec_stop_sequence.
  rewrite (sorted_fmap _ (λ a b, (st_stop_sequence a <=? st_stop_sequence b)%Z)) by done.
  by rewrite <- list_fmap_compose.
Qed.

(** ** The dedup loop *)

Lemma dedup_inv_init : dedup_inv [] dedup_init.
Proof.
  split; simpl.
  - intros k i. rewrite lookup_empty. split; [done|]. by intros (n & ? & _).
  - done.
  - intros sh t. unfold trips_of_shape. simpl. rewrite lookup_empty. simpl.
    split; [by intros ?%elem_of_nil|]. by intros (k & ?%elem_of_nil & _).
  - intros sh. rewrite lookup_empty. split; [by intros [? ?]|].
    intros (k & Hk). by rewrite lookup_empty in Hk.
Qed.

Lemma dedup_inv_step tks st t k :
  dedup_inv tks st → dedup_inv (tks ++ [(t, k)]) (assign_shape st (t, k)).
Proof.
  intros [Hssd Hid Hstd Hdom].
  unfold assign_shape. simpl.
  destruct (sequence_shape_dict st !! k) as [sh|] eqn:Hk.
  - (* the key was seen before *)
    assert (Hfs : first_seen (tks ++ [(t, k)]).*2 = first_seen tks.*2).
    { rewrite fmap_app. simpl. rewrite first_seen_snoc.
      rewrite decide_True; [done|].
      apply Hssd in Hk as (n & Hn & _). by eapply list_elem_of_lookup_2. }
    split; simpl; rewrite ?Hfs; try done.
    + intros sh' t'. unfold trips_of_shape, setdefault_append. simpl.
      destruct (decide (sh' = sh)) as [->|Hne].
      * rewrite lookup_insert_eq. simpl.
        rewrite elem_of_app, list_elem_of_singleton.
        fold (trips_of_shape st sh). rewrite Hstd. split.
        -- intros [(k' & Hin & Hk')| ->].
           ++ exists k'. split; [apply elem_of_app; by left|done].
           ++ exists k. split; [apply elem_of_app; right; by left|done].
        -- intros (k' & [Hin|Hin%list_elem_of_singleton]%elem_of_app & Hk').
           ++ left. eauto.
           ++ right. congruence.
      * rewrite lookup_insert_ne by done.
        fold (trips_of_shape st sh'). rewrite Hstd. split.
        -- intros (k' & Hin & Hk'). exists k'. split; [apply elem_of_app; by left|done].
        -- intros (k' & [Hin|Hin%list_elem_of_singleton]%elem_of_app & Hk'); [eauto|].
           congruence.
    + intros sh'. unfold setdefault_append.
      destruct (decide (sh' = sh)) as [->|Hne].
      * rewrite lookup_insert_eq. split; [eauto|]. intros _. eauto.
      * rewrite lookup_insert_ne by done. apply Hdom.
  - (* a new key *)
    assert (Hnin : k ∉ first_seen tks.*2).
    { intros (n & Hn)%list_elem_of_lookup_1.
      assert (sequence_shape_dict st !! k = Some (Z.of_nat n + 1)%Z) as Hk'
        by (apply Hssd; eauto).
      congruence. }
    assert (Hfs : first_seen (tks ++ [(t, k)]).*2 = first_seen tks.*2 ++ [k]).
    { rewrite fmap_app. simpl. rewrite first_seen_snoc. by rewrite decide_False. }
    assert (Hfresh : ∀ k', sequence_shape_dict st !! k' ≠ Some (shape_id st)).
    { intros k' (n & Hn & Heq)%Hssd. apply lookup_lt_Some in Hn. lia. }
    assert (Hnone : shape_trip_dict st !! shape_id st = None).
    { apply eq_None_not_Some. intros (k' & Hk')%Hdom. by eapply Hfresh. }
    split; simpl; rewrite ?Hfs.
    + intros k' i. destruct (decide (k' = k)) as [->|Hne].
      * rewrite lookup_insert_eq. split.
        -- intros [= <-]. exists (length (first_seen tks.*2)).
           split; [|lia]. rewrite lookup_app_r by lia.
           by rewrite Nat.sub_diag.
        -- intros (n & Hn & ->). f_equal.
           destruct (decide (n < length (first_seen tks.*2))%nat) as [Hlt|Hge].
           ++ rewrite lookup_app_l in Hn by done.
              exfalso. apply Hnin. by eapply list_elem_of_lookup_2.
           ++ apply lookup_lt_Some in Hn. rewrite length_app in Hn. simpl in Hn. lia.
      * rewrite lookup_insert_ne by done. rewrite Hssd. split.
        -- intros (n & Hn & ->). exists n. split; [|done].
           by apply lookup_app_l_Some.
        -- intros (n & Hn & ->). exists n. split; [|done].
           apply lookup_app_Some in Hn as [Hn|[_ Hn]]; [done|].
           apply list_lookup_singleton_Some in Hn as [_ ?]. congruence.
    + rewrite length_app. simpl. lia.
    + intros sh' t'. unfold trips_of_shape, setdefault_append. simpl.
      destruct (decide (sh' = shape_id st)) as [->|Hne].
      * rewrite lookup_insert_eq, Hnone. simpl. rewrite list_elem_of_singleton. split.
        -- intros ->. exists k. split; [apply elem_of_app; right; by left|].
           by rewrite lookup_insert_eq.
        -- intros (k' & [Hin|Hin%list_elem_of_singleton]%elem_of_app & Hk').
           ++ destruct (decide (k' = k)) as [->|Hne'].
              ** assert (t' ∈ trips_of_shape st (shape_id st)) as Hin'.
                 { apply Hstd. exists k. split; [done|].
                   exfalso.
                   assert (k ∈ tks.*2) as Hkin by (apply list_elem_of_fmap; by exists (t', k)).
                   apply Hnin. by apply elem_of_first_seen. }
                 unfold trips_of_shape in Hin'. rewrite Hnone in Hin'.
                 by apply elem_of_nil in Hin'.
              ** rewrite lookup_insert_ne in Hk' by done. by apply Hfresh in Hk'.
           ++ congruence.
      * rewrite lookup_insert_ne by done.
        fold (trips_of_shape st sh'). rewrite Hstd. split.
        -- intros (k' & Hin & Hk'). exists k'. split; [apply elem_of_app; by left|].
           rewrite lookup_insert_ne; [done|]. congruence.
        -- intros (k' & [Hin|Hin%list_elem_of_singleton]%elem_of_app & Hk').
           ++ exists k'. split; [done|].
              destruct (decide (k' = k)) as [->|Hne'].
              ** rewrite lookup_insert_eq in Hk'. congruence.
              ** by rewrite lookup_insert_ne in Hk'.
           ++ injection Hin as -> ->. rewrite lookup_insert_eq in Hk'. congruence.
    + intros sh'. unfold setdefault_append.
      destruct (decide (sh' = shape_id st)) as [->|Hne].
      * rewrite lookup_insert_eq. split; [|eauto].
        intros _. exists k. by rewrite lookup_insert_eq.
      * rewrite lookup_insert_ne by done. rewrite Hdom. split.
        -- intros (k' & Hk'). exists k'. rewrite lookup_insert_ne; [done|]. congruence.
        -- intros (k' & Hk'). exists k'.
           destruct (decide (k' = k)) as [->|Hne'].
           ++ rewrite lookup_insert_eq in Hk'. congruence.
           ++ by rewrite lookup_insert_ne in Hk'.
Qed.

Lemma dedup_inv_foldl tks : dedup_inv tks (foldl assign_shape dedup_init tks).
Proof.
  induction tks as [|[t k] tks IH] using rev_ind.
  - apply dedup_inv_init.
  - rewrite foldl_app. simpl. by apply dedup_inv_step.
Qed.

Section Dedup.
Variable rt : runtime.
Variable trd : gmap string string.
Variable stt : list stop_time_row.

Lemma dedup_step_assign st t k :
  key_of rt trd stt t = Some k →
  dedup_step rt trd stt st t = Ok (assign_shape st (t, k)).
Proof.
  unfold key_of, dedup_step, getitem, assign_shape.
  destruct (stop_sequence_of rt stt t) as [l|]; [|done]. simpl.
  destruct (trd !! t) as [r|]; [|done]. simpl. intros [= <-]. simpl.
  by destruct (sequence_shape_dict st !! _).
Qed.

Lemma dedup_step_Raise st t :
  key_of rt trd stt t = None →
  dedup_step rt trd stt st t =
    match stop_sequence_of rt stt t with
    | Ok _ => Raise KeyError
    | Raise e => Raise e
    end.
Proof.
  unfold key_of, dedup_step, getitem.
  destruct (stop_sequence_of rt stt t) as [l|]; [|done]. simpl.
  by destruct (trd !! t).
Qed.

Lemma dedup_step_Ok st t st' :
  dedup_step rt trd stt st t = Ok st' → is_Some (key_of rt trd stt t).
Proof.
  intros Hstep. destruct (key_of rt trd stt t) as [k|] eqn:Hk; [eauto|].
  rewrite dedup_step_Raise in Hstep by done.
  by destruct (stop_sequence_of rt stt t).
Qed.

Lemma elem_of_keyed ts t k :
  (t, k) ∈ keyed rt trd stt ts ↔ t ∈ ts ∧ key_of rt trd stt t = Some k.
Proof.
  unfold keyed. rewrite list_elem_of_omap. split.
  - intros (t' & Hin & Heq). destruct (key_of rt trd stt t') as [k'|] eqn:Hk; [|done].
    simpl in Heq. by injection Heq as -> ->.
  - intros [Hin Hk]. exists t. by rewrite Hk.
Qed.

Lemma keyed_keys ts : (keyed rt trd stt ts).*2 = omap (key_of rt trd stt) ts.
Proof.
  unfold keyed. induction ts as [|t ts IH]; [done|]. simpl.
  destruct (key_of rt trd stt t); simpl; [f_equal|]; apply IH.
Qed.

Lemma foldM_dedup_Ok ts st0 :
  (∀ t, t ∈ ts → is_Some (key_of rt trd stt t)) →
  foldM (dedup_step rt trd stt) st0 ts = Ok (foldl assign_shape st0 (keyed rt trd stt ts)).
Proof.
  revert st0. induction ts as [|t ts IH]; intros st0 Hall; [done|].
  destruct (Hall t) as [k Hk]; [left|].
  simpl. rewrite (dedup_step_assign _ _ k Hk). simpl.
  unfold keyed. simpl. rewrite Hk. simpl.
  apply IH. intros t' Ht'. apply Hall. by right.
Qed.

(** The loop stops at the first trip for which it computes no key, with
    what the SELECT raised or, when the SELECT returned, with KeyError. *)
Lemma foldM_dedup_Raise ts1 t ts2 st0 :
  (∀ t', t' ∈ ts1 → is_Some (key_of rt trd stt t')) →
  key_of rt trd stt t = None →
  foldM (dedup_step rt trd stt) st0 (ts1 ++ t :: ts2) =
    match stop_sequence_of rt stt t with
    | Ok _ => Raise KeyError
    | Raise e => Raise e
    end.
Proof.
  intros Hall Hnone. rewrite foldM_app, foldM_dedup_Ok by done. simpl.
  rewrite dedup_step_Raise by done. by destruct (stop_sequence_of rt stt t).
Qed.

(** The loop returns exactly when it computes a key for every trip it
    visits, and then its state is the one the invariant describes. *)
Lemma dedup_Ok_iff ts :
  (∃ st, dedup rt trd stt ts = Ok st) ↔ ∀ t, t ∈ ts → is_Some (key_of rt trd stt t).
Proof.
  split.
  - unfold dedup. generalize dedup_init. induction ts as [|x ts IH]; intros st0 [st Hst] t Hin.
    + by apply elem_of_nil in Hin.
    + simpl in Hst. destruct (dedup_step rt trd stt st0 x) as [st1|] eqn:Hstep; [|done].
      apply elem_of_cons in Hin as [->|Hin]; [by eapply dedup_step_Ok|].
      eapply IH; eauto.
  - intros Hall. eexists. by apply foldM_dedup_Ok.
Qed.

Lemma dedup_Ok_inv ts st :
  dedup rt trd stt ts = Ok st →
  (∀ t, t ∈ ts → is_Some (key_of rt trd stt t)) ∧ dedup_inv (keyed rt trd stt ts) st.
Proof.
  intros Hst.
  assert (Hall : ∀ t, t ∈ ts → is_Some (key_of rt trd stt t)) by (apply dedup_Ok_iff; eauto).
  split; [done|]. unfold dedup in Hst. rewrite foldM_dedup_Ok in Hst by done.
  injection Hst as <-. apply dedup_inv_foldl.
Qed.

(** When every SELECT returns, a trip without a route ends the loop with
    KeyError. *)
Lemma foldM_dedup_KeyError ts st0 t :
  (∀ t', t' ∈ ts → ∃ l, stop_sequence_of rt stt t' = Ok l) →
  t ∈ ts → trd !! t = None →
  foldM (dedup_step rt trd stt) st0 ts = Raise KeyError.
Proof.
  revert st0. induction ts as [|x ts IH]; intros st0 Hsel Hin Hnone.
  - by apply elem_of_nil in Hin.
  - simpl. destruct (Hsel x) as [l Hl]; [left|].
    destruct (key_of rt trd stt x) as [k|] eqn:Hk.
    + rewrite (dedup_step_assign _ _ k Hk). simpl. apply IH; [|  |done].
      * intros t' Ht'. apply Hsel. by right.
      * apply elem_of_cons in Hin as [->|Hin]; [|done].
        unfold key_of in Hk. rewrite Hl, Hnone in Hk. done.
    + rewrite dedup_step_Raise by done. by rewrite Hl.
Qed.

(** An id that reads the same inside quotes selects its own rows. *)
Lemma stop_sequence_of_plain t :
  plain_id t = true → stop_sequence_of rt stt t = Ok (spec_stop_sequence stt t).
Proof.
  intros Hplain. unfold stop_sequence_of, selectedstops.
  rewrite where_trip_id_plain by done. simpl. by rewrite sort_stops_select.
Qed.

Lemma key_of_plain t :
  plain_id t = true →
  key_of rt trd stt t = (λ route_id, (route_id, spec_stop_sequence stt t)) <$> trd !! t.
Proof. intros Hplain. unfold key_of. by rewrite stop_sequence_of_plain. Qed.
End Dedup.

(** Consequences of the invariant. *)
Section DedupInv.
Context {tks : list (string * sequence_key)} {st : dedup_state}.
Hypothesis Hinv : dedup_inv tks st.

Lemma inv_ssd_inj k1 k2 sh :
  sequence_shape_dict st !! k1 = Some sh → sequence_shape_dict st !! k2 = Some sh →
  k1 = k2.
Proof.
  intros (n1 & Hn1 & ->)%(inv_ssd _ _ Hinv) (n2 & Hn2 & Heq)%(inv_ssd _ _ Hinv).
  assert (n1 = n2) as -> by lia. congruence.
Qed.

Lemma inv_ssd_dom k :
  is_Some (sequence_shape_dict st !! k) ↔ k ∈ tks.*2.
Proof.
  rewrite <- elem_of_first_seen. split.
  - intros [sh (n & Hn & _)%(inv_ssd _ _ Hinv)]. by eapply list_elem_of_lookup_2.
  - intros (n & Hn)%list_elem_of_lookup_1. eexists. apply (inv_ssd _ _ Hinv). eauto.
Qed.

Lemma inv_ssd_range sh :
  (∃ k, sequence_shape_dict st !! k = Some sh) ↔ (1 ≤ sh ≤ numshapes st)%Z.
Proof.
  unfold numshapes. rewrite (inv_shape_id _ _ Hinv). split.
  - intros (k & (n & Hn & ->)%(inv_ssd _ _ Hinv)). apply lookup_lt_Some in Hn. lia.
  - intros Hsh.
    destruct (lookup_lt_is_Some_2 (first_seen tks.*2) (Z.to_nat (sh - 1))) as [k Hk]; [lia|].
    exists k. apply (inv_ssd _ _ Hinv). exists (Z.to_nat (sh - 1)). split; [done|lia].
Qed.
End DedupInv.

Lemma make_trip_route_dict_None l t :
  make_trip_route_dict l !! t = None ↔ t ∉ tr_trip_id <$> l.
Proof.
  unfold make_trip_route_dict.
  induction l as [|row l IH] using rev_ind; simpl.
  - rewrite lookup_empty. split; [|done]. intros _ ?%elem_of_nil. done.
  - rewrite foldl_app, fmap_app. simpl. rewrite lookup_insert_None, IH.
    rewrite not_elem_of_app, list_elem_of_singleton. naive_solver.
Qed.

Lemma make_trip_route_dict_Some l t r :
  make_trip_route_dict l !! t = Some r →
  ∃ row, row ∈ l ∧ tr_trip_id row = t ∧ tr_route_id row = r.
Proof.
  unfold make_trip_route_dict.
  induction l as [|row l IH] using rev_ind; simpl.
  - by rewrite lookup_empty.
  - rewrite foldl_app. simpl. intros [[<- <-]|[_ H]]%lookup_insert_Some.
    + exists row. split; [apply elem_of_app; right; by left|done].
    + destruct (IH H) as (row' & Hin & ?). exists row'.
      split; [apply elem_of_app; by left|done].
Qed.

(** A trip the loop has visited is in the trip list of the shape of its key
    and in no other. *)
Lemma dedup_shape_of_trip rt trd stt ts st T k :
  dedup_inv (keyed rt trd stt ts) st →
  T ∈ ts → key_of rt trd stt T = Some k →
  ∃ sh, sequence_shape_dict st !! k = Some sh ∧
        ∀ sh', T ∈ trips_of_shape st sh' ↔ sh' = sh.
Proof.
  intros Hinv HT Hk.
  assert (HTk : (T, k) ∈ keyed rt trd stt ts) by (by apply elem_of_keyed).
  destruct (proj2 (inv_ssd_dom Hinv k)) as [sh Hsh].
  { apply list_elem_of_fmap. by exists (T, k). }
  exists sh. split; [done|]. intros sh'. rewrite (inv_std _ _ Hinv). split.
  - intros (k' & Hin & Hk'). apply elem_of_keyed in Hin as [_ Hin]. congruence.
  - intros ->. eauto.
Qed.

Lemma ex_rt_with_laws solver : runtime_laws (ex_rt_with solver).
Proof.
  split; simpl; intros.
  - apply NoDup_remove_dups.
  - apply elem_of_remove_dups.
  - done.
  - done.
  - apply NoDup_remove_dups.
  - apply elem_of_remove_dups.
Qed.

(** ** The trip ids pasted into the SELECT (line 321)

    [SQLize_GTFS] hands its values to SQLite through [?] placeholders;
    [RunStep1] pastes the trip id into the statement text. *)

Lemma elem_of_alltrips_doubled rt t :
  runtime_laws rt → t ∈ alltrips rt ex_db_doubled ↔ t = "A" ∨ t = "N''1".
Proof.
  intros Hrt. unfold alltrips. rewrite (select_distinct_elem _ Hrt).
  cbn. rewrite !elem_of_cons, elem_of_nil. naive_solver.
Qed.

(** The loop on the feed with the doubled quote: it returns, with the key
    (R1, (S1, S2)) for trip A and the key (R1, ()) for trip N''1. *)
Lemma dedup_doubled rt :
  runtime_laws rt →
  let trd := make_trip_route_dict (trips ex_db_doubled) in
  let stt := stop_times ex_db_doubled in
  key_of rt trd stt "A" = Some ("R1", ["S1"; "S2"]) ∧
  key_of rt trd stt "N''1" = Some ("R1", []) ∧
  ∃ st, dedup rt trd stt (alltrips rt ex_db_doubled) = Ok st ∧
        dedup_inv (keyed rt trd stt (alltrips rt ex_db_doubled)) st.
Proof.
  intros Hrt trd stt.
  assert (HA : key_of rt trd stt "A" = Some ("R1", ["S1"; "S2"])) by (by vm_compute).
  assert (HN : key_of rt trd stt "N''1" = Some ("R1", [])) by (by vm_compute).
  split_and!; [done|done|].
  destruct (proj2 (dedup_Ok_iff rt trd stt (alltrips rt ex_db_doubled))) as [st Hst].
  - intros t [->| ->]%(elem_of_alltrips_doubled rt t Hrt); eauto.
  - exists st. split; [done|]. by apply dedup_Ok_inv in Hst as [_ ?].
Qed.

(** C1 (what the code does): trips A and N''1 of the feed have the same
    route id and the same ordered stop sequence in stop_times, and the dedup
    loop puts them in the trip lists of two different shape ids, on every
    host. The id N''1 is pasted between quotes into the SELECT, where SQLite
    reads the two quotes as one: the statement selects the stop times of a
    trip N'1, which has none, and the key of N''1 gets the empty sequence. *)
Theorem C1_quote_in_trip_id_splits_one_key (rt : runtime) :
  runtime_laws rt →
  let db := ex_db_doubled in
  spec_key db "A" = Some ("R1", ["S1"; "S2"]) ∧
  spec_key db "N''1" = Some ("R1", ["S1"; "S2"]) ∧
  ∃ st sh1 sh2,
    dedup rt (make_trip_route_dict (trips db)) (stop_times db) (alltrips rt db) = Ok st ∧
    (∀ sh, "A" ∈ trips_of_shape st sh ↔ sh = sh1) ∧
    (∀ sh, "N''1" ∈ trips_of_shape st sh ↔ sh = sh2) ∧
    sh1 ≠ sh2.
Proof.
  intros Hrt db. split_and!; [by vm_compute|by vm_compute|].
  destruct (dedup_doubled rt Hrt) as (HA & HN & st & Hst & Hinv).
  assert (HinA : "A" ∈ alltrips rt ex_db_doubled)
    by (apply elem_of_alltrips_doubled; auto).
  assert (HinN : "N''1" ∈ alltrips rt ex_db_doubled)
    by (apply elem_of_alltrips_doubled; auto).
  destruct (dedup_shape_of_trip _ _ _ _ _ _ _ Hinv HinA HA) as (sh1 & Hsh1 & Hu1).
  destruct (dedup_shape_of_trip _ _ _ _ _ _ _ Hinv HinN HN) as (sh2 & Hsh2 & Hu2).
  exists st, sh1, sh2. split_and!; [done|done|done|].
  intros ->. by pose proof (inv_ssd_inj Hinv _ _ _ Hsh1 Hsh2).
Qed.

Lemma C1_witness :
  let db := ex_db_doubled in
  spec_key db "A" = Some ("R1", ["S1"; "S2"]) ∧
  spec_key db "N''1" = Some ("R1", ["S1"; "S2"]) ∧
  ∃ st sh1 sh2,
    dedup ex_rt (make_trip_route_dict (trips db)) (stop_times db) (alltrips ex_rt db) = Ok st ∧
    (∀ sh, "A" ∈ trips_of_shape st sh ↔ sh = sh1) ∧
    (∀ sh, "N''1" ∈ trips_of_shape st sh ↔ sh = sh2) ∧
    sh1 ≠ sh2.
Proof. apply (C1_quote_in_trip_id_splits_one_key ex_rt). apply ex_rt_with_laws. Defined.

(** C2 (what the code does): on the same feed the trips of stop_times have
    one (route_id, ordered stop sequence) key between them, and the loop
    counts two shapes, on every host: the second key it makes up for N''1
    has the empty stop sequence. *)
Theorem C2_quote_in_trip_id_adds_a_shape (rt : runtime) :
  runtime_laws rt →
  let db := ex_db_doubled in
  omap (spec_key db) (st_trip_id <$> stop_times db) = replicate 4 ("R1", ["S1"; "S2"]) ∧
  ∃ st,
    dedup rt (make_trip_route_dict (trips db)) (stop_times db) (alltrips rt db) = Ok st ∧
    numshapes st = 2%Z ∧
    (∃ sh, sequence_shape_dict st !! ("R1", []) = Some sh).
Proof.
  intros Hrt db. split; [by vm_compute|].
  destruct (dedup_doubled rt Hrt) as (HA & HN & st & Hst & Hinv).
  exists st. split; [done|]. split.
  - unfold numshapes. rewrite (inv_shape_id _ _ Hinv), keyed_keys.
    rewrite length_first_seen_size.
    set (key := key_of rt _ _).
    assert (Hset : (list_to_set (omap key (alltrips rt ex_db_doubled)) : gset sequence_key)
                   = {[ ("R1", ["S1"; "S2"]); ("R1", []) ]}).
    { apply set_eq. intros k. rewrite elem_of_list_to_set, list_elem_of_omap.
      rewrite elem_of_union, !elem_of_singleton. split.
      - intros (t & [->| ->]%(elem_of_alltrips_doubled rt t Hrt) & Hk);
          unfold key in Hk; rewrite ?HA, ?HN in Hk; injection Hk as <-; auto.
      - intros [->| ->]; [exists "A"|exists "N''1"];
          (split; [apply elem_of_alltrips_doubled; auto|done]). }
    rewrite Hset, size_union, !size_singleton; [done|].
    apply disjoint_singleton_l. by intros [=]%elem_of_singleton.
  - apply (inv_ssd_dom Hinv). rewrite keyed_keys. apply list_elem_of_omap.
    exists "N''1". split; [apply elem_of_alltrips_doubled; auto|done].
Qed.

Lemma C2_witness :
  let db := ex_db_doubled in
  omap (spec_key db) (st_trip_id <$> stop_times db) = replicate 4 ("R1", ["S1"; "S2"]) ∧
  ∃ st,
    dedup ex_rt (make_trip_route_dict (trips db)) (stop_times db) (alltrips ex_rt db) = Ok st ∧
    numshapes st = 2%Z ∧
    (∃ sh, sequence_shape_dict st !! ("R1", []) = Some sh).
Proof. apply (C2_quote_in_trip_id_adds_a_shape ex_rt). apply ex_rt_with_laws. Defined.

(** C10 (what the code does): trip Riders' of the feed is in stop_times and
    has no row in trips. The SELECT with the id pasted into it comes before
    the lookup of the route id; SQLite finds the literal left open and
    [execute] raises sqlite3.OperationalError, so the loop, the phase and
    the run end with that exception and not with KeyError, on every host. *)
Theorem C10_quote_in_orphan_trip_id_OperationalError (rt : runtime) (params : parameters) :
  runtime_laws rt →
  let db := ex_db_orphan_quote in
  "Riders'" ∈ st_trip_id <$> stop_times db ∧
  ("Riders'" ∉ tr_trip_id <$> trips db) ∧
  dedup rt (make_trip_route_dict (trips db)) (stop_times db) (alltrips rt db)
    = Raise OperationalError ∧
  dedup_phase rt db = Raise OperationalError ∧
  RunStep1 rt params db = Raise OperationalError.
Proof.
  intros Hrt db.
  assert (Hin : "Riders'" ∈ st_trip_id <$> stop_times db) 
    by (cbv [db ex_db_orphan_quote stop_times]; rewrite fmap_app;
        apply elem_of_app; right; apply list_elem_of_here).
  assert (Hd : dedup rt (make_trip_route_dict (trips db)) (stop_times db) (alltrips rt db)
               = Raise OperationalError).
  { apply (select_distinct_elem _ Hrt) in Hin as Hall.
    fold (alltrips rt db) in Hall.
    apply list_elem_of_split in Hall as (ts1 & ts2 & Heq). rewrite Heq.
    unfold dedup. rewrite foldM_dedup_Raise; [done| |done].
    intros t Ht.
    assert (Hne : t ≠ "Riders'").
    { intros ->. pose proof (select_distinct_NoDup _ Hrt (st_trip_id <$> stop_times db)) as Hnd.
      fold (alltrips rt db) in Hnd. rewrite Heq in Hnd.
      apply NoDup_app in Hnd as (_ & Hnd & _). apply (Hnd _ Ht). left. }
    assert (Ht' : t ∈ alltrips rt db) by (rewrite Heq; apply elem_of_app; by left).
    unfold alltrips in Ht'. apply (proj1 (select_distinct_elem _ Hrt _ _)) in Ht'.
    cbn in Ht'.
    repeat (apply elem_of_cons in Ht' as [->|Ht'];
            [first [congruence | vm_compute; by eauto]|]).
    by apply elem_of_nil in Ht'. }
  assert (Hp : dedup_phase rt db = Raise OperationalError).
  { unfold dedup_phase. by rewrite Hd. }
  split_and!; [done| |done|done|].
  { cbn. rewrite !elem_of_cons, elem_of_nil. naive_solver. }
  unfold RunStep1.
  assert (HR : ∃ RouteDict, make_RouteDict rt (routes db) = Ok RouteDict) by (by eexists).
  destruct HR as [RouteDict ->]. simpl. by rewrite Hp.
Qed.

Lemma C10_witness :
  let db := ex_db_orphan_quote in
  "Riders'" ∈ st_trip_id <$> stop_times db ∧
  ("Riders'" ∉ tr_trip_id <$> trips db) ∧
  dedup ex_rt (make_trip_route_dict (trips db)) (stop_times db) (alltrips ex_rt db)
    = Raise OperationalError ∧
  dedup_phase ex_rt db = Raise OperationalError ∧
  RunStep1 ex_rt {| route_types_Street := []; route_types_Straight := [3%Z];
                    driveSide := "Right" |} db = Raise OperationalError.
Proof.
  apply (C10_quote_in_orphan_trip_id_OperationalError ex_rt). apply ex_rt_with_laws.
Defined.

(** ** The trips table update *)

Lemma literal_of_plain trip : plain_id trip = true → literal_of trip = Some trip.
Proof. intros H. unfold literal_of. by rewrite where_trip_id_plain. Qed.

Lemma execute_update_literal rt conn shape trip literal :
  literal_of trip = Some literal →
  execute_update rt conn shape trip =
    Ok {| committed := committed conn;
          working := set_shape_id shape literal <$> working conn |}.
Proof.
  unfold literal_of, execute_update.
  destruct (where_trip_id trip); [|done..]. by intros [= ->].
Qed.

Lemma set_shape_id_ids sh t r :
  tr_trip_id (set_shape_id sh t r) = tr_trip_id r ∧
  tr_route_id (set_shape_id sh t r) = tr_route_id r.
Proof. unfold set_shape_id. by case_decide. Qed.

Lemma apply_writes_snoc ws w r :
  apply_writes (ws ++ [w]) r = set_shape_id w.1 w.2 (apply_writes ws r).
Proof. unfold apply_writes. by rewrite foldl_app. Qed.

Lemma apply_writes_app ws1 ws2 r :
  apply_writes (ws1 ++ ws2) r = apply_writes ws2 (apply_writes ws1 r).
Proof. unfold apply_writes. by rewrite foldl_app. Qed.

Lemma apply_writes_ids ws r :
  tr_trip_id (apply_writes ws r) = tr_trip_id r ∧
  tr_route_id (apply_writes ws r) = tr_route_id r.
Proof.
  induction ws as [|w ws IH] using rev_ind; [done|].
  rewrite apply_writes_snoc.
  destruct (set_shape_id_ids w.1 w.2 (apply_writes ws r)) as [-> ->]. done.
Qed.

Lemma apply_writes_untouched ws r :
  (∀ w, w ∈ ws → w.2 ≠ tr_trip_id r) → apply_writes ws r = r.
Proof.
  induction ws as [|w ws IH] using rev_ind; intros Hw; [done|].
  rewrite apply_writes_snoc, IH.
  - unfold set_shape_id. rewrite decide_False; [done|].
    intros Heq. apply (Hw w); [apply elem_of_app; right; by left|done].
  - intros w' Hw'. apply Hw. apply elem_of_app. by left.
Qed.

Lemma apply_writes_written ws r sh :
  (∃ w, w ∈ ws ∧ w.2 = tr_trip_id r) →
  (∀ w, w ∈ ws → w.2 = tr_trip_id r → w.1 = sh) →
  apply_writes ws r =
    {| tr_trip_id := tr_trip_id r; tr_route_id := tr_route_id r;
       tr_shape_id := Some (pretty sh) |}.
Proof.
  induction ws as [|w ws IH] using rev_ind; intros Hex Hsame.
  - destruct Hex as (w & ?%elem_of_nil & _). done.
  - rewrite apply_writes_snoc. unfold set_shape_id.
    destruct (apply_writes_ids ws r) as [Hid Hroute].
    case_decide as Hw.
    + rewrite Hid, Hroute. rewrite (Hsame w); [done| |congruence].
      apply elem_of_app. right. by left.
    + apply IH.
      * destruct Hex as (w' & [Hin|Hin%list_elem_of_singleton]%elem_of_app & Hw').
        -- eauto.
        -- congruence.
      * intros w' Hin. apply Hsame. apply elem_of_app. by left.
Qed.

Lemma literal_writes_app ws1 ws2 :
  literal_writes (ws1 ++ ws2) = literal_writes ws1 ++ literal_writes ws2.
Proof. unfold literal_writes. apply omap_app. Qed.

Lemma elem_of_literal_writes ws sh literal :
  (sh, literal) ∈ literal_writes ws ↔
  ∃ t, (sh, t) ∈ ws ∧ literal_of t = Some literal.
Proof.
  unfold literal_writes. rewrite list_elem_of_omap. split.
  - intros ([sh' t] & Hin & Heq). simpl in Heq.
    destruct (literal_of t) as [l|] eqn:Hl; [|done]. simpl in Heq.
    injection Heq as -> ->. eauto.
  - intros (t & Hin & Hl). exists (sh, t). split; [done|]. simpl. by rewrite Hl.
Qed.

(** For ids that read the same inside quotes, SQLite reads the statements
    as they were meant. *)
Lemma literal_writes_plain ws :
  (∀ w, w ∈ ws → plain_id w.2 = true) → literal_writes ws = ws.
Proof.
  induction ws as [|[sh t] ws IH]; intros Hall; [done|].
  unfold literal_writes in *. cbn [omap list_omap]. simpl.
  rewrite literal_of_plain by (apply (Hall (sh, t)); left). simpl.
  f_equal. apply IH. intros w Hw. apply Hall. by right.
Qed.

Section UpdateProofs.
Variable rt : runtime.
Variable trd : gmap string string.
Variable std : gmap Z (list string).

(** While the statements are plain comparisons, the inner loop rewrites the
    working copy row by row. *)
Lemma foldM_update_trip sh ts routes conn routes' conn' :
  (∀ t, t ∈ ts → is_Some (literal_of t)) →
  foldM (update_trip rt trd sh) (routes, conn) ts = Ok (routes', conn') →
  committed conn' = committed conn ∧
  working conn' = apply_writes (literal_writes (pair sh <$> ts)) <$> working conn.
Proof.
  revert routes conn. induction ts as [|t ts IH]; intros routes conn Hlit; simpl.
  - intros [= <- <-]. split; [done|].
    unfold apply_writes. simpl. by rewrite list_fmap_id.
  - destruct (Hlit t) as [literal Hl]; [left|].
    unfold update_trip at 1. destruct (getitem trd t) as [route|]; [|done]. simpl.
    rewrite (execute_update_literal _ _ _ _ literal Hl). simpl.
    intros [Hc Hw]%IH; [|intros t' Ht'; apply Hlit; by right].
    simpl in *. split; [done|].
    rewrite Hw, <- list_fmap_compose.
    unfold literal_writes. cbn [omap list_omap]. simpl. rewrite Hl. done.
Qed.

Lemma foldM_update_trip_Ok sh ts routes conn :
  (∀ t, t ∈ ts → is_Some (trd !! t) ∧ is_Some (literal_of t)) →
  ∃ routes' conn', foldM (update_trip rt trd sh) (routes, conn) ts = Ok (routes', conn').
Proof.
  revert routes conn. induction ts as [|t ts IH]; intros routes conn Hall; simpl.
  - eauto.
  - destruct (Hall t) as [[r Hr] [literal Hl]]; [left|].
    unfold update_trip at 1, getitem. rewrite Hr. simpl.
    rewrite (execute_update_literal _ _ _ _ literal Hl). simpl.
    apply IH. intros t' Ht'. apply Hall. by right.
Qed.

Lemma update_shape_spec srd conn sh srd' conn' :
  (∀ t, t ∈ default [] (std !! sh) → is_Some (literal_of t)) →
  update_shape rt trd std (srd, conn) sh = Ok (srd', conn') →
  committed conn' = working conn' ∧
  working conn' = apply_writes (literal_writes (writes_of std [sh])) <$> working conn.
Proof.
  unfold update_shape, getitem, writes_of. simpl.
  destruct (std !! sh) as [ts|]; [|done]. simpl. intros Hlit.
  destruct (foldM _ _ ts) as [[routes conn1]|] eqn:Hfold; [|done]. simpl.
  intros [= <- <-]. simpl.
  apply foldM_update_trip in Hfold as [_ Hw]; [|done].
  by rewrite app_nil_r.
Qed.

Lemma foldM_update_shape shapes srd conn srd' conn' :
  (∀ sh t, sh ∈ shapes → t ∈ default [] (std !! sh) → is_Some (literal_of t)) →
  foldM (update_shape rt trd std) (srd, conn) shapes = Ok (srd', conn') →
  (committed conn = working conn → committed conn' = working conn') ∧
  working conn' = apply_writes (literal_writes (writes_of std shapes)) <$> working conn.
Proof.
  revert srd conn. induction shapes as [|sh shapes IH]; intros srd conn Hlit; simpl.
  - intros [= <- <-]. split; [done|].
    unfold apply_writes. simpl. by rewrite list_fmap_id.
  - destruct (update_shape rt trd std (srd, conn) sh) as [[srd1 conn1]|] eqn:Hsh; [|done].
    simpl. intros [Hc Hw]%IH; [|intros sh' t Hsh' Ht; apply (Hlit sh'); [by right|done]].
    apply update_shape_spec in Hsh as [Hc1 Hw1]; [|intros t Ht; apply (Hlit sh); [left|done]].
    split; [auto|].
    rewrite Hw, Hw1, <- list_fmap_compose.
    apply list_fmap_ext. intros i r _. simpl.
    rewrite <- apply_writes_app, <- literal_writes_app. do 2 f_equal.
    unfold writes_of. simpl. by rewrite app_nil_r.
Qed.

Lemma foldM_update_shape_Ok shapes srd conn :
  (∀ sh, sh ∈ shapes →
     ∃ ts, std !! sh = Some ts ∧
           ∀ t, t ∈ ts → is_Some (trd !! t) ∧ is_Some (literal_of t)) →
  ∃ srd' conn', foldM (update_shape rt trd std) (srd, conn) shapes = Ok (srd', conn').
Proof.
  revert srd conn. induction shapes as [|sh shapes IH]; intros srd conn Hall; simpl.
  - eauto.
  - destruct (Hall sh) as (ts & Hts & Hroutes); [left|].
    unfold update_shape at 1, getitem. rewrite Hts. simpl.
    destruct (foldM_update_trip_Ok sh ts [] conn Hroutes) as (routes' & conn1 & ->).
    simpl. apply IH. intros sh' Hsh'. apply Hall. by right.
Qed.

Lemma elem_of_writes_of shapes sh t :
  (sh, t) ∈ writes_of std shapes ↔ sh ∈ shapes ∧ t ∈ default [] (std !! sh).
Proof.
  unfold writes_of. rewrite list_elem_of_bind. split.
  - intros (sh' & (t' & [= -> ->] & Ht)%list_elem_of_fmap & Hsh). done.
  - intros [Hsh Ht]. exists sh. split; [|done].
    apply list_elem_of_fmap. eauto.
Qed.
End UpdateProofs.

Lemma elem_of_map_to_list_keys `{Countable K} {V} (m : gmap K V) k :
  k ∈ (map_to_list m).*1 ↔ is_Some (m !! k).
Proof.
  rewrite list_elem_of_fmap. split.
  - intros ([k' v] & -> & Hin%elem_of_map_to_list). eauto.
  - intros [v Hv]. exists (k, v). split; [done|]. by apply elem_of_map_to_list.
Qed.

(** The trips in the trip lists are trips the loop visited. *)
Lemma trips_of_shape_visited rt db st sh t :
  runtime_laws rt →
  dedup_inv (keyed rt (make_trip_route_dict (trips db)) (stop_times db) (alltrips rt db)) st →
  t ∈ trips_of_shape st sh →
  t ∈ st_trip_id <$> stop_times db ∧ is_Some (make_trip_route_dict (trips db) !! t).
Proof.
  intros Hrt Hinv (k & Hin & _)%(inv_std _ _ Hinv).
  apply elem_of_keyed in Hin as [Hin Hk]. split.
  - by apply (select_distinct_elem _ Hrt).
  - unfold key_of in Hk. destruct (stop_sequence_of _ _ _); [|done].
    destruct (make_trip_route_dict _ !! t); [eauto|done].
Qed.

(** Once the dedup loop has returned, the table update returns too when
    each of its statements is a plain comparison. *)
Lemma dedup_phase_returns (rt : runtime) (db : gtfs) (st : dedup_state) :
  runtime_laws rt →
  (∀ T, T ∈ st_trip_id <$> stop_times db → is_Some (literal_of T)) →
  dedup rt (make_trip_route_dict (trips db)) (stop_times db) (alltrips rt db) = Ok st →
  ∃ shape_route_dict trips', dedup_phase rt db = Ok (st, shape_route_dict, trips').
Proof.
  intros Hrt Hlit Hst. unfold dedup_phase. rewrite Hst. simpl.
  apply dedup_Ok_inv in Hst as [Hall Hinv].
  unfold update_trips_table.
  edestruct (foldM_update_shape_Ok rt (make_trip_route_dict (trips db))
               (shape_trip_dict st) (iter_shape_trip_dict rt (shape_trip_dict st))
               ∅ (connect (trips db))) as (srd & conn & ->).
  - intros sh Hsh. rewrite (iter_shape_trip_dict_keys _ Hrt) in Hsh.
    apply elem_of_map_to_list_keys in Hsh as [ts Hts].
    exists ts. split; [done|]. intros t Ht.
    assert (t ∈ trips_of_shape st sh) as Hin by (unfold trips_of_shape; by rewrite Hts).
    destruct (trips_of_shape_visited rt db st sh t Hrt Hinv Hin) as [Hvis Hroute].
    split; [done|]. by apply Hlit.
  - simpl. eauto.
Qed.

(** The trips table after the phase, while each statement of the update is
    a plain comparison: every row rewritten by the statements as SQLite
    reads them, in the order of execution, and everything committed. *)
Lemma trips_table_after_update (rt : runtime) (db : gtfs) (st : dedup_state)
    (shape_route_dict : gmap Z (list string)) (trips' : list trip_row) :
  runtime_laws rt →
  (∀ T, T ∈ st_trip_id <$> stop_times db → is_Some (literal_of T)) →
  dedup_phase rt db = Ok (st, shape_route_dict, trips') →
  dedup_inv (keyed rt (make_trip_route_dict (trips db)) (stop_times db) (alltrips rt db)) st ∧
  ∃ ws,
    trips' = apply_writes ws <$> trips db ∧
    (∀ sh literal, (sh, literal) ∈ ws ↔
       ∃ t, t ∈ trips_of_shape st sh ∧ literal_of t = Some literal) ∧
    ∃ conn,
      update_trips_table rt (make_trip_route_dict (trips db)) (shape_trip_dict st)
        (connect (trips db)) = Ok (shape_route_dict, conn) ∧
      working conn = committed conn ∧ trips' = close conn.
Proof.
  intros Hrt Hlit Hphase.
  unfold dedup_phase in Hphase.
  destruct (dedup _ _ _ _) as [st0|] eqn:Hst; [|done]. simpl in Hphase.
  destruct (update_trips_table _ _ _ _) as [[srd conn]|] eqn:Hupd; [|done].
  simpl in Hphase. injection Hphase as -> -> <-.
  apply dedup_Ok_inv in Hst as [Hall Hinv]. split; [done|].
  unfold update_trips_table in Hupd.
  apply foldM_update_shape in Hupd as Hspec.
  - destruct Hspec as [Hc Hw]. specialize (Hc eq_refl). simpl in Hw.
    eexists. split_and!.
    + unfold close. rewrite Hc. exact Hw.
    + intros sh literal. rewrite elem_of_literal_writes.
      setoid_rewrite elem_of_writes_of.
      setoid_rewrite (iter_shape_trip_dict_keys _ Hrt).
      setoid_rewrite elem_of_map_to_list_keys.
      unfold trips_of_shape. split.
      * intros (t & [_ Ht] & Hl). eauto.
      * intros (t & Ht & Hl). exists t. split; [|done]. split; [|done].
        destruct (shape_trip_dict st !! sh); [eauto|]. by apply elem_of_nil in Ht.
    + exists conn. split_and!; [done|by rewrite Hc|done].
  - intros sh t Hsh Ht.
    destruct (trips_of_shape_visited rt db st sh t Hrt Hinv Ht) as [Hvis _].
    by apply Hlit.
Qed.

(** The trips table of a feed whose trip ids read the same inside quotes:
    the row of every trip of stop_times holds the id of the one shape whose
    trip list has the trip, the other rows are as they were, every trip of
    stop_times has a row, nothing is left uncommitted when the connection is
    closed, and the run's later stages leave the table as it is. *)
Lemma trips_table_holds_shape_ids (rt : runtime) (db : gtfs) (st : dedup_state)
    (shape_route_dict : gmap Z (list string)) (trips' : list trip_row) :
  runtime_laws rt →
  (∀ T, T ∈ st_trip_id <$> stop_times db → plain_id T = true) →
  dedup_phase rt db = Ok (st, shape_route_dict, trips') →
  Forall2 (λ r r',
      tr_trip_id r' = tr_trip_id r ∧ tr_route_id r' = tr_route_id r ∧
      if decide (tr_trip_id r ∈ st_trip_id <$> stop_times db)
      then ∃ sh, (∀ sh', tr_trip_id r ∈ trips_of_shape st sh' ↔ sh' = sh) ∧
                 tr_shape_id r' = Some (pretty sh)
      else r' = r) (trips db) trips' ∧
  (∀ T, T ∈ st_trip_id <$> stop_times db → ∃ r', r' ∈ trips' ∧ tr_trip_id r' = T) ∧
  (∃ conn,
      update_trips_table rt (make_trip_route_dict (trips db)) (shape_trip_dict st)
        (connect (trips db)) = Ok (shape_route_dict, conn) ∧
      working conn = committed conn ∧ trips' = close conn) ∧
  (∀ params out, RunStep1 rt params db = Ok out → out_trips out = trips').
Proof.
  intros Hrt Hplain Hphase.
  assert (Hlit : ∀ T, T ∈ st_trip_id <$> stop_times db → is_Some (literal_of T)).
  { intros T HT. rewrite literal_of_plain by auto. eauto. }
  destruct (trips_table_after_update rt db st shape_route_dict trips' Hrt Hlit Hphase)
    as (Hinv & ws & Htrips & Hws' & Hconn).
  assert (Hall : ∀ t, t ∈ alltrips rt db →
            is_Some (key_of rt (make_trip_route_dict (trips db)) (stop_times db) t)).
  { unfold dedup_phase in Hphase.
    destruct (dedup _ _ _ _) as [st0|] eqn:Hst; [|done].
    apply dedup_Ok_iff. eauto. }
  set (trd := make_trip_route_dict (trips db)) in *.
  assert (Hws : ∀ sh t, (sh, t) ∈ ws ↔ t ∈ trips_of_shape st sh).
  { intros sh t. rewrite Hws'. split.
    - intros (t' & Ht' & Hl).
      destruct (trips_of_shape_visited rt db st sh t' Hrt Hinv Ht') as [Hvis _].
      rewrite literal_of_plain in Hl by auto. by injection Hl as ->.
    - intros Ht. exists t. split; [done|].
      destruct (trips_of_shape_visited rt db st sh t Hrt Hinv Ht) as [Hvis _].
      by apply literal_of_plain, Hplain. }
  assert (Hrow : ∀ r, tr_trip_id r ∈ st_trip_id <$> stop_times db →
            ∃ sh, (∀ sh', tr_trip_id r ∈ trips_of_shape st sh' ↔ sh' = sh) ∧
                  tr_shape_id (apply_writes ws r) = Some (pretty sh)).
  { intros r Hr. apply (select_distinct_elem _ Hrt) in Hr.
    destruct (Hall _ Hr) as [k Hk].
    destruct (dedup_shape_of_trip _ _ _ _ _ _ _ Hinv Hr Hk) as (sh & _ & Hu).
    exists sh. split; [done|].
    rewrite (apply_writes_written ws r sh); [done| |].
    - exists (sh, tr_trip_id r). split; [|done]. apply Hws. by apply Hu.
    - intros [sh' t] Hin Ht. simpl in *. subst t. apply Hu. by apply Hws. }
  rewrite Htrips. split_and!.
  - apply Forall2_fmap_r, Forall_Forall2_diag, Forall_forall. intros r _.
    destruct (apply_writes_ids ws r) as [Hid Hroute].
    split_and!; [done|done|]. case_decide as Hin.
    + by apply Hrow.
    + apply apply_writes_untouched. intros [sh t] Hwin Ht. simpl in Ht. subst t.
      apply Hin. apply Hws in Hwin.
      by destruct (trips_of_shape_visited rt db st sh _ Hrt Hinv Hwin).
  - intros T HT. assert (HT' := HT). apply (select_distinct_elem _ Hrt) in HT'.
    destruct (Hall _ HT') as [k Hk].
    unfold key_of in Hk. destruct (stop_sequence_of _ _ _); [|done].
    destruct (trd !! T) as [route|] eqn:Hroute; [|done].
    apply make_trip_route_dict_Some in Hroute as (row & Hrow_in & Hid & _).
    exists (apply_writes ws row). split.
    + apply list_elem_of_fmap. eauto.
    + destruct (apply_writes_ids ws row) as [-> _]. done.
  - by rewrite <- Htrips.
  - intros params out. unfold RunStep1.
    destruct (make_RouteDict _ _); [|done]. simpl. rewrite Hphase. simpl.
    destruct (generate_shapes _ _ _ _ _ _ _); [|done]. simpl.
    destruct (add_route_information _ _ _ _); [|done]. simpl.
    by intros [= <-].
Qed.

(** ** The trip ids pasted into the UPDATE (line 352) *)

Lemma in_stop_times_doubled T :
  T ∈ st_trip_id <$> stop_times ex_db_doubled ↔ T = "A" ∨ T = "N''1".
Proof. cbn. rewrite !elem_of_cons, elem_of_nil. naive_solver. Qed.

(** C7 (what the code does): on the feed with the doubled quote the phase
    returns, on every host, and leaves the row of trip N''1, which is in
    stop_times, without a shape id, while the row of trip N'1, which is not
    in stop_times, gets the shape id of N''1. The id is pasted between
    quotes into the UPDATE, where SQLite reads the two quotes as one. *)
Theorem C7_quote_in_trip_id_updates_another_row (rt : runtime) :
  runtime_laws rt →
  let db := ex_db_doubled in
  "N''1" ∈ st_trip_id <$> stop_times db ∧
  ("N'1" ∉ st_trip_id <$> stop_times db) ∧
  ∃ st shape_route_dict trips' sh,
    dedup_phase rt db = Ok (st, shape_route_dict, trips') ∧
    (∀ sh', "N''1" ∈ trips_of_shape st sh' ↔ sh' = sh) ∧
    trips' !! 1%nat =
      Some {| tr_trip_id := "N''1"; tr_route_id := "R1"; tr_shape_id := None |} ∧
    trips' !! 2%nat =
      Some {| tr_trip_id := "N'1"; tr_route_id := "R2"; tr_shape_id := Some (pretty sh) |}.
Proof.
  intros Hrt db.
  split; [apply in_stop_times_doubled; auto|].
  split; [intros [?|?]%in_stop_times_doubled; discriminate|].
  assert (Hlit : ∀ T, T ∈ st_trip_id <$> stop_times db → is_Some (literal_of T)).
  { intros T [->| ->]%in_stop_times_doubled; vm_compute; eauto. }
  destruct (dedup_doubled rt Hrt) as (HA & HN & st & Hst & Hinv).
  destruct (dedup_phase_returns rt db st Hrt Hlit Hst) as (srd & trips' & Hphase).
  destruct (trips_table_after_update rt db st srd trips' Hrt Hlit Hphase)
    as (_ & ws & Htrips & Hws & _).
  assert (HinN : "N''1" ∈ alltrips rt db) by (apply elem_of_alltrips_doubled; auto).
  destruct (dedup_shape_of_trip _ _ _ _ _ _ _ Hinv HinN HN) as (sh & _ & Hu).
  assert (Hvis : ∀ sh' t, t ∈ trips_of_shape st sh' → t = "A" ∨ t = "N''1").
  { intros sh' t Ht. apply in_stop_times_doubled.
    by destruct (trips_of_shape_visited rt db st sh' t Hrt Hinv Ht). }
  exists st, srd, trips', sh. split_and!; [done|done| |].
  - rewrite Htrips. cbn [db ex_db_doubled trips fmap list_fmap lookup list_lookup].
    f_equal. apply apply_writes_untouched. intros [sh' l] Hw. simpl.
    apply Hws in Hw as (t & Ht & Hl). intros ->.
    destruct (Hvis _ _ Ht) as [-> | ->]; vm_compute in Hl; discriminate.
  - rewrite Htrips. cbn [db ex_db_doubled trips fmap list_fmap lookup list_lookup].
    f_equal.
    rewrite (apply_writes_written ws _ sh); [done| |].
    + exists (sh, "N'1"). split; [|done]. apply Hws. exists "N''1".
      split; [by apply Hu|by vm_compute].
    + intros [sh' l] Hw Hl'. simpl in *. subst l.
      apply Hws in Hw as (t & Ht & Hl).
      destruct (Hvis _ _ Ht) as [-> | ->]; [vm_compute in Hl; discriminate|].
      by apply Hu.
Qed.

Lemma C7_witness :
  let db := ex_db_doubled in
  "N''1" ∈ st_trip_id <$> stop_times db ∧
  ("N'1" ∉ st_trip_id <$> stop_times db) ∧
  ∃ st shape_route_dict trips' sh,
    dedup_phase ex_rt db = Ok (st, shape_route_dict, trips') ∧
    (∀ sh', "N''1" ∈ trips_of_shape st sh' ↔ sh' = sh) ∧
    trips' !! 1%nat =
      Some {| tr_trip_id := "N''1"; tr_route_id := "R1"; tr_shape_id := None |} ∧
    trips' !! 2%nat =
      Some {| tr_trip_id := "N'1"; tr_route_id := "R2"; tr_shape_id := Some (pretty sh) |}.
Proof. apply (C7_quote_in_trip_id_updates_another_row ex_rt). apply ex_rt_with_laws. Defined.

(** ** Route dictionary *)

Lemma route_type_dict_lookup z :
  is_Some (route_type_dict !! z) ↔ (0 ≤ z ≤ 7)%Z.
Proof.
  split.
  - intros [text Hz]. unfold route_type_dict in Hz.
    apply elem_of_list_to_map_2 in Hz.
    repeat (apply elem_of_cons in Hz as [[= -> _]|Hz]; [lia|]).
    by apply elem_of_nil in Hz.
  - intros Hz.
    assert (z = 0 ∨ z = 1 ∨ z = 2 ∨ z = 3 ∨ z = 4 ∨ z = 5 ∨ z = 6 ∨ z = 7)%Z
      as Hcases by lia.
    destruct_or!; subst z; vm_compute; eauto.
Qed.

Section RouteDictProofs.
Variable rt : runtime.

Lemma RouteDict_step_known RouteDict route :
  known_route_type rt route →
  ∃ text, RouteDict_step rt RouteDict route =
            Ok (<[r_route_id route := make_route_info route text]> RouteDict).
Proof.
  intros (z & Hz & Hrange). unfold RouteDict_step. rewrite Hz. simpl.
  apply route_type_dict_lookup in Hrange as [text Htext].
  unfold getitem. rewrite Htext. eauto.
Qed.

Lemma RouteDict_step_unknown RouteDict route :
  ¬ known_route_type rt route → RouteDict_step rt RouteDict route = Raise TypeError.
Proof.
  intros Hunknown. unfold RouteDict_step.
  destruct (int_of_cell rt (r_route_type route)) as [z|e] eqn:Hz; simpl; [|done].
  unfold getitem. destruct (route_type_dict !! z) as [text|] eqn:Htext; [|done].
  exfalso. apply Hunknown. exists z. split; [done|].
  apply route_type_dict_lookup. eauto.
Qed.

Lemma known_route_type_dec route : Decision (known_route_type rt route).
Proof.
  unfold known_route_type. destruct (int_of_cell rt (r_route_type route)) as [z|e].
  - destruct (decide (0 ≤ z ≤ 7)%Z) as [Hz|Hz].
    + left. eauto.
    + right. intros (z' & [= <-] & ?). done.
  - right. by intros (z' & [=] & _).
Defined.

Lemma foldM_RouteDict_unknown l RouteDict route :
  route ∈ l → ¬ known_route_type rt route →
  foldM (RouteDict_step rt) RouteDict l = Raise TypeError.
Proof.
  revert RouteDict. induction l as [|x l IH]; intros RouteDict Hin Hunknown.
  - by apply elem_of_nil in Hin.
  - simpl. destruct (known_route_type_dec x) as [Hx|Hx].
    + destruct (RouteDict_step_known RouteDict x Hx) as [text ->]. simpl.
      apply IH; [|done]. apply elem_of_cons in Hin as [->|Hin]; [done|done].
    + by rewrite RouteDict_step_unknown.
Qed.
End RouteDictProofs.

(** C5 (what the code does): a route whose route_type [int] does not read
    as one of 0..7 makes the loading of the route dictionary raise TypeError,
    at the assignment [route[5] = '100'] into a row tuple, and the run ends
    there: no route is stored and nothing is normalized. *)
Theorem C5_unknown_route_type_aborts_run (rt : runtime) (params : parameters)
    (db : gtfs) (route : route_row) :
  route ∈ routes db →
  ¬ known_route_type rt route →
  make_RouteDict rt (routes db) = Raise TypeError ∧
  RunStep1 rt params db = Raise TypeError.
Proof.
  intros Hin Hunknown.
  assert (H : make_RouteDict rt (routes db) = Raise TypeError)
    by by eapply foldM_RouteDict_unknown.
  split; [done|]. unfold RunStep1. by rewrite H.
Qed.

Lemma C5_witness :
  make_RouteDict ex_rt (routes ex_db_type8) = Raise TypeError ∧
  RunStep1 ex_rt ex_params ex_db_type8 = Raise TypeError.
Proof.
  apply (C5_unknown_route_type_aborts_run ex_rt ex_params ex_db_type8
           (ex_route "R1" None (Integer 8))).
  - left.
  - intros (z & [= <-] & Hz). lia.
Defined.

(** ** Route information on the output shapes *)

Lemma mapR_Forall2 {A B} (f : A → result B) l l' :
  mapR f l = Ok l' → Forall2 (λ x y, f x = Ok y) l l'.
Proof.
  revert l'. induction l as [|x l IH]; intros l'; simpl.
  - intros [= <-]. constructor.
  - destruct (f x) as [y|] eqn:Hy; [|done]. simpl.
    destruct (mapR f l) as [ys|]; [|done]. simpl.
    intros [= <-]. constructor; [done|by apply IH].
Qed.

Lemma output_route_desc_spec (route_desc : option unicode) :
  match route_desc with
  | None => output_route_desc route_desc = None
  | Some s =>
      if decide (max_route_desc_length < length s)%nat
      then output_route_desc route_desc = Some (take max_route_desc_length s) ∧
           length (take max_route_desc_length s) = max_route_desc_length ∧
           take max_route_desc_length s `prefix_of` s
      else output_route_desc route_desc = Some s
  end.
Proof.
  destruct route_desc as [s|]; [|done]. case_decide as Hlen.
  - split_and!.
    + destruct s; [simpl in Hlen; lia|done].
    + rewrite length_take. lia.
    + apply prefix_take.
  - destruct s as [|c s]; [done|]. unfold output_route_desc. simpl truthy. cbv iota.
    change (Some (take max_route_desc_length (c :: s)) = Some (c :: s)).
    f_equal. apply take_ge. lia.
Qed.

(** C6 (amended): on every row of the output Shapes, route_desc is that of
    the row's route cut to its first 250 characters when it is longer, the
    route's route_desc itself when it is not longer (the empty string stays
    the empty string), and null when the route's route_desc is null. The
    characters are the elements of the Python [unicode] object, ASCII or
    not. *)
Theorem C6_route_desc_cut_or_passed_through (rt : runtime) (params : parameters)
    (db : gtfs) (out : output) (row : shape_feature) :
  RunStep1 rt params db = Ok out →
  row ∈ out_Shapes out →
  ∃ RouteDict route_id info,
    make_RouteDict rt (routes db) = Ok RouteDict ∧
    sf_route_id row = Some route_id ∧
    RouteDict !! route_id = Some info ∧
    match ri_route_desc info with
    | None => sf_route_desc row = None
    | Some s =>
        if decide (250 < length s)%nat
        then sf_route_desc row = Some (take 250 s) ∧
             length (take 250 s) = 250%nat ∧
             take 250 s `prefix_of` s
        else sf_route_desc row = Some s
    end.
Proof.
  unfold RunStep1. intros Hrun Hrow.
  destruct (make_RouteDict rt (routes db)) as [RouteDict|]; [|done]. simpl in Hrun.
  destruct (dedup_phase rt db) as [[[st srd] trips']|]; [|done]. simpl in Hrun.
  destruct (generate_shapes _ _ _ _ _ _ _) as [fc|]; [|done]. simpl in Hrun.
  destruct (add_route_information _ _ _ _) as [Shapes|] eqn:Hadd; [|done].
  simpl in Hrun. injection Hrun as <-. simpl in Hrow.
  unfold add_route_information in Hadd.
  destruct (outRoutesfc fc) as [rows|]; [|done].
  apply mapR_Forall2 in Hadd.
  apply list_elem_of_lookup_1 in Hrow as [i Hi].
  destruct (Forall2_lookup_r _ _ _ _ _ Hadd Hi) as (row0 & _ & Hrow0).
  unfold add_route_info, getitem in Hrow0.
  destruct (srd !! sf_Name row0) as [routesofshape|]; [|done]. simpl in Hrow0.
  destruct (first_item routesofshape) as [route_id|]; [|done]. simpl in Hrow0.
  destruct (RouteDict !! route_id) as [info|] eqn:Hinfo; [|done]. simpl in Hrow0.
  injection Hrow0 as <-. simpl.
  exists RouteDict, route_id, info. split_and!; [done|done|done|].
  apply (output_route_desc_spec (ri_route_desc info)).
Qed.

Lemma C6_witness :
  let row := first_shape (run_result ex_rt ex_params ex_db_long) in
  ∃ RouteDict route_id info,
    make_RouteDict ex_rt (routes ex_db_long) = Ok RouteDict ∧
    sf_route_id row = Some route_id ∧
    RouteDict !! route_id = Some info ∧
    match ri_route_desc info with
    | None => sf_route_desc row = None
    | Some s =>
        if decide (250 < length s)%nat
        then sf_route_desc row = Some (take 250 s) ∧
             length (take 250 s) = 250%nat ∧
             take 250 s `prefix_of` s
        else sf_route_desc row = Some s
    end.
Proof.
  apply (C6_route_desc_cut_or_passed_through ex_rt ex_params ex_db_long
           (run_result ex_rt ex_params ex_db_long)).
  - vm_compute. reflexivity.
  - vm_compute. left.
Defined.

(** C6 as stated fails: route R1 of the example feed has the empty string as
    route_desc, and the output row of its shape holds the empty string, not
    null. *)
Lemma C6_counterexample :
  r_route_desc (ex_route "R1" (Some []) (Integer 3)) = Some [] ∧
  ∃ out row,
    RunStep1 ex_rt ex_params ex_db = Ok out ∧
    row ∈ out_Shapes out ∧
    sf_route_id row = Some "R1" ∧
    sf_route_desc row = Some [] ∧
    sf_route_desc row ≠ None.
Proof.
  split; [reflexivity|].
  exists (run_result ex_rt ex_params ex_db), (first_shape (run_result ex_rt ex_params ex_db)).
  split_and!.
  - vm_compute. reflexivity.
  - vm_compute. left.
  - vm_compute. reflexivity.
  - vm_compute. reflexivity.
  - vm_compute. discriminate.
Qed.

(** ** The generation passes *)

Lemma foldl_inv {A B} (f : B → A → B) (P : B → Prop) l b :
  P b → (∀ b x, x ∈ l → P b → P (f b x)) → P (foldl f b l).
Proof.
  revert b. induction l as [|x l IH]; intros b Hb Hf; simpl; [done|].
  apply IH; [apply Hf; [left|done]|]. intros b' y Hy. apply Hf. by right.
Qed.

Lemma foldM_inv {A B} (f : B → A → result B) (P : B → Prop) l b b' :
  P b → (∀ b x b', x ∈ l → P b → f b x = Ok b' → P b') →
  foldM f b l = Ok b' → P b'.
Proof.
  revert b. induction l as [|x l IH]; intros b Hb Hf; simpl.
  - by intros [= <-].
  - destruct (f b x) as [b1|] eqn:Hx; [|done]. simpl. apply IH.
    + eapply Hf; [left|done|done].
    + intros b2 y b3 Hy. apply Hf. by right.
Qed.

Lemma foldM_cons {A B} (f : B → A → result B) b x l :
  foldM f b (x :: l) = do b' <- f b x; foldM f b' l.
Proof. done. Qed.

Section GenerateProofs.
Variable rt : runtime.
Variables route_types_Street route_types_Straight : list Z.
Variable CurbApproach : Z.
Variable stoplatlon_dict : gmap string (Q * Q).
Variable RouteDict : gmap string route_info.
Variable sequence_shape_dict : gmap sequence_key Z.

Local Abbreviation street_stop' := (street_stop rt CurbApproach stoplatlon_dict).
Local Abbreviation street_sequence' :=
  (street_sequence rt CurbApproach stoplatlon_dict sequence_shape_dict).
Local Abbreviation street_chunk' :=
  (street_chunk rt CurbApproach stoplatlon_dict sequence_shape_dict).
Local Abbreviation street_rows' := (street_rows rt CurbApproach stoplatlon_dict).
Local Abbreviation street_bad' := (street_bad rt stoplatlon_dict).
Local Abbreviation shape_of' := (shape_of_sequence sequence_shape_dict).
Local Abbreviation chunk_points' :=
  (chunk_points rt CurbApproach stoplatlon_dict sequence_shape_dict).
Local Abbreviation chunk_shapes' := (chunk_shapes sequence_shape_dict).
Local Abbreviation chunk_bad' := (chunk_bad rt stoplatlon_dict).
Local Abbreviation chunk_routes' :=
  (chunk_routes rt CurbApproach stoplatlon_dict sequence_shape_dict).
Local Abbreviation chunk_saved_points' :=
  (chunk_saved_points rt CurbApproach stoplatlon_dict sequence_shape_dict).
Local Abbreviation chunk_no_route' :=
  (chunk_no_route rt CurbApproach stoplatlon_dict sequence_shape_dict).

Lemma foldl_street_stop sh stops rows0 bad0 n0 :
  foldl (street_stop' sh) (rows0, bad0, n0) stops =
    (rows0 ++ street_rows' sh n0 stops, bad0 ++ street_bad' stops,
     (n0 + Z.of_nat (length stops))%Z).
Proof.
  revert rows0 bad0 n0. induction stops as [|stop stops IH]; intros rows0 bad0 n0; simpl.
  - rewrite !app_nil_r. f_equal. lia.
  - destruct (stoplatlon_dict !! stop) as [[stop_lat stop_lon]|];
      [destruct (stoplocfielddict rt !! stop) as [loc|]|];
      rewrite IH; simpl; rewrite <- ?app_assoc; simpl;
      f_equal; first [done | lia].
Qed.

Lemma street_sequence_Ok rows0 shapes0 bad0 sequence x :
  street_sequence' (rows0, shapes0, bad0) sequence = Ok x →
  is_Some (sequence_shape_dict !! sequence) ∧
  x = (rows0 ++ street_rows' (shape_of' sequence) 1 sequence.2,
       shapes0 ++ [shape_of' sequence],
       bad0 ++ street_bad' sequence.2).
Proof.
  unfold street_sequence, getitem, shape_of_sequence.
  destruct (sequence_shape_dict !! sequence) as [sh|]; [|done]. simpl.
  rewrite foldl_street_stop. intros [= <-]. eauto.
Qed.

Lemma street_sequence_total rows0 shapes0 bad0 sequence :
  is_Some (sequence_shape_dict !! sequence) →
  street_sequence' (rows0, shapes0, bad0) sequence =
    Ok (rows0 ++ street_rows' (shape_of' sequence) 1 sequence.2,
        shapes0 ++ [shape_of' sequence],
        bad0 ++ street_bad' sequence.2).
Proof.
  intros [sh Hsh].
  unfold street_sequence, getitem, shape_of_sequence.
  rewrite Hsh. simpl. by rewrite foldl_street_stop.
Qed.

Lemma foldM_street_sequence_Ok chunk rows0 shapes0 bad0 x :
  foldM street_sequence' (rows0, shapes0, bad0) chunk = Ok x →
  (∀ sequence, sequence ∈ chunk → is_Some (sequence_shape_dict !! sequence)) ∧
  x = (rows0 ++ chunk_points' chunk, shapes0 ++ chunk_shapes' chunk, bad0 ++ chunk_bad' chunk).
Proof.
  revert rows0 shapes0 bad0 x.
  induction chunk as [|sequence chunk IH]; intros rows0 shapes0 bad0 x.
  - intros [= <-]. unfold chunk_points, chunk_shapes, chunk_bad. simpl.
    rewrite !app_nil_r. split; [|done]. by intros ? ?%elem_of_nil.
  - rewrite foldM_cons.
    destruct (street_sequence' (rows0, shapes0, bad0) sequence) as [y|] eqn:Hy;
      simpl; [|done].
    apply street_sequence_Ok in Hy as [Hsome ->].
    intros [Hall ->]%IH. split.
    + intros k [->|Hk]%elem_of_cons; auto.
    + unfold chunk_points, chunk_shapes, chunk_bad. simpl.
      by rewrite <- !app_assoc.
Qed.

Lemma foldM_street_sequence_total chunk rows0 shapes0 bad0 :
  (∀ sequence, sequence ∈ chunk → is_Some (sequence_shape_dict !! sequence)) →
  foldM street_sequence' (rows0, shapes0, bad0) chunk =
    Ok (rows0 ++ chunk_points' chunk, shapes0 ++ chunk_shapes' chunk, bad0 ++ chunk_bad' chunk).
Proof.
  revert rows0 shapes0 bad0.
  induction chunk as [|sequence chunk IH]; intros rows0 shapes0 bad0 Hall.
  - unfold chunk_points, chunk_shapes, chunk_bad. simpl. by rewrite !app_nil_r.
  - rewrite foldM_cons, street_sequence_total by (apply Hall; left). simpl.
    rewrite IH by (intros k Hk; apply Hall; by right).
    unfold chunk_points, chunk_shapes, chunk_bad. simpl.
    by rewrite <- !app_assoc.
Qed.

Lemma foldM_read_warning_eq lines ids0 stops0 :
  foldM read_warning (ids0, stops0) lines =
    match foldM read_warning ([], []) lines with
    | Ok (ids, stops) => Ok (ids0 ++ ids, stops0 ++ stops)
    | Raise e => Raise e
    end.
Proof.
  revert ids0 stops0. induction lines as [|w lines IH]; intros ids0 stops0.
  - simpl. by rewrite !app_nil_r.
  - rewrite !foldM_cons. unfold read_warning at 1 3. simpl.
    destruct (re_match_No_route_for w).
    + destruct (first_item (findall_quoted w)) as [q|]; [|done]. simpl.
      destruct (int_of_text q) as [n|]; [|done]. simpl.
      rewrite (IH (ids0 ++ [n])), (IH [n]).
      destruct (foldM read_warning ([], []) lines) as [[ids stops]|]; [|done].
      by rewrite <- app_assoc.
    + destruct (re_search_is_unlocated w).
      * destruct (first_item (findall_quoted w)) as [q|]; [|done]. simpl.
        rewrite (IH ids0 (stops0 ++ [q])), (IH [] [q]).
        destruct (foldM read_warning ([], []) lines) as [[ids stops]|]; [|done].
        by rewrite <- app_assoc.
      * simpl. apply IH.
Qed.

Lemma foldM_read_warning lines ids0 stops0 x :
  foldM read_warning (ids0, stops0) lines = Ok x →
  ∃ ids stops, foldM read_warning ([], []) lines = Ok (ids, stops) ∧
               x = (ids0 ++ ids, stops0 ++ stops).
Proof.
  rewrite foldM_read_warning_eq.
  destruct (foldM read_warning ([], []) lines) as [[ids stops]|]; [|done].
  intros [= <-]. eauto.
Qed.

(** A chunk whose Solve raises: the loop body returns, having added the
    chunk's shapes to NoRouteGenerated and left both feature classes alone. *)
Lemma street_chunk_failed st chunk warning_messages error_messages :
  (∀ sequence, sequence ∈ chunk → is_Some (sequence_shape_dict !! sequence)) →
  Solve rt (chunk_points' chunk) = SolveFailed warning_messages error_messages →
  ∃ st', street_chunk' st chunk = Ok st' ∧
         NoRouteGenerated (fc st') = NoRouteGenerated (fc st) ++ chunk_shapes' chunk ∧
         outRoutesfc (fc st') = outRoutesfc (fc st) ∧
         outSequencePoints (fc st') = outSequencePoints (fc st).
Proof.
  intros Hall Hsolve. unfold street_chunk.
  rewrite foldM_street_sequence_total by done. simpl.
  rewrite Hsolve. eauto.
Qed.

Lemma street_chunk_Ok st chunk st' :
  street_chunk' st chunk = Ok st' →
  (∀ sequence, sequence ∈ chunk → is_Some (sequence_shape_dict !! sequence)) ∧
  default [] (outRoutesfc (fc st')) =
    default [] (outRoutesfc (fc st)) ++ chunk_routes' chunk ∧
  outSequencePoints (fc st') = outSequencePoints (fc st) ++ chunk_saved_points' chunk ∧
  NoRouteGenerated (fc st') = NoRouteGenerated (fc st) ++ chunk_no_route' chunk.
Proof.
  unfold street_chunk.
  destruct (foldM street_sequence' ([], [], badStops st) chunk) as [[[pts shs] bad]|] eqn:Hc;
    simpl; [|done].
  apply foldM_street_sequence_Ok in Hc as [Hall [= -> -> ->]].
  unfold chunk_routes, chunk_saved_points, chunk_no_route.
  destruct (Solve rt (chunk_points' chunk)) as [wm em|RoutesLayer wm] eqn:Hsolve.
  - intros [= <-]. simpl. by rewrite !app_nil_r.
  - destruct (foldM read_warning _ _) as [[ids stops]|] eqn:Hw; simpl; [|done].
    apply foldM_read_warning in Hw as (ids' & stops' & Hparse & [= -> ->]).
    intros [= <-]. simpl. split_and!; [done| |done|].
    + unfold save_routes. by destruct (outRoutesfc (fc st)).
    + unfold no_route_ids, parse_warnings. by rewrite Hparse.
Qed.

Lemma foldM_street_chunk_Ok chunks st st' :
  foldM street_chunk' st chunks = Ok st' →
  (∀ chunk sequence, chunk ∈ chunks → sequence ∈ chunk →
     is_Some (sequence_shape_dict !! sequence)) ∧
  default [] (outRoutesfc (fc st')) =
    default [] (outRoutesfc (fc st)) ++ (chunks ≫= chunk_routes') ∧
  outSequencePoints (fc st') =
    outSequencePoints (fc st) ++ (chunks ≫= chunk_saved_points') ∧
  NoRouteGenerated (fc st') =
    NoRouteGenerated (fc st) ++ (chunks ≫= chunk_no_route').
Proof.
  revert st. induction chunks as [|chunk chunks IH]; intros st.
  - intros [= <-]. simpl. rewrite !app_nil_r. split_and!; try done.
    by intros ? ? ?%elem_of_nil.
  - rewrite foldM_cons.
    destruct (street_chunk' st chunk) as [st1|] eqn:Hchunk; simpl; [|done].
    apply street_chunk_Ok in Hchunk as (Hall & Hr & Hp & Hn).
    intros (Hall' & Hr' & Hp' & Hn')%IH. split_and!.
    + intros c k [->|Hc]%elem_of_cons; eauto.
    + rewrite Hr', Hr. by rewrite <- app_assoc.
    + rewrite Hp', Hp. by rewrite <- app_assoc.
    + rewrite Hn', Hn. by rewrite <- app_assoc.
Qed.

Local Abbreviation street_selected' := (street_selected route_types_Street RouteDict).
Local Abbreviation straight_selected' :=
  (straight_selected route_types_Straight RouteDict sequence_shape_dict).
Local Abbreviation straight_rows' := (straight_rows CurbApproach stoplatlon_dict).
Local Abbreviation straight_array' := (straight_array stoplatlon_dict).
Local Abbreviation straight_bad' := (straight_bad stoplatlon_dict).
Local Abbreviation straight_feature' := (straight_feature stoplatlon_dict sequence_shape_dict).

Lemma foldM_sequences_Streets keys acc l :
  foldM (λ acc sequence,
           do shape_id <- getitem sequence_shape_dict sequence;
           do route_type <- route_type_of RouteDict sequence;
           Ok (if route_type_in route_type route_types_Street
               then acc ++ [sequence] else acc)) acc keys = Ok l →
  (∀ sequence, sequence ∈ keys → is_Some (RouteDict !! sequence.1)) ∧
  l = acc ++ filter street_selected' keys.
Proof.
  revert acc. induction keys as [|k keys IH]; intros acc.
  - intros [= <-]. rewrite filter_nil, app_nil_r. split; [|done]. by intros ? ?%elem_of_nil.
  - rewrite foldM_cons. unfold getitem at 1, route_type_of at 1, getitem at 1.
    destruct (sequence_shape_dict !! k) as [sh|]; simpl; [|done].
    destruct (RouteDict !! k.1) as [info|] eqn:Hinfo; simpl; [|done].
    intros [Hall ->]%IH. split.
    + intros k' [->|Hk']%elem_of_cons; eauto.
    + rewrite filter_cons.
      assert (Hsel : street_selected' k =
                route_type_in (ri_route_type info) route_types_Street)
        by (unfold street_selected; by rewrite Hinfo).
      rewrite Hsel. destruct (route_type_in _ _); simpl; [|done].
      by rewrite <- app_assoc.
Qed.

Lemma sequences_Streets_chunked_Ok chunks :
  sequences_Streets_chunked rt route_types_Street RouteDict sequence_shape_dict = Ok chunks →
  (∀ sequence, sequence ∈ iter_sequence_shape_dict rt sequence_shape_dict →
               is_Some (RouteDict !! sequence.1)) ∧
  chunks = chunked ChunkSize
             (filter street_selected' (iter_sequence_shape_dict rt sequence_shape_dict)).
Proof.
  unfold sequences_Streets_chunked, sequences_Streets.
  destruct (foldM _ _ _) as [l|] eqn:Hl; simpl; [|done].
  apply foldM_sequences_Streets in Hl as [Hall ->]. intros [= <-]. done.
Qed.

Lemma foldl_straight_stop NRG sh stops rows0 arr0 bad0 n0 :
  foldl (straight_stop CurbApproach stoplatlon_dict NRG sh) (rows0, arr0, bad0, n0) stops =
    (rows0 ++ straight_rows' sh n0 stops, arr0 ++ straight_array' stops,
     bad0 ++ straight_bad' (bool_decide (sh ∈ NRG)) stops,
     (n0 + Z.of_nat (length stops))%Z).
Proof.
  revert rows0 arr0 bad0 n0.
  induction stops as [|stop stops IH]; intros rows0 arr0 bad0 n0; simpl.
  - rewrite !app_nil_r. f_equal. lia.
  - destruct (stoplatlon_dict !! stop) as [[stop_lat stop_lon]|]; rewrite IH; simpl.
    + rewrite <- !app_assoc. simpl. f_equal. lia.
    + destruct (bool_decide (sh ∈ NRG)); rewrite ?app_nil_r, <- ?app_assoc; simpl;
        f_equal; lia.
Qed.

Lemma foldM_straight_sequence_Ok NRG keys shapes0 rows0 bad0 x :
  foldM (straight_sequence route_types_Straight CurbApproach stoplatlon_dict RouteDict
           sequence_shape_dict NRG) (shapes0, rows0, bad0) keys = Ok x →
  x.1.1 = shapes0 ++ (straight_feature' <$> filter (straight_selected' NRG) keys) ∧
  x.1.2 = rows0 ++ (filter (straight_selected' NRG) keys ≫= λ sequence,
                      straight_rows' (shape_of' sequence) 1 sequence.2).
Proof.
  revert shapes0 rows0 bad0 x.
  induction keys as [|k keys IH]; intros shapes0 rows0 bad0 x.
  - intros [= <-]. rewrite filter_nil. simpl. by rewrite !app_nil_r.
  - rewrite foldM_cons. unfold straight_sequence at 1.
    unfold getitem at 1, route_type_of at 1, getitem at 1.
    destruct (sequence_shape_dict !! k) as [sh|] eqn:Hsh; simpl; [|done].
    destruct (RouteDict !! k.1) as [info|] eqn:Hinfo; simpl; [|done].
    rewrite filter_cons.
    assert (Hshape : shape_of' k = sh)
      by (unfold shape_of_sequence; by rewrite Hsh).
    assert (Hsel : straight_selected' NRG k =
              route_type_in (ri_route_type info) route_types_Straight
              || bool_decide (sh ∈ NRG))
      by (unfold straight_selected; by rewrite Hinfo, Hshape).
    rewrite Hsel.
    destruct (route_type_in _ _ || bool_decide _); simpl.
    + rewrite foldl_straight_stop. simpl.
      intros [-> ->]%IH. unfold straight_feature at 2.
      rewrite Hshape. simpl. by rewrite <- !app_assoc.
    + apply IH.
Qed.
Local Abbreviation street_chunks' := (street_chunks rt route_types_Street RouteDict sequence_shape_dict).
Local Abbreviation final_NoRouteGenerated' :=
  (final_NoRouteGenerated rt route_types_Street CurbApproach stoplatlon_dict RouteDict
     sequence_shape_dict).
Local Abbreviation straight_sequences' :=
  (straight_sequences rt route_types_Street route_types_Straight CurbApproach
     stoplatlon_dict RouteDict sequence_shape_dict).
Local Abbreviation street_features' :=
  (street_features rt route_types_Street CurbApproach stoplatlon_dict RouteDict
     sequence_shape_dict).
Local Abbreviation straight_features' :=
  (straight_features rt route_types_Street route_types_Straight CurbApproach
     stoplatlon_dict RouteDict sequence_shape_dict).
Local Abbreviation street_saved_points' :=
  (street_saved_points rt route_types_Street CurbApproach stoplatlon_dict RouteDict
     sequence_shape_dict).
Local Abbreviation straight_points' :=
  (straight_points rt route_types_Street route_types_Straight CurbApproach
     stoplatlon_dict RouteDict sequence_shape_dict).

Lemma Generate_Shapes_Street_Ok st st' :
  Generate_Shapes_Street rt route_types_Street CurbApproach stoplatlon_dict RouteDict
    sequence_shape_dict st = Ok st' →
  let chunks := chunked ChunkSize
                  (filter street_selected' (iter_sequence_shape_dict rt sequence_shape_dict)) in
  (∀ sequence, sequence ∈ iter_sequence_shape_dict rt sequence_shape_dict →
               is_Some (RouteDict !! sequence.1)) ∧
  (∀ chunk sequence, chunk ∈ chunks → sequence ∈ chunk →
     is_Some (sequence_shape_dict !! sequence)) ∧
  default [] (outRoutesfc st') = default [] (outRoutesfc st) ++ (chunks ≫= chunk_routes') ∧
  outSequencePoints st' = outSequencePoints st ++ (chunks ≫= chunk_saved_points') ∧
  NoRouteGenerated st' = NoRouteGenerated st ++ (chunks ≫= chunk_no_route').
Proof.
  unfold Generate_Shapes_Street.
  destruct (sequences_Streets_chunked _ _ _ _) as [chunks|] eqn:Hchunks; simpl; [|done].
  apply sequences_Streets_chunked_Ok in Hchunks as [Hall ->].
  destruct (foldM street_chunk' _ _) as [st1|] eqn:Hfold; simpl; [|done].
  apply foldM_street_chunk_Ok in Hfold as (Hkeys & Hr & Hp & Hn). simpl in *.
  intros [= <-]. simpl. done.
Qed.

Lemma Generate_Shapes_Straight_Ok Created st st' :
  (Created = false → outRoutesfc st = None) →
  Generate_Shapes_Straight rt route_types_Straight CurbApproach stoplatlon_dict RouteDict
    sequence_shape_dict Created st = Ok st' →
  let keys := filter (straight_selected' (NoRouteGenerated st))
                     (iter_sequence_shape_dict rt sequence_shape_dict) in
  default [] (outRoutesfc st') = default [] (outRoutesfc st) ++ (straight_feature' <$> keys) ∧
  outSequencePoints st' =
    outSequencePoints st ++
      (keys ≫= λ sequence, straight_rows' (shape_of' sequence) 1 sequence.2) ∧
  NoRouteGenerated st' = NoRouteGenerated st.
Proof.
  intros Hcreated. unfold Generate_Shapes_Straight.
  destruct (foldM _ _ _) as [[[shapes rows] bad]|] eqn:Hfold; simpl; [|done].
  apply foldM_straight_sequence_Ok in Hfold as [Hs Hr]. simpl in Hs, Hr. subst shapes rows.
  intros [= <-]. simpl. split_and!; [|done|done].
  f_equal. destruct Created; simpl.
  - by destruct (outRoutesfc st).
  - by rewrite Hcreated.
Qed.

Lemma street_chunks_eq :
  street_chunks' =
    if decide (route_types_Street = []) then []
    else chunked ChunkSize
           (filter street_selected' (iter_sequence_shape_dict rt sequence_shape_dict)).
Proof. unfold street_chunks. by destruct route_types_Street. Qed.

Lemma straight_sequences_eq :
  straight_sequences' =
    if decide (route_types_Straight = [] ∧ final_NoRouteGenerated' = []) then []
    else filter (straight_selected' final_NoRouteGenerated')
                (iter_sequence_shape_dict rt sequence_shape_dict).
Proof.
  unfold straight_sequences.
  destruct route_types_Straight; [destruct final_NoRouteGenerated'|];
    case_decide as H; first [done | naive_solver].
Qed.

Lemma generate_shapes_eq :
  generate_shapes rt route_types_Street route_types_Straight CurbApproach stoplatlon_dict
    RouteDict sequence_shape_dict =
  let st0 := {| outRoutesfc := None; outSequencePoints := [];
                NoRouteGenerated := []; warnings := [] |} in
  do p <- (if decide (route_types_Street = []) then Ok (false, st0)
           else do st' <- Generate_Shapes_Street rt route_types_Street CurbApproach
                            stoplatlon_dict RouteDict sequence_shape_dict st0;
                Ok (true, st'));
  if decide (route_types_Straight = [] ∧ NoRouteGenerated p.2 = []) then Ok p.2
  else Generate_Shapes_Straight rt route_types_Straight CurbApproach stoplatlon_dict
         RouteDict sequence_shape_dict p.1 p.2.
Proof.
  unfold generate_shapes. cbv zeta.
  destruct route_types_Street as [|z zs];
    [rewrite decide_True by done|rewrite decide_False by done]; simpl.
  - destruct route_types_Straight; simpl; try case_decide; first [done | naive_solver].
  - destruct (Generate_Shapes_Street _ _ _ _ _ _ _) as [st1|]; simpl; [|done].
    destruct route_types_Straight; [destruct (NoRouteGenerated st1) eqn:Hn|]; simpl;
      try case_decide; first [done | naive_solver].
Qed.

(** The two passes compute the closed forms. *)
Lemma generate_shapes_Ok fc :
  generate_shapes rt route_types_Street route_types_Straight CurbApproach stoplatlon_dict
    RouteDict sequence_shape_dict = Ok fc →
  default [] (outRoutesfc fc) = street_features' ++ straight_features' ∧
  outSequencePoints fc = street_saved_points' ++ straight_points' ∧
  NoRouteGenerated fc = final_NoRouteGenerated' ∧
  (route_types_Street ≠ [] →
     (∀ sequence, sequence ∈ iter_sequence_shape_dict rt sequence_shape_dict →
                  is_Some (RouteDict !! sequence.1)) ∧
     (∀ chunk sequence, chunk ∈ street_chunks' → sequence ∈ chunk →
        is_Some (sequence_shape_dict !! sequence))).
Proof.
  rewrite generate_shapes_eq. cbv zeta.
  unfold street_features, street_saved_points, straight_features, straight_points.
  rewrite straight_sequences_eq. unfold final_NoRouteGenerated.
  rewrite street_chunks_eq.
  destruct (decide (route_types_Street = [])) as [Hnil|Hne]; simpl.
  - case_decide as Hs.
    + intros [= <-]. simpl. split_and!; try done.
    + intros (Hr' & Hp' & Hn')%Generate_Shapes_Straight_Ok; [|done].
      simpl in *. done.
  - destruct (Generate_Shapes_Street _ _ _ _ _ _ _) as [st1|] eqn:Hgen; simpl; [|done].
    apply Generate_Shapes_Street_Ok in Hgen as (Hall & Hkeys & Hr & Hp & Hn).
    simpl in Hr, Hp, Hn. rewrite <- Hn.
    case_decide as Hs.
    + intros [= <-]. rewrite Hr, Hp. simpl. by rewrite !app_nil_r.
    + intros (Hr' & Hp' & Hn')%Generate_Shapes_Straight_Ok; [|done].
      rewrite Hr', Hp', Hn', Hr, Hp. done.
Qed.
End GenerateProofs.

(** ** Chunks *)

Lemma join_chunks {A} (n : nat) (l : list A) (m : nat) :
  mjoin ((λ i, take n (drop i l)) <$> ((λ k, k * n)%nat <$> seq 0 m)) = take (m * n) l.
Proof.
  induction m as [|m IH].
  - done.
  - rewrite seq_S, !fmap_app, join_app, IH. simpl. rewrite app_nil_r.
    rewrite take_take_drop. f_equal. lia.
Qed.

Lemma join_chunked {A} (n : nat) (l : list A) :
  (0 < n)%nat → mjoin (chunked n l) = l.
Proof.
  intros Hn. unfold chunked, xrange_by. rewrite join_chunks.
  apply take_ge.
  pose proof (Nat.div_mod_eq (length l + n - 1) n) as Hdiv.
  pose proof (Nat.mod_upper_bound (length l + n - 1) n) as Hmod.
  nia.
Qed.

Lemma elem_of_chunked {A} (n : nat) (l chunk : list A) (x : A) :
  (0 < n)%nat → chunk ∈ chunked n l → x ∈ chunk → x ∈ l.
Proof.
  intros Hn Hchunk Hx. rewrite <- (join_chunked n l Hn).
  apply list_elem_of_join. eauto.
Qed.

(** ** What a run consists of *)

Lemma RunStep1_Ok rt params db out :
  RunStep1 rt params db = Ok out →
  ∃ RouteDict st shape_route_dict trips' fc rows,
    make_RouteDict rt (routes db) = Ok RouteDict ∧
    dedup_phase rt db = Ok (st, shape_route_dict, trips') ∧
    generate_shapes rt (route_types_Street params) (route_types_Straight params)
      (CurbApproach_of (driveSide params)) (make_stoplatlon_dict (stops db))
      RouteDict (sequence_shape_dict st) = Ok fc ∧
    outRoutesfc fc = Some rows ∧
    mapR (add_route_info RouteDict shape_route_dict) rows = Ok (out_Shapes out) ∧
    out_Stops_wShapeIDs out = outSequencePoints fc ∧
    out_warnings out = warnings fc ∧
    RouteDict_of rt db = RouteDict ∧
    sequence_shape_dict_of rt db = sequence_shape_dict st.
Proof.
  unfold RunStep1, RouteDict_of, sequence_shape_dict_of, dedup_phase_result.
  destruct (make_RouteDict rt (routes db)) as [RouteDict|]; simpl; [|done].
  destruct (dedup_phase rt db) as [[[st srd] trips']|]; simpl; [|done].
  destruct (generate_shapes _ _ _ _ _ _ _) as [fc|] eqn:Hgen; simpl; [|done].
  destruct (add_route_information _ _ _ _) as [Shapes|] eqn:Hadd; simpl; [|done].
  intros [= <-]. simpl.
  unfold add_route_information in Hadd.
  destruct (outRoutesfc fc) as [rows|] eqn:Hrows; [|done].
  exists RouteDict, st, srd, trips', fc, rows. done.
Qed.

Lemma add_route_info_keeps RouteDict shape_route_dict row row' :
  add_route_info RouteDict shape_route_dict row = Ok row' →
  sf_Name row' = sf_Name row ∧ sf_SHAPE row' = sf_SHAPE row.
Proof.
  unfold add_route_info, getitem.
  destruct (shape_route_dict !! sf_Name row) as [rs|]; simpl; [|done].
  destruct (first_item rs) as [route_id|]; simpl; [|done].
  destruct (RouteDict !! route_id) as [info|]; simpl; [|done].
  by intros [= <-].
Qed.

Lemma shape_geometries_app rows1 rows2 sh :
  shape_geometries (rows1 ++ rows2) sh =
    shape_geometries rows1 sh ++ shape_geometries rows2 sh.
Proof. unfold shape_geometries. apply omap_app. Qed.

Lemma mapR_add_route_info_geometries RouteDict shape_route_dict rows rows' sh :
  mapR (add_route_info RouteDict shape_route_dict) rows = Ok rows' →
  shape_geometries rows' sh = shape_geometries rows sh.
Proof.
  intros H%mapR_Forall2. induction H as [|row row' rows rows' Hrow _ IH]; [done|].
  apply add_route_info_keeps in Hrow as [Hname Hshape].
  change (row' :: rows') with ([row'] ++ rows').
  change (row :: rows) with ([row] ++ rows).
  rewrite !shape_geometries_app, IH. f_equal.
  unfold shape_geometries. simpl. by rewrite Hname, Hshape.
Qed.

(** ** Curb approach *)

Lemma CurbApproach_of_Right driveSide_input : CurbApproach_of driveSide_input = 1%Z.
Proof. done. Qed.

Section Points.
Variable rt : runtime.
Variable CurbApproach : Z.
Variable stoplatlon_dict : gmap string (Q * Q).
Variable sequence_shape_dict : gmap sequence_key Z.

Lemma elem_of_street_rows sh n stops pt :
  pt ∈ street_rows rt CurbApproach stoplatlon_dict sh n stops →
  pt_shape_id pt = sh ∧ pt_CurbApproach pt = CurbApproach.
Proof.
  revert n. induction stops as [|stop stops IH]; intros n; simpl.
  - by intros ?%elem_of_nil.
  - intros [Hpt|Hpt]%elem_of_app; [|by eapply IH].
    destruct (stoplatlon_dict !! stop) as [[stop_lat stop_lon]|];
      [destruct (stoplocfielddict rt !! stop) as [loc|]|].
    + apply list_elem_of_singleton in Hpt as ->. done.
    + by apply elem_of_nil in Hpt.
    + by apply elem_of_nil in Hpt.
Qed.

Lemma elem_of_straight_rows sh n stops pt :
  pt ∈ straight_rows CurbApproach stoplatlon_dict sh n stops →
  pt_shape_id pt = sh ∧ pt_CurbApproach pt = CurbApproach.
Proof.
  revert n. induction stops as [|stop stops IH]; intros n; simpl.
  - by intros ?%elem_of_nil.
  - intros [Hpt|Hpt]%elem_of_app; [|by eapply IH].
    destruct (stoplatlon_dict !! stop) as [[stop_lat stop_lon]|].
    + apply list_elem_of_singleton in Hpt as ->. done.
    + by apply elem_of_nil in Hpt.
Qed.

Lemma elem_of_chunk_points chunk pt :
  pt ∈ chunk_points rt CurbApproach stoplatlon_dict sequence_shape_dict chunk →
  pt_shape_id pt ∈ chunk_shapes sequence_shape_dict chunk ∧
  pt_CurbApproach pt = CurbApproach.
Proof.
  unfold chunk_points, chunk_shapes.
  intros (k & [Hsh Hcurb]%elem_of_street_rows & Hk)%list_elem_of_bind.
  split; [|done]. rewrite Hsh. apply list_elem_of_fmap. eauto.
Qed.

Lemma elem_of_chunk_saved_points chunk pt :
  pt ∈ chunk_saved_points rt CurbApproach stoplatlon_dict sequence_shape_dict chunk →
  pt_CurbApproach pt = CurbApproach.
Proof.
  unfold chunk_saved_points.
  destruct (Solve rt _); [by intros ?%elem_of_nil|].
  by intros [_ ?]%elem_of_chunk_points.
Qed.
End Points.

(** C9: every point of Stops_wShapeIDs, from the street pass or from the
    straight-line pass, has CurbApproach 1, whatever the driveSide input. *)
Theorem C9_CurbApproach_is_1 (rt : runtime) (params : parameters) (db : gtfs)
    (out : output) (pt : seq_point) :
  RunStep1 rt params db = Ok out →
  pt ∈ out_Stops_wShapeIDs out →
  pt_CurbApproach pt = 1%Z.
Proof.
  intros (RouteDict & st & srd & trips' & fc & rows & _ & _ & Hgen & _ & _ & Hpts & _)%RunStep1_Ok.
  rewrite Hpts. apply generate_shapes_Ok in Hgen as (_ & -> & _).
  rewrite CurbApproach_of_Right.
  intros [Hpt|Hpt]%elem_of_app.
  - unfold street_saved_points in Hpt.
    apply list_elem_of_bind in Hpt as (chunk & Hpt & _).
    by apply elem_of_chunk_saved_points in Hpt.
  - unfold straight_points in Hpt.
    apply list_elem_of_bind in Hpt as (k & Hpt & _).
    by apply elem_of_straight_rows in Hpt as [_ ?].
Qed.

Lemma C9_witness :
  pt_CurbApproach (first_point (run_result ex_rt ex_params ex_db)) = 1%Z.
Proof.
  apply (C9_CurbApproach_is_1 ex_rt ex_params ex_db (run_result ex_rt ex_params ex_db)).
  - vm_compute. reflexivity.
  - vm_compute. left.
Defined.

(** ** Lists of chunks and lists of rows *)

Lemma chunk_unique {A B} (h : A → B) (ls : list (list A)) l1 l2 y :
  NoDup (h <$> mjoin ls) → l1 ∈ ls → l2 ∈ ls →
  y ∈ h <$> l1 → y ∈ h <$> l2 → l1 = l2.
Proof.
  induction ls as [|l ls IH]; intros Hnd H1 H2 Hy1 Hy2.
  - by apply elem_of_nil in H1.
  - simpl in Hnd. rewrite fmap_app in Hnd.
    apply NoDup_app in Hnd as (_ & Hdisj & Hnd).
    assert (Hin : ∀ l', l' ∈ ls → y ∈ h <$> l' → y ∈ h <$> mjoin ls).
    { intros l' Hl' (x & -> & Hx)%list_elem_of_fmap.
      apply list_elem_of_fmap. exists x. split; [done|].
      apply list_elem_of_join. eauto. }
    apply elem_of_cons in H1 as [->|H1]; apply elem_of_cons in H2 as [->|H2].
    + done.
    + exfalso. eapply Hdisj; eauto.
    + exfalso. eapply Hdisj; eauto.
    + by apply IH.
Qed.

Lemma NoDup_bind_chunks {A B} (h : A → B) (f : list A → list B) (ls : list (list A)) :
  NoDup (h <$> mjoin ls) →
  (∀ l, l ∈ ls → NoDup (f l) ∧ ∀ y, y ∈ f l → y ∈ h <$> l) →
  NoDup (ls ≫= f).
Proof.
  induction ls as [|l ls IH]; intros Hnd Hf.
  - constructor.
  - simpl in Hnd. rewrite fmap_app in Hnd.
    apply NoDup_app in Hnd as (_ & Hdisj & Hnd).
    rewrite bind_cons. apply NoDup_app. split_and!.
    + apply Hf. left.
    + intros y Hy (l' & Hy' & Hl')%list_elem_of_bind.
      apply (Hdisj y).
      * apply Hf; [left|done].
      * destruct (Hf l') as [_ Hsub]; [by right|].
        apply Hsub in Hy' as (x & -> & Hx)%list_elem_of_fmap.
        apply list_elem_of_fmap. exists x. split; [done|].
        apply list_elem_of_join. eauto.
    + apply IH; [done|]. intros l' Hl'. apply Hf. by right.
Qed.

Lemma omap_fmap_compose {A B C} (g : B → option C) (f : A → B) (l : list A) :
  omap g (f <$> l) = omap (g ∘ f) l.
Proof. induction l as [|x l IH]; csimpl; [done|]. by rewrite IH. Qed.

Lemma fmap_bind_list {A B C} (f : B → C) (g : A → list B) (l : list A) :
  f <$> (l ≫= g) = l ≫= λ x, f <$> g x.
Proof.
  induction l as [|x l IH]; [done|]. by rewrite !bind_cons, fmap_app, IH.
Qed.

Lemma omap_None {A B} (g : A → option B) (l : list A) :
  (∀ x, x ∈ l → g x = None) → omap g l = [].
Proof.
  induction l as [|x l IH]; intros Hg; simpl; [done|].
  rewrite Hg by left. apply IH. intros x' Hx'. apply Hg. by right.
Qed.

Lemma omap_unique {A B} (g : A → option B) (l : list A) x y :
  x ∈ l → g x = Some y → (∀ x', x' ∈ l → x' ≠ x → g x' = None) → NoDup l →
  omap g l = [y].
Proof.
  induction l as [|x0 l IH]; intros Hx Hgx Hother Hnd.
  - by apply elem_of_nil in Hx.
  - apply NoDup_cons in Hnd as [Hx0 Hnd]. simpl.
    apply elem_of_cons in Hx as [<-|Hx].
    + rewrite Hgx. f_equal. apply omap_None. intros x' Hx'.
      apply Hother; [by right|]. intros ->. done.
    + rewrite (Hother x0); [|left|by intros ->].
      apply IH; [done|done| |done]. intros x' Hx'. apply Hother. by right.
Qed.

Lemma shape_geometries_nil rows sh :
  sh ∉ sf_Name <$> rows → shape_geometries rows sh = [].
Proof.
  intros Hsh. apply omap_None. intros row Hrow. case_decide as Hname; [|done].
  exfalso. apply Hsh. apply list_elem_of_fmap. eauto.
Qed.

Lemma shape_geometries_NoDup rows sh :
  NoDup (sf_Name <$> rows) → (length (shape_geometries rows sh) ≤ 1)%nat.
Proof.
  induction rows as [|row rows IH]; intros Hnd; simpl; [lia|].
  rewrite fmap_cons in Hnd. apply NoDup_cons in Hnd as [Hrow Hnd].
  case_decide as Hname; simpl.
  - subst sh. fold (shape_geometries rows (sf_Name row)).
    rewrite shape_geometries_nil by done. simpl. lia.
  - by apply IH.
Qed.

(** A cell equals at most one integer. *)
Lemma cell_eq_int_inj route_type z1 z2 :
  cell_eq_int route_type z1 = true → cell_eq_int route_type z2 = true → z1 = z2.
Proof.
  destruct route_type as [|z|[q| | |]|s]; simpl; try done.
  - intros <-%bool_decide_eq_true <-%bool_decide_eq_true. done.
  - intros H1%Qeq_bool_iff H2%Qeq_bool_iff. rewrite H1 in H2.
    by apply (proj1 (inject_Z_injective _ _)).
Qed.

Lemma route_type_in_disjoint route_type l1 l2 :
  (∀ z, z ∈ l1 → z ∉ l2) →
  route_type_in route_type l1 = true → route_type_in route_type l2 = false.
Proof.
  intros Hdisj. unfold route_type_in.
  intros (z1 & Hin1 & H1)%existsb_exists.
  apply not_true_is_false. intros (z2 & Hin2 & H2)%existsb_exists.
  rewrite (cell_eq_int_inj _ _ _ H1 H2) in Hin1.
  apply (Hdisj z2); by apply list_elem_of_In.
Qed.

(** ** The shapes of a run *)

Section Shapes.
Variable rt : runtime.
Variables route_types_Street route_types_Straight : list Z.
Variable CurbApproach : Z.
Variable stoplatlon_dict : gmap string (Q * Q).
Variable RouteDict : gmap string route_info.
Variable sequence_shape_dict : gmap sequence_key Z.
Hypothesis Hrt : runtime_laws rt.
Hypothesis Hinj : ∀ k1 k2 sh,
  sequence_shape_dict !! k1 = Some sh → sequence_shape_dict !! k2 = Some sh → k1 = k2.

Local Abbreviation iter := (iter_sequence_shape_dict rt sequence_shape_dict).
Local Abbreviation shape_of' := (shape_of_sequence sequence_shape_dict).
Local Abbreviation chunk_points' :=
  (chunk_points rt CurbApproach stoplatlon_dict sequence_shape_dict).
Local Abbreviation chunk_shapes' := (chunk_shapes sequence_shape_dict).
Local Abbreviation chunk_routes' :=
  (chunk_routes rt CurbApproach stoplatlon_dict sequence_shape_dict).
Local Abbreviation chunk_no_route' :=
  (chunk_no_route rt CurbApproach stoplatlon_dict sequence_shape_dict).
Local Abbreviation street_selected' := (street_selected route_types_Street RouteDict).
Local Abbreviation straight_selected' :=
  (straight_selected route_types_Straight RouteDict sequence_shape_dict).
Local Abbreviation straight_feature' := (straight_feature stoplatlon_dict sequence_shape_dict).
Local Abbreviation street_chunks' :=
  (street_chunks rt route_types_Street RouteDict sequence_shape_dict).
Local Abbreviation final_NoRouteGenerated' :=
  (final_NoRouteGenerated rt route_types_Street CurbApproach stoplatlon_dict RouteDict
     sequence_shape_dict).
Local Abbreviation straight_sequences' :=
  (straight_sequences rt route_types_Street route_types_Straight CurbApproach
     stoplatlon_dict RouteDict sequence_shape_dict).
Local Abbreviation street_features' :=
  (street_features rt route_types_Street CurbApproach stoplatlon_dict RouteDict
     sequence_shape_dict).
Local Abbreviation straight_features' :=
  (straight_features rt route_types_Street route_types_Straight CurbApproach
     stoplatlon_dict RouteDict sequence_shape_dict).

Lemma NoDup_iter : NoDup iter.
Proof.
  rewrite (iter_sequence_shape_dict_keys _ Hrt). apply NoDup_fst_map_to_list.
Qed.

Lemma elem_of_iter k : k ∈ iter ↔ is_Some (sequence_shape_dict !! k).
Proof.
  rewrite (iter_sequence_shape_dict_keys _ Hrt). apply elem_of_map_to_list_keys.
Qed.

Lemma shape_of_inj k1 k2 :
  k1 ∈ iter → k2 ∈ iter → shape_of' k1 = shape_of' k2 → k1 = k2.
Proof.
  intros [sh1 H1]%elem_of_iter [sh2 H2]%elem_of_iter.
  unfold shape_of_sequence. rewrite H1, H2. simpl. intros ->. by eapply Hinj.
Qed.

Lemma NoDup_shape_of l :
  NoDup l → (∀ k, k ∈ l → k ∈ iter) → NoDup (shape_of' <$> l).
Proof.
  intros Hnd Hsub. apply NoDup_fmap_2_strong; [|done].
  intros k1 k2 H1 H2. apply shape_of_inj; auto.
Qed.

Lemma join_street_chunks :
  mjoin street_chunks' =
    if decide (route_types_Street = []) then [] else filter street_selected' iter.
Proof.
  rewrite street_chunks_eq. case_decide; [done|].
  apply join_chunked. unfold ChunkSize. lia.
Qed.

Lemma elem_of_street_chunks chunk k :
  chunk ∈ street_chunks' → k ∈ chunk →
  route_types_Street ≠ [] ∧ k ∈ iter ∧ street_selected' k = true.
Proof.
  intros Hchunk Hk.
  assert (Hjoin : k ∈ mjoin street_chunks') by (apply list_elem_of_join; eauto).
  rewrite join_street_chunks in Hjoin. case_decide as Hne.
  - by apply elem_of_nil in Hjoin.
  - apply list_elem_of_filter in Hjoin as [Hsel Hin].
    split_and!; [done|done|]. by apply Is_true_true.
Qed.

Lemma NoDup_street_chunk_shapes : NoDup (shape_of' <$> mjoin street_chunks').
Proof.
  rewrite join_street_chunks. case_decide; [constructor|].
  apply NoDup_shape_of.
  - apply NoDup_filter, NoDup_iter.
  - by intros k [_ ?]%list_elem_of_filter.
Qed.

(** A shape id belongs to one chunk only. *)
Lemma street_chunk_unique chunk1 chunk2 sh :
  chunk1 ∈ street_chunks' → chunk2 ∈ street_chunks' →
  sh ∈ chunk_shapes' chunk1 → sh ∈ chunk_shapes' chunk2 → chunk1 = chunk2.
Proof.
  intros H1 H2 Hs1 Hs2.
  by apply (chunk_unique shape_of' street_chunks' chunk1 chunk2 sh
              NoDup_street_chunk_shapes).
Qed.

(** The lines of a solved chunk are named after shapes of the chunk. *)
Lemma chunk_routes_names chunk name :
  routes_named_by_input (Solve rt) →
  name ∈ sf_Name <$> chunk_routes' chunk →
  name ∈ chunk_shapes' chunk ∧
  ∃ RoutesLayer warning_messages,
    Solve rt (chunk_points' chunk) = Solved RoutesLayer warning_messages ∧
    name ∈ RoutesLayer.*1.
Proof.
  intros Hsolver. unfold chunk_routes.
  destruct (Solve rt (chunk_points' chunk)) as [wm em|RoutesLayer wm] eqn:Hsolve.
  - by intros ?%elem_of_nil.
  - rewrite <- list_fmap_compose. intros (r & -> & Hr)%list_elem_of_fmap. simpl.
    assert (Hname : r.1 ∈ RoutesLayer.*1) by (apply list_elem_of_fmap; eauto).
    split; [|eauto].
    apply (Hsolver _ _ _ Hsolve) in Hname as (pt & -> & Hpt)%list_elem_of_fmap.
    by apply elem_of_chunk_points in Hpt as [? _].
Qed.

Lemma straight_features_names :
  sf_Name <$> straight_features' = shape_of' <$> straight_sequences'.
Proof. unfold straight_features. by rewrite <- list_fmap_compose. Qed.

Lemma elem_of_straight_sequences k :
  k ∈ straight_sequences' →
  k ∈ iter ∧ straight_selected' final_NoRouteGenerated' k = true.
Proof.
  rewrite straight_sequences_eq. case_decide.
  - by intros ?%elem_of_nil.
  - intros [Hsel Hin]%list_elem_of_filter. split; [done|]. by apply Is_true_true.
Qed.

Lemma NoDup_straight_sequences : NoDup straight_sequences'.
Proof.
  rewrite straight_sequences_eq. case_decide; [constructor|].
  apply NoDup_filter, NoDup_iter.
Qed.

(** A shape of a chunk whose Solve raised has no line from the solver and
    exactly one straight line. *)
Lemma failed_chunk_geometries chunk warning_messages error_messages k :
  routes_named_by_input (Solve rt) →
  (∀ sequence, sequence ∈ iter → is_Some (RouteDict !! sequence.1)) →
  chunk ∈ street_chunks' →
  Solve rt (chunk_points' chunk) = SolveFailed warning_messages error_messages →
  k ∈ chunk →
  shape_geometries (street_features' ++ straight_features') (shape_of' k) =
    [StraightLine (straight_array stoplatlon_dict k.2)].
Proof.
  intros Hsolver HRoute Hchunk Hfailed Hk.
  destruct (elem_of_street_chunks chunk k Hchunk Hk) as (Hne & Hiter & Hsel).
  assert (Hshape : shape_of' k ∈ chunk_shapes' chunk)
    by (apply list_elem_of_fmap; eauto).
  rewrite shape_geometries_app.
  rewrite shape_geometries_nil; simpl.
  - unfold straight_features, shape_geometries. rewrite omap_fmap_compose.
    apply (omap_unique _ _ k).
    + rewrite straight_sequences_eq.
      assert (Hnrg : shape_of' k ∈ final_NoRouteGenerated').
      { apply list_elem_of_bind. exists chunk. split; [|done].
        unfold chunk_no_route. by rewrite Hfailed. }
      rewrite decide_False.
      * apply list_elem_of_filter. split; [|done]. apply Is_true_true.
        unfold straight_selected. destruct (HRoute k Hiter) as [info ->].
        rewrite (bool_decide_eq_true_2 _ Hnrg). apply orb_true_r.
      * intros [_ Hnil]. rewrite Hnil in Hnrg. by apply elem_of_nil in Hnrg.
    + simpl. by rewrite decide_True.
    + intros k' Hk' Hne'. simpl. rewrite decide_False; [done|].
      intros Heq. apply Hne'.
      apply elem_of_straight_sequences in Hk' as [Hk' _]. by apply shape_of_inj.
    + apply NoDup_straight_sequences.
  - unfold street_features. rewrite fmap_bind_list.
    intros (chunk' & Hname & Hchunk')%list_elem_of_bind.
    apply chunk_routes_names in Hname as (Hshape' & R & wm & Hsolved & _); [|done].
    assert (chunk' = chunk) as -> by by eapply street_chunk_unique.
    congruence.
Qed.

(** With disjoint type lists and a solver that keeps its contract, no two
    rows of Shapes have the same name. *)
Lemma NoDup_shape_names :
  solver_contract (Solve rt) →
  (∀ z, z ∈ route_types_Street → z ∉ route_types_Straight) →
  NoDup (sf_Name <$> (street_features' ++ straight_features')).
Proof.
  intros Hsolver Hdisj.
  assert (Hnamed : routes_named_by_input (Solve rt)).
  { intros pts R wm Hsolve. by destruct (Hsolver pts R wm Hsolve) as (_ & ? & _). }
  rewrite fmap_app. apply NoDup_app. split_and!.
  - unfold street_features. rewrite fmap_bind_list.
    apply (NoDup_bind_chunks shape_of'); [apply NoDup_street_chunk_shapes|].
    intros chunk Hchunk. split.
    + unfold chunk_routes.
      destruct (Solve rt (chunk_points' chunk)) as [wm em|R wm] eqn:Hsolve; [constructor|].
      rewrite <- list_fmap_compose.
      by destruct (Hsolver _ _ _ Hsolve) as (Hnd & _ & _).
    + intros name Hname. by apply chunk_routes_names in Hname as [? _].
  - intros name Hstreet Hstraight.
    unfold street_features in Hstreet. rewrite fmap_bind_list in Hstreet.
    apply list_elem_of_bind in Hstreet as (chunk & Hname & Hchunk).
    apply chunk_routes_names in Hname as (Hshape & R & wm & Hsolved & HR); [|done].
    apply list_elem_of_fmap in Hshape as (k & -> & Hk).
    destruct (elem_of_street_chunks chunk k Hchunk Hk) as (Hne & Hiter & Hsel).
    rewrite straight_features_names in Hstraight.
    apply list_elem_of_fmap in Hstraight as (k' & Heq & Hk').
    apply elem_of_straight_sequences in Hk' as [Hiter' Hsel'].
    assert (k' = k) as -> by by apply shape_of_inj.
    unfold street_selected in Hsel. unfold straight_selected in Hsel'.
    destruct (RouteDict !! k.1) as [info|]; [|done].
    rewrite (route_type_in_disjoint _ _ _ Hdisj Hsel) in Hsel'. simpl in Hsel'.
    apply bool_decide_eq_true in Hsel'.
    apply list_elem_of_bind in Hsel' as (chunk' & Hno & Hchunk').
    unfold chunk_no_route in Hno.
    destruct (Solve rt (chunk_points' chunk')) as [wm' em'|R' wm'] eqn:Hsolve'.
    + assert (chunk' = chunk) as ->.
      { eapply street_chunk_unique; [done|done|done|].
        apply list_elem_of_fmap. eauto. }
      congruence.
    + destruct (Hsolver _ _ _ Hsolve') as (_ & _ & Hno').
      destruct (Hno' _ Hno) as [Hin Hnot].
      apply list_elem_of_fmap in Hin as (pt & Hpt_eq & Hpt).
      apply elem_of_chunk_points in Hpt as [Hpt _]. rewrite <- Hpt_eq in Hpt.
      assert (chunk' = chunk) as ->.
      { eapply street_chunk_unique; [done|done|done|].
        apply list_elem_of_fmap. eauto. }
      rewrite Hsolved in Hsolve'. injection Hsolve' as <- <-. done.
  - rewrite straight_features_names. apply NoDup_shape_of.
    + apply NoDup_straight_sequences.
    + by intros k [? _]%elem_of_straight_sequences.
Qed.
End Shapes.

(** ** Batches that fail, and the number of geometries per shape *)

Lemma dedup_phase_inj rt db st shape_route_dict trips' k1 k2 sh :
  dedup_phase rt db = Ok (st, shape_route_dict, trips') →
  sequence_shape_dict st !! k1 = Some sh → sequence_shape_dict st !! k2 = Some sh →
  k1 = k2.
Proof.
  unfold dedup_phase.
  destruct (dedup _ _ _) as [st0|] eqn:Hst; simpl; [|done].
  destruct (update_trips_table _ _ _ _) as [[srd conn]|]; simpl; [|done].
  intros [= -> _ _]. apply dedup_Ok_inv in Hst as [_ Hinv].
  apply (inv_ssd_inj Hinv).
Qed.

(** The rows of Shapes of a run, up to the route information added last. *)
Lemma RunStep1_geometries rt params db out sh :
  RunStep1 rt params db = Ok out →
  shape_geometries (out_Shapes out) sh =
    shape_geometries
      (street_features rt (route_types_Street params) (CurbApproach_of (driveSide params))
         (make_stoplatlon_dict (stops db)) (RouteDict_of rt db) (sequence_shape_dict_of rt db)
       ++ straight_features rt (route_types_Street params) (route_types_Straight params)
            (CurbApproach_of (driveSide params)) (make_stoplatlon_dict (stops db))
            (RouteDict_of rt db) (sequence_shape_dict_of rt db)) sh.
Proof.
  intros (RouteDict & st & srd & trips' & fc & rows & _ & _ & Hgen & Hrows & Hmap & _ & _
          & -> & ->)%RunStep1_Ok.
  apply generate_shapes_Ok in Hgen as (Hfc & _).
  rewrite Hrows in Hfc. simpl in Hfc. subst rows.
  by eapply mapR_add_route_info_geometries.
Qed.

(** C3: when Solve raises on a chunk, the loop body returns normally with
    the chunk's shape ids appended to NoRouteGenerated and both feature
    classes untouched, and in the output every shape of the chunk has one
    geometry, a straight line. *)
Theorem C3_failed_batch_gets_straight_lines (rt : runtime) (params : parameters)
    (db : gtfs) (out : output) (chunk : list sequence_key)
    (warning_messages error_messages : string) :
  runtime_laws rt →
  routes_named_by_input (Solve rt) →
  RunStep1 rt params db = Ok out →
  chunk ∈ run_street_chunks rt params db →
  Solve rt (run_chunk_points rt params db chunk) =
    SolveFailed warning_messages error_messages →
  (∀ st, ∃ st',
     street_chunk rt (CurbApproach_of (driveSide params)) (make_stoplatlon_dict (stops db))
       (sequence_shape_dict_of rt db) st chunk = Ok st' ∧
     NoRouteGenerated (fc st') = NoRouteGenerated (fc st) ++ run_chunk_shapes rt db chunk ∧
     outRoutesfc (fc st') = outRoutesfc (fc st) ∧
     outSequencePoints (fc st') = outSequencePoints (fc st)) ∧
  (∀ sh, sh ∈ run_chunk_shapes rt db chunk →
     ∃ vertices, shape_geometries (out_Shapes out) sh = [StraightLine vertices]).
Proof.
  intros Hrt Hsolver Hrun Hchunk Hfailed.
  assert (Hgeo := λ sh, RunStep1_geometries rt params db out sh Hrun).
  apply RunStep1_Ok in Hrun
    as (RouteDict & st & srd & trips' & fc & rows & _ & Hphase & Hgen & _ & _ & _ & _
        & HRD & Hssd).
  unfold run_street_chunks, run_chunk_points, run_chunk_shapes in *.
  rewrite HRD, Hssd in *.
  apply generate_shapes_Ok in Hgen as (_ & _ & _ & Hkeys).
  assert (Hne : route_types_Street params ≠ []).
  { intros Hnil. rewrite street_chunks_eq, Hnil in Hchunk. simpl in Hchunk.
    by apply elem_of_nil in Hchunk. }
  destruct (Hkeys Hne) as [HRoute Hpresent]. split.
  - intros s. eapply street_chunk_failed; [|done].
    intros k Hk. by eapply Hpresent.
  - intros sh (k & -> & Hk)%list_elem_of_fmap. eexists. rewrite Hgeo.
    eapply failed_chunk_geometries; try done.
    intros k1 k2 sh'. by eapply dedup_phase_inj.
Qed.

Lemma C3_witness :
  let rt := ex_rt_with solve_fails in
  let chunk := first_chunk (run_street_chunks rt ex_params ex_db) in
  (∀ st, ∃ st',
     street_chunk rt (CurbApproach_of (driveSide ex_params))
       (make_stoplatlon_dict (stops ex_db)) (sequence_shape_dict_of rt ex_db) st chunk
       = Ok st' ∧
     NoRouteGenerated (fc st') = NoRouteGenerated (fc st) ++ run_chunk_shapes rt ex_db chunk ∧
     outRoutesfc (fc st') = outRoutesfc (fc st) ∧
     outSequencePoints (fc st') = outSequencePoints (fc st)) ∧
  (∀ sh, sh ∈ run_chunk_shapes rt ex_db chunk →
     ∃ vertices,
       shape_geometries (out_Shapes (run_result rt ex_params ex_db)) sh =
         [StraightLine vertices]).
Proof.
  apply (C3_failed_batch_gets_straight_lines (ex_rt_with solve_fails) ex_params ex_db
           (run_result (ex_rt_with solve_fails) ex_params ex_db) _
           "No solution found." "Solve failed.").
  - apply ex_rt_with_laws.
  - intros pts R wm Hsolve. discriminate Hsolve.
  - vm_compute. reflexivity.
  - vm_compute. left.
  - reflexivity.
Defined.

(** C4 (amended): when no route type is chosen for both passes and the
    solver keeps its contract, the output holds at most one geometry for
    any shape id, so never a solved line and a straight line together. *)
Theorem C4_at_most_one_geometry_when_types_disjoint (rt : runtime)
    (params : parameters) (db : gtfs) (out : output) (sh : Z) :
  runtime_laws rt →
  solver_contract (Solve rt) →
  (∀ z, z ∈ route_types_Street params → z ∉ route_types_Straight params) →
  RunStep1 rt params db = Ok out →
  (length (shape_geometries (out_Shapes out) sh) ≤ 1)%nat ∧
  ¬ (∃ v1 v2, NetworkPath v1 ∈ shape_geometries (out_Shapes out) sh ∧
              StraightLine v2 ∈ shape_geometries (out_Shapes out) sh).
Proof.
  intros Hrt Hsolver Hdisj Hrun.
  assert (Hlen : (length (shape_geometries (out_Shapes out) sh) ≤ 1)%nat).
  { rewrite (RunStep1_geometries rt params db out sh Hrun).
    apply shape_geometries_NoDup.
    apply RunStep1_Ok in Hrun
      as (RouteDict & st & srd & trips' & fc & rows & _ & Hphase & _ & _ & _ & _ & _
          & -> & ->).
    apply NoDup_shape_names; try done.
    intros k1 k2 sh'. by eapply dedup_phase_inj. }
  split; [done|]. intros (v1 & v2 & H1 & H2).
  destruct (shape_geometries (out_Shapes out) sh) as [|g1 [|g2 gs]]; simpl in Hlen.
  - by apply elem_of_nil in H1.
  - apply list_elem_of_singleton in H1. apply list_elem_of_singleton in H2. congruence.
  - lia.
Qed.

Lemma solver_contract_solve_all : solver_contract solve_all.
Proof.
  intros pts R wm. unfold solve_all. intros [= <- <-].
  rewrite <- list_fmap_compose.
  assert (Hid : (fst ∘ (λ sh : Z, (sh, @nil point))) <$> remove_dups (pt_shape_id <$> pts)
                = remove_dups (pt_shape_id <$> pts)).
  { rewrite <- (list_fmap_id (remove_dups _)) at 2. by apply list_fmap_ext. }
  rewrite Hid. split_and!.
  - apply NoDup_remove_dups.
  - intros name. by rewrite elem_of_remove_dups.
  - intros name Hname. vm_compute in Hname. by apply elem_of_nil in Hname.
Qed.

(** A run in which both passes draw: shape 1 (route R1, a bus route) gets a
    line from the solver and shape 2 (route R2, a subway line) a straight
    line. *)
Lemma C4_witness :
  let out := run_result ex_rt ex_params_mixed ex_db_mixed in
  (shape_geometries (out_Shapes out) 1 = [NetworkPath []] ∧
   shape_geometries (out_Shapes out) 2 = [StraightLine [(0%Q, 0%Q); (1%Q, 1%Q)]]) ∧
  (length (shape_geometries (out_Shapes out) 1) ≤ 1)%nat ∧
  ¬ (∃ v1 v2,
       NetworkPath v1 ∈ shape_geometries (out_Shapes out) 1 ∧
       StraightLine v2 ∈ shape_geometries (out_Shapes out) 1).
Proof.
  split; [split; vm_compute; reflexivity|].
  apply (C4_at_most_one_geometry_when_types_disjoint ex_rt ex_params_mixed ex_db_mixed
           (run_result ex_rt ex_params_mixed ex_db_mixed) 1).
  - apply ex_rt_with_laws.
  - apply solver_contract_solve_all.
  - intros z Hz%list_elem_of_singleton Hz'%list_elem_of_singleton. lia.
  - vm_compute. reflexivity.
Defined.

(** C4 as stated fails: with route type 3 chosen for both passes and a solver
    that keeps its contract, shape 1 of the example feed ends with two
    geometries, one from the solver and one straight line. *)
Lemma C4_counterexample :
  solver_contract (Solve ex_rt) ∧
  ∃ out,
    RunStep1 ex_rt ex_params_both ex_db = Ok out ∧
    shape_geometries (out_Shapes out) 1 =
      [NetworkPath []; StraightLine [(0%Q, 0%Q); (1%Q, 1%Q)]] ∧
    length (shape_geometries (out_Shapes out) 1) = 2%nat.
Proof.
  split; [apply solver_contract_solve_all|].
  exists (run_result ex_rt ex_params_both ex_db). split_and!.
  - vm_compute. reflexivity.
  - vm_compute. reflexivity.
  - vm_compute. reflexivity.
Qed.

(** ** End-of-run warnings *)

(** C8 (what the code does). First run: the solver reports stop S2 as
    unlocated, the street pass records it, and the only warning emitted is
    the fixed text, in which S2 does not occur. Second run: the
    straight-line pass reports the stops missing from stops.txt in the order
    in which the set is enumerated, here Z9 before A1, where the street pass
    would have sorted them. *)
Theorem C8_unlocated_stops_not_listed_and_bad_stops_unsorted :
  (unlocated_ids (unlocated_warning "S2") = ["S2"] ∧
   ∃ out, RunStep1 (ex_rt_with solve_unlocated) ex_params ex_db = Ok out ∧
          out_warnings out = [WarnText msg_unlocated_stops] ∧
          index 0 "S2" msg_unlocated_stops = None) ∧
  (∃ out, RunStep1 ex_rt ex_params_straight ex_db_bad_stops = Ok out ∧
          out_warnings out = [WarnTextStops msg_bad_stops ["Z9"; "A1"]] ∧
          sorted String.leb ["Z9"; "A1"] = ["A1"; "Z9"]).
Proof.
  split.
  - split; [vm_compute; reflexivity|].
    exists (run_result (ex_rt_with solve_unlocated) ex_params ex_db). split_and!.
    + vm_compute. reflexivity.
    + vm_compute. reflexivity.
    + vm_compute. reflexivity.
  - exists (run_result ex_rt ex_params_straight ex_db_bad_stops). split_and!.
    + vm_compute. reflexivity.
    + vm_compute. reflexivity.
    + vm_compute. reflexivity.
Qed.

(** Whatever the stops recorded as unlocated, the warnings of the street pass
    are the same: the list is sorted and then dropped. *)
Lemma street_warnings_ignore_unlocated_stops rt fc0 bad l1 l2 :
  l1 ≠ [] → l2 ≠ [] →
  street_warnings rt {| fc := fc0; badStops := bad; unlocated_stops := l1 |} =
  street_warnings rt {| fc := fc0; badStops := bad; unlocated_stops := l2 |}.
Proof.
  intros H1 H2. unfold street_warnings. simpl.
  by destruct l1, l2.
Qed.

(** ** The order of the stops of a trip *)

Lemma insert_sorted_Permutation {A} (le : A → A → bool) x l :
  insert_sorted le x l ≡ₚ x :: l.
Proof.
  induction l as [|y l IH]; simpl; [done|].
  destruct (le x y); [done|]. rewrite IH. apply Permutation_swap.
Qed.

Lemma sorted_Permutation {A} (le : A → A → bool) l : sorted le l ≡ₚ l.
Proof.
  induction l as [|x l IH]; simpl; [done|].
  unfold sorted in *. simpl. rewrite insert_sorted_Permutation. by f_equiv.
Qed.

Lemma insert_sorted_StronglySorted (x : string * Z) l :
  StronglySorted (λ a b, (a.2 ≤ b.2)%Z) l →
  StronglySorted (λ a b, (a.2 ≤ b.2)%Z) (insert_sorted (λ a b, (a.2 <=? b.2)%Z) x l).
Proof.
  induction 1 as [|y l Hl IH Hy]; simpl.
  - repeat constructor.
  - destruct (Z.leb_spec x.2 y.2) as [Hle|Hgt].
    + constructor; [by constructor|]. constructor; [done|].
      eapply Forall_impl; [exact Hy|]. simpl. intros z Hz. lia.
    + constructor; [done|].
      rewrite insert_sorted_Permutation. constructor; [lia|done].
Qed.

(** ** The order of the stops of a trip: ties *)

Lemma filter_insert_sorted_key (z : Z) (x : string * Z) (l : list (string * Z)) :
  filter (λ a, a.2 = z) (insert_sorted (λ a b, (a.2 <=? b.2)%Z) x l) =
  filter (λ a, a.2 = z) (x :: l).
Proof.
  induction l as [|y l IH]; simpl; [done|].
  destruct (Z.leb_spec x.2 y.2) as [Hle|Hgt]; [done|].
  rewrite (filter_cons _ y), IH, !filter_cons.
  repeat case_decide; try done; lia.
Qed.

Lemma sort_stops_ascending_and_stable (rows : list (string * Z)) :
  ∃ sorted_rows,
    sort_stops rows = sorted_rows.*1 ∧
    sorted_rows ≡ₚ rows ∧
    StronglySorted (λ a b, (a.2 ≤ b.2)%Z) sorted_rows ∧
    ∀ z, filter (λ a, a.2 = z) sorted_rows = filter (λ a, a.2 = z) rows.
Proof.
  exists (sorted (λ a b, (a.2 <=? b.2)%Z) rows).
  split_and!; [done|apply sorted_Permutation| |].
  - induction rows as [|x l IH]; [constructor|].
    unfold sorted in *. simpl. by apply insert_sorted_StronglySorted.
  - intros z. induction rows as [|x l IH]; [done|].
    unfold sorted in *. simpl. rewrite filter_insert_sorted_key, !filter_cons, IH. done.
Qed.

(** X1: whatever rows the SELECT of a trip returns, the stop sequence the
    loop builds lists their stop ids by ascending stop_sequence, rows with
    the same stop_sequence in the order in which they were returned; when
    the trip id has no quote and no NUL in it, the rows are those of
    stop_times that carry the id, in table order. *)
Theorem X1_stop_sequence_ascending_and_stable (rt : runtime)
    (stop_times : list stop_time_row) (trip : string) (rows : list (string * Z)) :
  selectedstops rt stop_times trip = Ok rows →
  (∃ sorted_rows,
     stop_sequence_of rt stop_times trip = Ok sorted_rows.*1 ∧
     sorted_rows ≡ₚ rows ∧
     StronglySorted (λ a b, (a.2 ≤ b.2)%Z) sorted_rows ∧
     ∀ z, filter (λ a, a.2 = z) sorted_rows = filter (λ a, a.2 = z) rows) ∧
  (plain_id trip = true →
     rows = (λ r, (st_stop_id r, st_stop_sequence r)) <$>
              filter (λ r, st_trip_id r = trip) stop_times).
Proof.
  intros Hrows. split.
  - destruct (sort_stops_ascending_and_stable rows) as (sorted_rows & Heq & Hperm & Hs & Hst).
    exists sorted_rows. split_and!; [|done..].
    unfold stop_sequence_of. rewrite Hrows. simpl. by rewrite Heq.
  - intros Hplain. unfold selectedstops in Hrows.
    rewrite where_trip_id_plain in Hrows by done. by injection Hrows as <-.
Qed.

Lemma X1_witness :
  (∃ sorted_rows,
     stop_sequence_of ex_rt ex_stop_times "A" = Ok sorted_rows.*1 ∧
     sorted_rows ≡ₚ [("S2", 2%Z); ("S1", 1%Z)] ∧
     StronglySorted (λ a b, (a.2 ≤ b.2)%Z) sorted_rows ∧
     ∀ z, filter (λ a, a.2 = z) sorted_rows =
          filter (λ a, a.2 = z) [("S2", 2%Z); ("S1", 1%Z)]) ∧
  (plain_id "A" = true →
     [("S2", 2%Z); ("S1", 1%Z)] =
       (λ r, (st_stop_id r, st_stop_sequence r)) <$>
         filter (λ r, st_trip_id r = "A") ex_stop_times).
Proof.
  apply (X1_stop_sequence_ascending_and_stable ex_rt ex_stop_times "A"). reflexivity.
Defined.

(** ** Dictionaries built from tables: the last row of an id wins *)

Lemma make_trip_route_dict_snoc l row :
  make_trip_route_dict (l ++ [row]) =
    <[tr_trip_id row := tr_route_id row]> (make_trip_route_dict l).
Proof. unfold make_trip_route_dict. by rewrite foldl_app. Qed.

Lemma make_stoplatlon_dict_snoc l stop :
  make_stoplatlon_dict (l ++ [stop]) =
    <[s_stop_id stop := (s_stop_lat stop, s_stop_lon stop)]> (make_stoplatlon_dict l).
Proof. unfold make_stoplatlon_dict. by rewrite foldl_app. Qed.

Lemma rows_with_snoc {A} (key : A → string) id l r :
  rows_with key id (l ++ [r]) =
    if decide (key r = id) then rows_with key id l ++ [r] else rows_with key id l.
Proof.
  unfold rows_with. rewrite filter_app, filter_cons, filter_nil.
  case_decide; [done|by rewrite app_nil_r].
Qed.

(** X2: when an id occurs on several rows of trips or of stops, the
    dictionary keeps the values of the last of them; an id is a key exactly
    when some row carries it. *)
Theorem X2_dictionaries_keep_last_row (db : gtfs) (id : string) :
  make_trip_route_dict (trips db) !! id =
    tr_route_id <$> last (rows_with tr_trip_id id (trips db)) ∧
  make_stoplatlon_dict (stops db) !! id =
    (λ stop, (s_stop_lat stop, s_stop_lon stop)) <$> last (rows_with s_stop_id id (stops db)).
Proof.
  split.
  - induction (trips db) as [|row l IH] using rev_ind; [done|].
    rewrite make_trip_route_dict_snoc, rows_with_snoc.
    case_decide as Hid.
    + subst id. by rewrite lookup_insert_eq, last_snoc.
    + by rewrite lookup_insert_ne.
  - induction (stops db) as [|stop l IH] using rev_ind; [done|].
    rewrite make_stoplatlon_dict_snoc, rows_with_snoc.
    case_decide as Hid.
    + subst id. by rewrite lookup_insert_eq, last_snoc.
    + by rewrite lookup_insert_ne.
Qed.

(** ** The route dictionary when it is built *)

Section RouteDictBuilt.
Variable rt : runtime.

Lemma RouteDict_step_known_text RouteDict route :
  known_route_type rt route →
  RouteDict_step rt RouteDict route =
    Ok (<[r_route_id route := make_route_info route (route_type_text_of rt route)]> RouteDict).
Proof.
  intros (z & Hz & Hrange). unfold RouteDict_step, route_type_text_of. rewrite Hz. simpl.
  apply route_type_dict_lookup in Hrange as [text Htext].
  unfold getitem. rewrite Htext. done.
Qed.

Lemma known_route_type_text route :
  known_route_type rt route →
  ∃ z, int_of_cell rt (r_route_type route) = Ok z ∧ (0 ≤ z ≤ 7)%Z ∧
       route_type_dict !! z = Some (route_type_text_of rt route).
Proof.
  intros (z & Hz & Hrange). exists z. split; [done|]. split; [done|].
  unfold route_type_text_of. rewrite Hz.
  apply route_type_dict_lookup in Hrange as [text ->]. done.
Qed.

Lemma foldM_RouteDict_known l RouteDict :
  Forall (known_route_type rt) l →
  foldM (RouteDict_step rt) RouteDict l =
    Ok (foldl (λ d route,
                 <[r_route_id route := make_route_info route (route_type_text_of rt route)]> d)
              RouteDict l).
Proof.
  intros Hall. apply foldM_Ok_foldl. intros d route Hin.
  apply RouteDict_step_known_text. by eapply Forall_forall in Hall.
Qed.

Lemma make_RouteDict_Ok_known l RouteDict :
  make_RouteDict rt l = Ok RouteDict → Forall (known_route_type rt) l.
Proof.
  intros Hok. apply Forall_forall. intros route Hin.
  destruct (known_route_type_dec rt route) as [Hk|Hk]; [done|].
  unfold make_RouteDict in Hok.
  by rewrite (foldM_RouteDict_unknown rt l ∅ route Hin Hk) in Hok.
Qed.

Lemma make_RouteDict_lookup l RouteDict id :
  make_RouteDict rt l = Ok RouteDict →
  RouteDict !! id =
    (λ route, make_route_info route (route_type_text_of rt route))
      <$> last (rows_with r_route_id id l).
Proof.
  intros Hok. assert (Hall := make_RouteDict_Ok_known _ _ Hok).
  unfold make_RouteDict in Hok. rewrite foldM_RouteDict_known in Hok by done.
  injection Hok as <-. clear Hall.
  induction l as [|route l IH] using rev_ind; [done|].
  rewrite foldl_app, rows_with_snoc. simpl.
  case_decide as Hid.
  - subst id. by rewrite lookup_insert_eq, last_snoc.
  - by rewrite lookup_insert_ne.
Qed.

Lemma make_RouteDict_info_known l RouteDict id info :
  make_RouteDict rt l = Ok RouteDict → RouteDict !! id = Some info →
  ∃ z, int_of_cell rt (ri_route_type info) = Ok z ∧ (0 ≤ z ≤ 7)%Z ∧
       route_type_dict !! z = Some (ri_route_type_text info).
Proof.
  intros Hok Hinfo.
  assert (Hall := make_RouteDict_Ok_known _ _ Hok).
  rewrite (make_RouteDict_lookup _ _ id Hok) in Hinfo.
  destruct (last (rows_with r_route_id id l)) as [route|] eqn:Hlast; [|done].
  injection Hinfo as <-. simpl.
  apply known_route_type_text. eapply Forall_forall; [exact Hall|].
  apply last_Some_elem_of in Hlast.
  by apply list_elem_of_filter in Hlast as [_ ?].
Qed.

(** What [int] reads as one of 0..7: an integer among them, a float
    strictly between -1 and 8, whose fraction [int] drops, or a text that
    [int] parses to one of them. *)
Lemma known_route_type_cases route :
  known_route_type rt route ↔
  match r_route_type route with
  | Null => False
  | Integer z => (0 ≤ z ≤ 7)%Z
  | Real (Finite q) => (-1 < q)%Q ∧ (q < 8)%Q
  | Real _ => False
  | Text s =>
      ∃ z, (if plain_text s then int_of_text s else unicode_int rt s) = Ok z ∧
           (0 ≤ z ≤ 7)%Z
  end.
Proof.
  unfold known_route_type.
  destruct (r_route_type route) as [|z|[[n d]| | |]|s]; simpl.
  - split; [by intros (z & [=] & _)|done].
  - split; [by intros (z' & [= <-] & ?)|eauto].
  - unfold Qlt. simpl. split.
    + intros (z & [= <-] & Hz).
      pose proof (Z.quot_rem' n (Z.pos d)) as Hqr.
      pose proof (Z.rem_bound_abs n (Z.pos d)) as Hb.
      pose proof (Z.rem_sign_mul n (Z.pos d)) as Hs.
      split; nia.
    + intros [Hlo Hhi]. eexists. split; [done|].
      pose proof (Z.quot_rem' n (Z.pos d)) as Hqr.
      pose proof (Z.rem_bound_abs n (Z.pos d)) as Hb.
      pose proof (Z.rem_sign_mul n (Z.pos d)) as Hs.
      split; nia.
  - split; [by intros (z & [=] & _)|done].
  - split; [by intros (z & [=] & _)|done].
  - split; [by intros (z & [=] & _)|done].
  - done.
Qed.
End RouteDictBuilt.

(** X3: the route dictionary is built exactly when [int] reads the
    route_type of every row of routes as one of the codes 0..7: an integer
    among them, a float strictly between -1 and 8 (3.5 counts as 3), or a
    text that [int] parses to one of them. It then maps a route id to the
    fields of the last row that carries the id, with the GTFS label of the
    code read. *)
Theorem X3_RouteDict_built_iff_types_known (rt : runtime) (routelist : list route_row) :
  ((∃ RouteDict, make_RouteDict rt routelist = Ok RouteDict) ↔
   Forall (λ route,
             match r_route_type route with
             | Null => False
             | Integer z => (0 ≤ z ≤ 7)%Z
             | Real (Finite q) => (-1 < q)%Q ∧ (q < 8)%Q
             | Real _ => False
             | Text s =>
                 ∃ z, (if plain_text s then int_of_text s else unicode_int rt s) = Ok z ∧
                      (0 ≤ z ≤ 7)%Z
             end) routelist) ∧
  (∀ RouteDict id,
     make_RouteDict rt routelist = Ok RouteDict →
     RouteDict !! id =
       (λ route, make_route_info route (route_type_text_of rt route))
         <$> last (rows_with r_route_id id routelist)) ∧
  (∀ RouteDict id info,
     make_RouteDict rt routelist = Ok RouteDict → RouteDict !! id = Some info →
     ∃ z, int_of_cell rt (ri_route_type info) = Ok z ∧ (0 ≤ z ≤ 7)%Z ∧
          route_type_dict !! z = Some (ri_route_type_text info)).
Proof.
  split_and!.
  - rewrite <- (Forall_iff _ routelist _ (known_route_type_cases rt)). split.
    + intros [RouteDict Hok]. by eapply make_RouteDict_Ok_known.
    + intros Hall. unfold make_RouteDict. rewrite foldM_RouteDict_known by done. eauto.
  - intros RouteDict id. apply make_RouteDict_lookup.
  - intros RouteDict id info. apply make_RouteDict_info_known.
Qed.

(** On the feed with the route types 3.5 and " 3 " the dictionary is built,
    with the label of code 3 on both routes. *)
Lemma RouteDict_ex_db_real rt :
  ∃ RouteDict,
    make_RouteDict rt (routes ex_db_real) = Ok RouteDict ∧
    ri_route_type_text <$> RouteDict !! "R1" = Some "Bus" ∧
    ri_route_type_text <$> RouteDict !! "R2" = Some "Bus".
Proof. eexists. split; [by vm_compute|]. split; by vm_compute. Qed.

(** ** The dedup phase: when it returns, and the routes of the shapes *)

Lemma dedup_phase_Ok_iff (rt : runtime) (db : gtfs) :
  runtime_laws rt →
  (∀ T, T ∈ st_trip_id <$> stop_times db → plain_id T = true) →
  (∃ st shape_route_dict trips', dedup_phase rt db = Ok (st, shape_route_dict, trips')) ↔
  (∀ T, T ∈ st_trip_id <$> stop_times db → T ∈ tr_trip_id <$> trips db).
Proof.
  intros Hrt Hplain.
  assert (Hvis : ∀ t, t ∈ alltrips rt db → t ∈ st_trip_id <$> stop_times db).
  { intros t Ht. unfold alltrips in Ht. by apply (proj1 (select_distinct_elem _ Hrt _ _)) in Ht. }
  split.
  - intros (st & srd & trips' & Hphase) T HT.
    destruct (decide (T ∈ tr_trip_id <$> trips db)) as [|Hnot]; [done|exfalso].
    unfold dedup_phase, dedup in Hphase.
    rewrite (foldM_dedup_KeyError _ _ _ (alltrips rt db) dedup_init T) in Hphase; [done| | |].
    + intros t Ht. rewrite stop_sequence_of_plain by auto. eauto.
    + unfold alltrips. by apply (select_distinct_elem _ Hrt).
    + by apply make_trip_route_dict_None.
  - intros Hall.
    destruct (dedup_Ok_iff rt (make_trip_route_dict (trips db)) (stop_times db)
                (alltrips rt db)) as [_ [st Hst]].
    + intros t Ht. rewrite key_of_plain by auto.
      apply Hvis, Hall in Ht.
      destruct (make_trip_route_dict (trips db) !! t) eqn:Hlook; [by eexists|].
      by apply make_trip_route_dict_None in Hlook.
    + destruct (dedup_phase_returns rt db st Hrt) as (srd & trips' & ?); [|done|eauto].
      intros T HT. rewrite literal_of_plain by auto. eauto.
Qed.

(** X4: on a feed whose trip ids have no quote and no NUL in them, the dedup
    loop and the update of the trips table return exactly when every trip of
    stop_times has a row in trips. *)
Theorem X4_dedup_phase_returns_iff (rt : runtime) (db : gtfs) :
  runtime_laws rt →
  (∀ T, T ∈ st_trip_id <$> stop_times db → plain_id T = true) →
  (∃ st shape_route_dict trips', dedup_phase rt db = Ok (st, shape_route_dict, trips')) ↔
  (∀ T, T ∈ st_trip_id <$> stop_times db → T ∈ tr_trip_id <$> trips db).
Proof. apply dedup_phase_Ok_iff. Qed.

Lemma plain_ex_stop_times T :
  T ∈ st_trip_id <$> ex_stop_times → plain_id T = true.
Proof.
  cbn. intros HT.
  repeat (apply elem_of_cons in HT as [->|HT]; [done|]).
  by apply elem_of_nil in HT.
Qed.

Lemma X4_witness :
  (∃ st shape_route_dict trips',
     dedup_phase ex_rt ex_db = Ok (st, shape_route_dict, trips')) ↔
  (∀ T, T ∈ st_trip_id <$> stop_times ex_db → T ∈ tr_trip_id <$> trips ex_db).
Proof.
  apply (X4_dedup_phase_returns_iff ex_rt ex_db).
  - apply ex_rt_with_laws.
  - apply plain_ex_stop_times.
Defined.

Section ShapeRoutes.
Variable rt : runtime.
Variable trd : gmap string string.
Variable std : gmap Z (list string).
Hypothesis Hrt : runtime_laws rt.

Lemma foldM_update_trip_routes sh ts routes conn routes' conn' :
  foldM (update_trip rt trd sh) (routes, conn) ts = Ok (routes', conn') →
  ∃ rs, Forall2 (λ t r, trd !! t = Some r) ts rs ∧ routes' = routes ++ rs.
Proof.
  revert routes conn. induction ts as [|t ts IH]; intros routes conn; simpl.
  - intros [= <- <-]. exists []. by rewrite app_nil_r.
  - unfold update_trip at 1, getitem.
    destruct (trd !! t) as [r|] eqn:Hr; [|done]. simpl.
    destruct (execute_update rt conn sh t) as [conn1|]; [|done]. simpl.
    intros (rs & Hrs & ->)%IH. exists (r :: rs). split; [by constructor|].
    by rewrite <- app_assoc.
Qed.

Lemma iter_set_single (l : list string) r :
  l ≠ [] → (∀ x, x ∈ l → x = r) → iter_set rt l = [r].
Proof.
  intros Hne Hall.
  assert (Hnd := iter_set_NoDup _ Hrt l).
  assert (Hel := iter_set_elem _ Hrt l).
  assert (r ∈ l) as Hr.
  { destruct l as [|x l]; [done|]. rewrite <- (Hall x) by left. left. }
  destruct (iter_set rt l) as [|x [|y l']].
  - apply Hel in Hr. by apply elem_of_nil in Hr.
  - f_equal. apply Hall, Hel. left.
  - exfalso. assert (x = r) as -> by (apply Hall, Hel; left).
    assert (y = r) as -> by (apply Hall, Hel; right; left).
    apply NoDup_cons in Hnd as [Hnot _]. apply Hnot. left.
Qed.

Lemma update_shape_routes srd conn sh srd' conn' ts r :
  std !! sh = Some ts → ts ≠ [] → (∀ t, t ∈ ts → trd !! t = Some r) →
  update_shape rt trd std (srd, conn) sh = Ok (srd', conn') →
  srd' = <[sh := default [] (srd !! sh) ++ [r]]> srd.
Proof.
  intros Hts Hne Hall. unfold update_shape, getitem. simpl. rewrite Hts. simpl.
  destruct (foldM _ _ ts) as [[routes conn1]|] eqn:Hfold; [|done]. simpl.
  apply foldM_update_trip_routes in Hfold as (rs & Hrs & ->). simpl.
  intros [= <- _].
  rewrite (iter_set_single rs r).
  - done.
  - destruct Hrs; [done|done].
  - intros x Hx. apply list_elem_of_lookup in Hx as [i Hi].
    destruct (Forall2_lookup_r _ _ _ _ _ Hrs Hi) as (t & Ht & Htr).
    rewrite (Hall t) in Htr by (by eapply list_elem_of_lookup_2). congruence.
Qed.

Lemma foldM_update_shape_routes shapes srd conn srd' conn' :
  NoDup shapes →
  (∀ sh, sh ∈ shapes → srd !! sh = None) →
  (∀ sh, sh ∈ shapes →
     ∃ ts r, std !! sh = Some ts ∧ ts ≠ [] ∧ ∀ t, t ∈ ts → trd !! t = Some r) →
  foldM (update_shape rt trd std) (srd, conn) shapes = Ok (srd', conn') →
  (∀ sh, sh ∉ shapes → srd' !! sh = srd !! sh) ∧
  (∀ sh ts r, sh ∈ shapes → std !! sh = Some ts →
     (∀ t, t ∈ ts → trd !! t = Some r) → srd' !! sh = Some [r]).
Proof.
  revert srd conn. induction shapes as [|sh shapes IH]; intros srd conn Hnd Hnone Hall; simpl.
  - intros [= <- <-]. split; [done|]. intros sh ts r Hin. by apply elem_of_nil in Hin.
  - destruct (update_shape rt trd std (srd, conn) sh) as [[srd1 conn1]|] eqn:Hsh; [|done].
    simpl. intros Hfold.
    apply NoDup_cons in Hnd as [Hnotin Hnd].
    destruct (Hall sh) as (ts & r & Hts & Hne & Hr); [left|].
    apply (update_shape_routes _ _ _ _ _ ts r Hts Hne Hr) in Hsh.
    rewrite (Hnone sh) in Hsh by left. simpl in Hsh. subst srd1.
    apply IH in Hfold as [Hout Hin]; [|done| |].
    + split.
      * intros sh' Hnot. rewrite Hout by (intros ?; apply Hnot; by right).
        apply lookup_insert_ne. intros ->. apply Hnot. left.
      * intros sh' ts' r' [->|Hsh']%elem_of_cons Hts' Hr'.
        -- rewrite Hout by done. rewrite lookup_insert_eq.
           assert (ts' = ts) as -> by congruence.
           destruct ts as [|t ts]; [done|].
           assert (Some r' = Some r) as [= ->]; [|done].
           rewrite <- (Hr t) by left. rewrite <- (Hr' t) by left. done.
        -- by eapply Hin.
    + intros sh' Hsh'. rewrite lookup_insert_ne; [apply Hnone; by right|].
      intros ->. done.
    + intros sh' Hsh'. apply Hall. by right.
Qed.
End ShapeRoutes.

Lemma dedup_phase_shape_routes (rt : runtime) (db : gtfs) (st : dedup_state)
    (shape_route_dict : gmap Z (list string)) (trips' : list trip_row) :
  runtime_laws rt →
  dedup_phase rt db = Ok (st, shape_route_dict, trips') →
  (∀ sh, is_Some (shape_route_dict !! sh) ↔ (1 ≤ sh ≤ numshapes st)%Z) ∧
  (∀ sh, (∃ key, sequence_shape_dict st !! key = Some sh) ↔ (1 ≤ sh ≤ numshapes st)%Z) ∧
  (∀ key sh, sequence_shape_dict st !! key = Some sh →
             shape_route_dict !! sh = Some [key.1]) ∧
  (∀ key, is_Some (sequence_shape_dict st !! key) →
          ∃ row, row ∈ trips db ∧ tr_route_id row = key.1).
Proof.
  intros Hrt. unfold dedup_phase.
  destruct (dedup _ _ _ _) as [st0|] eqn:Hst; simpl; [|done].
  destruct (update_trips_table _ _ _ _) as [[srd conn]|] eqn:Hupd; simpl; [|done].
  intros [= -> -> _]. apply dedup_Ok_inv in Hst as [Hroutes Hinv].
  set (trd := make_trip_route_dict (trips db)) in *.
  set (tks := keyed rt trd (stop_times db) (alltrips rt db)) in *.
  assert (Hshape : ∀ key sh, sequence_shape_dict st !! key = Some sh →
            ∃ ts, shape_trip_dict st !! sh = Some ts ∧ ts ≠ [] ∧
                  ∀ t, t ∈ ts → trd !! t = Some key.1).
  { intros key sh Hkey.
    destruct (proj2 (inv_std_dom _ _ Hinv sh)) as [ts Hts]; [eauto|].
    exists ts. split; [done|].
    assert (Htrips : ∀ t, t ∈ ts ↔ (t, key) ∈ tks).
    { intros t. transitivity (t ∈ trips_of_shape st sh).
      { unfold trips_of_shape. by rewrite Hts. }
      rewrite (inv_std _ _ Hinv). split.
      - intros (k & Hin & Hk). by rewrite <- (inv_ssd_inj Hinv _ _ _ Hk Hkey).
      - eauto. }
    split.
    - assert (key ∈ tks.*2) as Hin by (apply (inv_ssd_dom Hinv); eauto).
      apply list_elem_of_fmap in Hin as ([t k] & -> & Hin). simpl in *.
      apply Htrips in Hin. intros ->. by apply elem_of_nil in Hin.
    - intros t Ht%Htrips. apply elem_of_keyed in Ht as [_ Hkey'].
      unfold key_of in Hkey'. destruct (stop_sequence_of _ _ _); [|done].
      destruct (trd !! t) as [r|]; [|done].
      simpl in Hkey'. by injection Hkey' as <-. }
  assert (Hiter : ∀ sh, sh ∈ iter_shape_trip_dict rt (shape_trip_dict st) ↔
                        ∃ key, sequence_shape_dict st !! key = Some sh).
  { intros sh. rewrite (iter_shape_trip_dict_keys _ Hrt), elem_of_map_to_list_keys.
    apply (inv_std_dom _ _ Hinv). }
  unfold update_trips_table in Hupd.
  apply (foldM_update_shape_routes rt trd _ Hrt) in Hupd as [Hout Hin].
  - split_and!.
    + intros sh. rewrite <- (inv_ssd_range Hinv). split.
      * intros Hsome. apply Hiter.
        destruct (decide (sh ∈ iter_shape_trip_dict rt (shape_trip_dict st))); [done|].
        rewrite Hout in Hsome by done. by destruct Hsome.
      * intros [key Hkey]. destruct (Hshape key sh Hkey) as (ts & Hts & _ & Hr).
        rewrite (Hin sh ts key.1); [eauto| |done|done]. apply Hiter. eauto.
    + intros sh. apply (inv_ssd_range Hinv).
    + intros key sh Hkey. destruct (Hshape key sh Hkey) as (ts & Hts & _ & Hr).
      apply (Hin sh ts); [|done|done]. apply Hiter. eauto.
    + intros key [sh Hkey]. destruct (Hshape key sh Hkey) as (ts & Hts & Hne & Hr).
      destruct ts as [|t ts]; [done|].
      destruct (make_trip_route_dict_Some (trips db) t key.1) as (row & ? & ? & ?);
        [apply Hr; left|eauto].
  - rewrite (iter_shape_trip_dict_keys _ Hrt). apply NoDup_fst_map_to_list.
  - done.
  - intros sh [key Hkey]%Hiter. destruct (Hshape key sh Hkey) as (ts & ? & ? & ?).
    exists ts, key.1. done.
Qed.

(** X5: after the dedup phase, shape_route_dict has an entry for each of the
    shape ids 1..numshapes and for nothing else, and the entry of a shape is
    the one-element list of the route id of its key: a shape never spans two
    routes. *)
Theorem X5_shape_route_dict_single_route (rt : runtime) (db : gtfs) (st : dedup_state)
    (shape_route_dict : gmap Z (list string)) (trips' : list trip_row) :
  runtime_laws rt →
  dedup_phase rt db = Ok (st, shape_route_dict, trips') →
  (∀ sh, is_Some (shape_route_dict !! sh) ↔ (1 ≤ sh ≤ numshapes st)%Z) ∧
  (∀ key sh, sequence_shape_dict st !! key = Some sh →
             shape_route_dict !! sh = Some [key.1]).
Proof.
  intros Hrt Hphase.
  destruct (dedup_phase_shape_routes rt db st shape_route_dict trips' Hrt Hphase)
    as (Hdom & _ & Hsingle & _).
  done.
Qed.

Lemma X5_witness :
  let '(st, shape_route_dict, trips') := dedup_phase_result ex_rt ex_db in
  (∀ sh, is_Some (shape_route_dict !! sh) ↔ (1 ≤ sh ≤ numshapes st)%Z) ∧
  (∀ key sh, sequence_shape_dict st !! key = Some sh →
             shape_route_dict !! sh = Some [key.1]).
Proof.
  destruct (dedup_phase_result ex_rt ex_db) as [[st srd] trips'] eqn:Hres.
  apply (X5_shape_route_dict_single_route ex_rt ex_db st srd trips').
  - apply ex_rt_with_laws.
  - unfold dedup_phase_result in Hres.
    destruct (dedup_phase ex_rt ex_db) as [x|] eqn:Hphase; [by subst x|].
    vm_compute in Hphase. discriminate Hphase.
Defined.

(** ** The route information written to Shapes *)

Lemma add_route_info_Ok RouteDict shape_route_dict row row' :
  add_route_info RouteDict shape_route_dict row = Ok row' →
  ∃ routesofshape route_id info,
    shape_route_dict !! sf_Name row = Some routesofshape ∧
    head routesofshape = Some route_id ∧
    RouteDict !! route_id = Some info ∧
    sf_Name row' = sf_Name row ∧
    sf_shape_id row' = Some (sf_Name row) ∧
    sf_route_id row' = Some route_id ∧
    sf_route_short_name row' = ri_route_short_name info ∧
    sf_route_long_name row' = ri_route_long_name info ∧
    sf_route_type row' = ri_route_type info ∧
    sf_route_type_text row' = Some (ri_route_type_text info).
Proof.
  unfold add_route_info, getitem.
  destruct (shape_route_dict !! sf_Name row) as [rs|]; simpl; [|done].
  destruct rs as [|route_id rs]; simpl; [done|].
  destruct (RouteDict !! route_id) as [info|] eqn:Hinfo; simpl; [|done].
  intros [= <-]. exists (route_id :: rs), route_id, info. done.
Qed.

Lemma mapR_elem_of {A B} (f : A → result B) l l' y :
  mapR f l = Ok l' → y ∈ l' → ∃ x, x ∈ l ∧ f x = Ok y.
Proof.
  intros H%mapR_Forall2 Hy. apply list_elem_of_lookup in Hy as [i Hi].
  destruct (Forall2_lookup_r _ _ _ _ _ H Hi) as (x & Hx & Hfx).
  exists x. split; [by eapply list_elem_of_lookup_2|done].
Qed.

(** X6: every row of Shapes that a run returns carries the id of a shape of
    the feed in shape_id, the route id of that shape's key in route_id, the
    names of that route, and the route_type cell of that route, which [int]
    reads as one of 0..7, with the GTFS label of that code in
    route_type_text: the code 100 and the label for unknown types never
    reach the output. *)
Theorem X6_Shapes_rows_carry_the_route_of_their_shape (rt : runtime)
    (params : parameters) (db : gtfs) (out : output) (row : shape_feature) :
  runtime_laws rt →
  RunStep1 rt params db = Ok out →
  row ∈ out_Shapes out →
  ∃ key info z,
    sequence_shape_dict_of rt db !! key = Some (sf_Name row) ∧
    RouteDict_of rt db !! key.1 = Some info ∧
    sf_shape_id row = Some (sf_Name row) ∧
    sf_route_id row = Some key.1 ∧
    sf_route_short_name row = ri_route_short_name info ∧
    sf_route_long_name row = ri_route_long_name info ∧
    sf_route_type row = ri_route_type info ∧
    int_of_cell rt (sf_route_type row) = Ok z ∧ (0 ≤ z ≤ 7)%Z ∧
    sf_route_type_text row = route_type_dict !! z.
Proof.
  intros Hrt Hrun Hrow.
  apply RunStep1_Ok in Hrun
    as (RouteDict & st & srd & trips' & fc & rows & HRD & Hphase & _ & _ & Hmap & _ & _
        & -> & ->).
  destruct (mapR_elem_of _ _ _ _ Hmap Hrow) as (row0 & _ & Hadd).
  apply add_route_info_Ok in Hadd
    as (rs & route_id & info & Hrs & Hhead & Hinfo & Hname & Hsid & Hrid & Hshort & Hlong
        & Htype & Htext).
  destruct (dedup_phase_shape_routes rt db st srd trips' Hrt Hphase)
    as (Hdom & Hrange & Hsingle & _).
  destruct (proj2 (Hrange (sf_Name row0))) as [key Hkey]; [apply Hdom; eauto|].
  rewrite (Hsingle key _ Hkey) in Hrs. injection Hrs as <-. injection Hhead as <-.
  destruct (make_RouteDict_info_known _ _ _ _ _ HRD Hinfo) as (z & Hz & Hzrange & Hztext).
  exists key, info, z. rewrite Hztext, Hname, Htype. split_and!; try done; lia.
Qed.

Lemma X6_witness :
  let row := first_shape (run_result ex_rt ex_params ex_db) in
  ∃ key info z,
    sequence_shape_dict_of ex_rt ex_db !! key = Some (sf_Name row) ∧
    RouteDict_of ex_rt ex_db !! key.1 = Some info ∧
    sf_shape_id row = Some (sf_Name row) ∧
    sf_route_id row = Some key.1 ∧
    sf_route_short_name row = ri_route_short_name info ∧
    sf_route_long_name row = ri_route_long_name info ∧
    sf_route_type row = ri_route_type info ∧
    int_of_cell ex_rt (sf_route_type row) = Ok z ∧ (0 ≤ z ≤ 7)%Z ∧
    sf_route_type_text row = route_type_dict !! z.
Proof.
  apply (X6_Shapes_rows_carry_the_route_of_their_shape ex_rt ex_params ex_db
           (run_result ex_rt ex_params ex_db)).
  - apply ex_rt_with_laws.
  - vm_compute. reflexivity.
  - vm_compute. left.
Defined.

(** ** The chunks of the street pass *)

Lemma ceil_div_bound (len n i : nat) :
  (0 < n)%nat → (i < (len + n - 1) / n)%nat → (i * n < len)%nat.
Proof.
  intros Hn Hi.
  assert (n * ((len + n - 1) / n) ≤ len + n - 1)%nat by (apply Nat.Div0.mul_div_le).
  nia.
Qed.

Lemma ceil_div_full (len n i : nat) :
  (0 < n)%nat → (S i < (len + n - 1) / n)%nat → (i * n + n ≤ len)%nat.
Proof.
  intros Hn Hi.
  assert (n * ((len + n - 1) / n) ≤ len + n - 1)%nat by (apply Nat.Div0.mul_div_le).
  nia.
Qed.

Lemma length_chunked {A} (n : nat) (l : list A) :
  length (chunked n l) = ((length l + n - 1) / n)%nat.
Proof. unfold chunked, xrange_by. by rewrite !length_fmap, length_seq. Qed.

Lemma chunked_lookup {A} (n : nat) (l : list A) i chunk :
  (0 < n)%nat → chunked n l !! i = Some chunk →
  chunk = take n (drop (i * n) l) ∧
  (1 ≤ length chunk ≤ n)%nat ∧
  (S i < length (chunked n l) → length chunk = n)%nat.
Proof.
  intros Hn Hi.
  assert (Hlt : (i < length (chunked n l))%nat) by (by eapply lookup_lt_Some).
  rewrite length_chunked in *.
  unfold chunked, xrange_by in Hi. rewrite !list_lookup_fmap in Hi.
  rewrite lookup_seq_lt in Hi by done. simpl in Hi. injection Hi as <-.
  split; [done|]. rewrite length_take, length_drop.
  assert (Hb := ceil_div_bound (length l) n i Hn Hlt).
  split; [lia|]. intros Hfull.
  assert (Hf := ceil_div_full (length l) n i Hn Hfull). lia.
Qed.

(** X8: the sequences chosen for the street pass are cut, in order, into
    chunks of exactly 100 sequences, but for the last, which holds the 1 to
    100 that remain; no chunk is empty and nothing is lost or repeated. *)
Theorem X8_street_chunks_partition (rt : runtime) (route_types_Street : list Z)
    (RouteDict : gmap string route_info) (sequence_shape_dict : gmap sequence_key Z)
    (chunks : list (list sequence_key)) :
  sequences_Streets_chunked rt route_types_Street RouteDict sequence_shape_dict = Ok chunks →
  ∃ l,
    sequences_Streets rt route_types_Street RouteDict sequence_shape_dict = Ok l ∧
    mjoin chunks = l ∧
    length chunks = ((length l + 99) / 100)%nat ∧
    ∀ i chunk, chunks !! i = Some chunk →
      chunk = take 100 (drop (i * 100) l) ∧
      (1 ≤ length chunk ≤ 100)%nat ∧
      (S i < length chunks → length chunk = 100)%nat.
Proof.
  unfold sequences_Streets_chunked.
  destruct (sequences_Streets _ _ _ _) as [l|]; simpl; [|done].
  intros [= <-]. exists l. split_and!; [done| | |].
  - apply join_chunked. unfold ChunkSize. lia.
  - rewrite length_chunked. unfold ChunkSize.
    by replace (length l + 100 - 1)%nat with (length l + 99)%nat by lia.
  - intros i chunk Hi. apply (chunked_lookup ChunkSize l i chunk); [|done].
    unfold ChunkSize. lia.
Qed.

Lemma X8_witness :
  ∃ l,
    sequences_Streets ex_rt [3%Z] (RouteDict_of ex_rt ex_db) (sequence_shape_dict_of ex_rt ex_db)
      = Ok l ∧
    mjoin (run_street_chunks ex_rt ex_params ex_db) = l ∧
    length (run_street_chunks ex_rt ex_params ex_db) = ((length l + 99) / 100)%nat ∧
    ∀ i chunk, run_street_chunks ex_rt ex_params ex_db !! i = Some chunk →
      chunk = take 100 (drop (i * 100) l) ∧
      (1 ≤ length chunk ≤ 100)%nat ∧
      (S i < length (run_street_chunks ex_rt ex_params ex_db) → length chunk = 100)%nat.
Proof.
  apply (X8_street_chunks_partition ex_rt [3%Z] (RouteDict_of ex_rt ex_db)
           (sequence_shape_dict_of ex_rt ex_db) (run_street_chunks ex_rt ex_params ex_db)).
  vm_compute. reflexivity.
Defined.

(** ** The points of Stops_wShapeIDs *)

Section PointPositions.
Variable rt : runtime.
Variable CurbApproach : Z.
Variable stoplatlon_dict : gmap string (Q * Q).

Lemma elem_of_street_rows_position sh n stops pt :
  pt ∈ street_rows rt CurbApproach stoplatlon_dict sh n stops →
  ∃ i : nat,
    stops !! i = Some (pt_stop_id pt) ∧
    pt_sequence pt = (n + Z.of_nat i)%Z ∧
    stoplatlon_dict !! pt_stop_id pt = Some (pt_Y pt, pt_X pt) ∧
    is_Some (pt_locfields pt) ∧
    pt_locfields pt = stoplocfielddict rt !! pt_stop_id pt.
Proof.
  revert n. induction stops as [|stop stops IH]; intros n; simpl.
  - by intros ?%elem_of_nil.
  - intros [Hpt|Hpt]%elem_of_app.
    + destruct (stoplatlon_dict !! stop) as [[stop_lat stop_lon]|] eqn:Hll;
        [destruct (stoplocfielddict rt !! stop) as [loc|] eqn:Hloc|].
      * apply list_elem_of_singleton in Hpt as ->. exists 0%nat. simpl.
        split_and!; [done|lia|done|eauto|done].
      * by apply elem_of_nil in Hpt.
      * by apply elem_of_nil in Hpt.
    + apply IH in Hpt as (i & Hi & Hseq & Hrest). exists (S i).
      split_and!; [done|lia|apply Hrest..].
Qed.

Lemma elem_of_straight_rows_position sh n stops pt :
  pt ∈ straight_rows CurbApproach stoplatlon_dict sh n stops →
  ∃ i : nat,
    stops !! i = Some (pt_stop_id pt) ∧
    pt_sequence pt = (n + Z.of_nat i)%Z ∧
    stoplatlon_dict !! pt_stop_id pt = Some (pt_Y pt, pt_X pt) ∧
    pt_locfields pt = None.
Proof.
  revert n. induction stops as [|stop stops IH]; intros n; simpl.
  - by intros ?%elem_of_nil.
  - intros [Hpt|Hpt]%elem_of_app.
    + destruct (stoplatlon_dict !! stop) as [[stop_lat stop_lon]|] eqn:Hll.
      * apply list_elem_of_singleton in Hpt as ->. exists 0%nat. simpl.
        split_and!; [done|lia|done|done].
      * by apply elem_of_nil in Hpt.
    + apply IH in Hpt as (i & Hi & Hseq & Hrest). exists (S i).
      split_and!; [done|lia|apply Hrest..].
Qed.
End PointPositions.

(** X9: every point of Stops_wShapeIDs is a stop of the sequence of its
    shape: its sequence number is the position of the stop in that sequence,
    counted from 1 and counting the stops that were skipped, and its X and Y
    are the stop_lon and stop_lat that stops holds for the stop. *)
Theorem X9_points_are_stops_of_their_shape (rt : runtime) (params : parameters)
    (db : gtfs) (out : output) (pt : seq_point) :
  runtime_laws rt →
  RunStep1 rt params db = Ok out →
  pt ∈ out_Stops_wShapeIDs out →
  ∃ (key : sequence_key) (i : nat),
    sequence_shape_dict_of rt db !! key = Some (pt_shape_id pt) ∧
    key.2 !! i = Some (pt_stop_id pt) ∧
    pt_sequence pt = (Z.of_nat i + 1)%Z ∧
    make_stoplatlon_dict (stops db) !! pt_stop_id pt = Some (pt_Y pt, pt_X pt).
Proof.
  intros Hrt Hrun Hpt.
  apply RunStep1_Ok in Hrun
    as (RouteDict & st & srd & trips' & fc & rows & _ & Hphase & Hgen & _ & _ & Hpts & _
        & _ & Hssd).
  rewrite Hssd. rewrite Hpts in Hpt.
  apply generate_shapes_Ok in Hgen as (_ & Hfc & _). rewrite Hfc in Hpt.
  assert (Hinj : ∀ k1 k2 sh, sequence_shape_dict st !! k1 = Some sh →
                   sequence_shape_dict st !! k2 = Some sh → k1 = k2).
  { intros k1 k2 sh. by eapply dedup_phase_inj. }
  assert (Hshape : ∀ key, key ∈ iter_sequence_shape_dict rt (sequence_shape_dict st) →
            sequence_shape_dict st !! key =
              Some (shape_of_sequence (sequence_shape_dict st) key)).
  { intros key [sh Hsh]%(elem_of_iter rt _ Hrt). unfold shape_of_sequence.
    by rewrite Hsh. }
  apply elem_of_app in Hpt as [Hpt|Hpt].
  - unfold street_saved_points in Hpt.
    apply list_elem_of_bind in Hpt as (chunk & Hpt & Hchunk).
    unfold chunk_saved_points in Hpt.
    destruct (Solve rt _); [by apply elem_of_nil in Hpt|].
    unfold chunk_points in Hpt. apply list_elem_of_bind in Hpt as (key & Hpt & Hkey).
    destruct (elem_of_street_chunks _ _ _ _ _ _ Hchunk Hkey) as (_ & Hiter & _).
    assert (Hsh := proj1 (elem_of_street_rows _ _ _ _ _ _ _ Hpt)).
    apply elem_of_street_rows_position in Hpt as (i & Hi & Hseq & Hll & _).
    exists key, i. rewrite Hsh. split_and!; [by apply Hshape|done|lia|done].
  - unfold straight_points in Hpt.
    apply list_elem_of_bind in Hpt as (key & Hpt & Hkey).
    apply elem_of_straight_sequences in Hkey as [Hiter _].
    assert (Hsh := proj1 (elem_of_straight_rows _ _ _ _ _ _ Hpt)).
    apply elem_of_straight_rows_position in Hpt as (i & Hi & Hseq & Hll & _).
    exists key, i. rewrite Hsh. split_and!; [by apply Hshape|done|lia|done].
Qed.

Lemma X9_witness :
  let pt := first_point (run_result ex_rt ex_params ex_db) in
  ∃ (key : sequence_key) (i : nat),
    sequence_shape_dict_of ex_rt ex_db !! key = Some (pt_shape_id pt) ∧
    key.2 !! i = Some (pt_stop_id pt) ∧
    pt_sequence pt = (Z.of_nat i + 1)%Z ∧
    make_stoplatlon_dict (stops ex_db) !! pt_stop_id pt = Some (pt_Y pt, pt_X pt).
Proof.
  apply (X9_points_are_stops_of_their_shape ex_rt ex_params ex_db
           (run_result ex_rt ex_params ex_db)).
  - apply ex_rt_with_laws.
  - vm_compute. reflexivity.
  - vm_compute. left.
Defined.

(** ** A run that draws straight lines only *)

Lemma foldM_total {A B} (f : B → A → result B) l b :
  (∀ b x, x ∈ l → ∃ b', f b x = Ok b') → ∃ b', foldM f b l = Ok b'.
Proof.
  revert b. induction l as [|x l IH]; intros b Hall; simpl; [eauto|].
  destruct (Hall b x) as [b1 ->]; [left|]. simpl.
  apply IH. intros b' y Hy. apply Hall. by right.
Qed.

Lemma mapR_total {A B} (f : A → result B) l :
  (∀ x, x ∈ l → ∃ y, f x = Ok y) → ∃ l', mapR f l = Ok l'.
Proof.
  induction l as [|x l IH]; intros Hall; simpl; [eauto|].
  destruct (Hall x) as [y ->]; [left|]. simpl.
  destruct IH as [l' ->]; [|simpl; eauto].
  intros x' Hx'. apply Hall. by right.
Qed.

Lemma straight_array_vertices stoplatlon_dict stops :
  straight_array stoplatlon_dict stops = omap (vertex_of stoplatlon_dict) stops.
Proof.
  induction stops as [|stop stops IH]; simpl; [done|].
  unfold vertex_of at 1.
  destruct (stoplatlon_dict !! stop) as [[stop_lat stop_lon]|]; simpl; by rewrite IH.
Qed.

Section StraightPass.
Variable rt : runtime.
Variable route_types_Straight : list Z.
Variable CurbApproach : Z.
Variable stoplatlon_dict : gmap string (Q * Q).
Variable RouteDict : gmap string route_info.
Variable sequence_shape_dict : gmap sequence_key Z.

Local Abbreviation straight_sequence' :=
  (straight_sequence route_types_Straight CurbApproach stoplatlon_dict RouteDict
     sequence_shape_dict).

Lemma straight_sequence_Ok_keys NRG s (sequence : sequence_key) s' :
  straight_sequence' NRG s sequence = Ok s' →
  is_Some (sequence_shape_dict !! sequence) ∧ is_Some (RouteDict !! sequence.1).
Proof.
  destruct s as [[shapes rows] bad]. unfold straight_sequence, route_type_of, getitem.
  destruct (sequence_shape_dict !! sequence) as [sh|]; simpl; [|done].
  destruct (RouteDict !! sequence.1) as [info|]; simpl; [|done]. eauto.
Qed.

Lemma straight_sequence_total NRG s (sequence : sequence_key) :
  is_Some (sequence_shape_dict !! sequence) → is_Some (RouteDict !! sequence.1) →
  ∃ s', straight_sequence' NRG s sequence = Ok s'.
Proof.
  intros [sh Hsh] [info Hinfo]. destruct s as [[shapes rows] bad].
  unfold straight_sequence, route_type_of, getitem. rewrite Hsh, Hinfo. simpl.
  destruct (_ || _); [|eauto].
  destruct (foldl _ _ _) as [[[rows' array] bad'] n]. eauto.
Qed.

Lemma foldM_straight_sequence_keys NRG keys s s' :
  foldM (straight_sequence' NRG) s keys = Ok s' →
  ∀ sequence, sequence ∈ keys →
    is_Some (sequence_shape_dict !! sequence) ∧ is_Some (RouteDict !! sequence.1).
Proof.
  revert s. induction keys as [|key keys IH]; intros s Hfold sequence Hin.
  - by apply elem_of_nil in Hin.
  - rewrite foldM_cons in Hfold.
    destruct (straight_sequence' NRG s key) as [s1|] eqn:Hkey; simpl in Hfold; [|done].
    apply elem_of_cons in Hin as [->|Hin].
    + by eapply straight_sequence_Ok_keys.
    + by eapply IH.
Qed.

Lemma Generate_Shapes_Straight_keys Created st st' :
  Generate_Shapes_Straight rt route_types_Straight CurbApproach stoplatlon_dict RouteDict
    sequence_shape_dict Created st = Ok st' →
  ∀ sequence, sequence ∈ iter_sequence_shape_dict rt sequence_shape_dict →
    is_Some (RouteDict !! sequence.1).
Proof.
  unfold Generate_Shapes_Straight.
  destruct (foldM _ _ _) as [x|] eqn:Hfold; simpl; [|done].
  intros _ sequence Hin. by eapply foldM_straight_sequence_keys.
Qed.

Lemma Generate_Shapes_Straight_total Created st :
  runtime_laws rt →
  (∀ sequence, is_Some (sequence_shape_dict !! sequence) →
               is_Some (RouteDict !! sequence.1)) →
  ∃ st', Generate_Shapes_Straight rt route_types_Straight CurbApproach stoplatlon_dict
           RouteDict sequence_shape_dict Created st = Ok st' ∧
         is_Some (outRoutesfc st').
Proof.
  intros Hrt Hroutes. unfold Generate_Shapes_Straight.
  edestruct (foldM_total (straight_sequence' (NoRouteGenerated st))
               (iter_sequence_shape_dict rt sequence_shape_dict) ([], [], []))
    as [[[shapes rows] bad] ->].
  - intros s sequence Hin%(elem_of_iter _ _ Hrt).
    apply straight_sequence_total; auto.
  - simpl. eexists. split; [done|]. simpl. eauto.
Qed.
End StraightPass.

Lemma straight_only_run rt params db out :
  route_types_Street params = [] →
  RunStep1 rt params db = Ok out →
  route_types_Straight params ≠ [] ∧
  ∀ sequence, sequence ∈ iter_sequence_shape_dict rt (sequence_shape_dict_of rt db) →
    is_Some (RouteDict_of rt db !! sequence.1).
Proof.
  intros Hstreet Hrun.
  apply RunStep1_Ok in Hrun
    as (RouteDict & st & srd & trips' & fc & rows & _ & _ & Hgen & Hrows & _ & _ & _
        & -> & ->).
  rewrite generate_shapes_eq in Hgen. cbv zeta in Hgen.
  rewrite decide_True in Hgen by done. simpl in Hgen.
  case_decide as Hstraight.
  - injection Hgen as <-. done.
  - split; [naive_solver|]. by eapply Generate_Shapes_Straight_keys.
Qed.

(** X10: when no street type is chosen, a run that returns has drawn, for a
    shape whose route type is among the straight-line types, exactly one
    line, through the (stop_lon, stop_lat) of the stops of its sequence that
    stops holds, in the order of the sequence and leaving out the others;
    the remaining shapes have no geometry. *)
Theorem X10_straight_only_run_geometries (rt : runtime) (params : parameters)
    (db : gtfs) (out : output) (key : sequence_key) (sh : Z) :
  runtime_laws rt →
  route_types_Street params = [] →
  RunStep1 rt params db = Ok out →
  sequence_shape_dict_of rt db !! key = Some sh →
  ∃ info,
    RouteDict_of rt db !! key.1 = Some info ∧
    shape_geometries (out_Shapes out) sh =
      if route_type_in (ri_route_type info) (route_types_Straight params)
      then [StraightLine (omap (vertex_of (make_stoplatlon_dict (stops db))) key.2)]
      else [].
Proof.
  intros Hrt Hstreet Hrun Hkey.
  destruct (straight_only_run rt params db out Hstreet Hrun) as [Hstraight Hroutes].
  rewrite (RunStep1_geometries rt params db out sh Hrun).
  assert (Hinj : ∀ k1 k2 sh', sequence_shape_dict_of rt db !! k1 = Some sh' →
                   sequence_shape_dict_of rt db !! k2 = Some sh' → k1 = k2).
  { apply RunStep1_Ok in Hrun
      as (RouteDict & st & srd & trips' & fc & rows & _ & Hphase & _ & _ & _ & _ & _
          & _ & ->).
    intros k1 k2 sh'. by eapply dedup_phase_inj. }
  assert (Hiter : key ∈ iter_sequence_shape_dict rt (sequence_shape_dict_of rt db)).
  { apply (elem_of_iter _ _ Hrt). eauto. }
  destruct (Hroutes key Hiter) as [info Hinfo]. exists info. split; [done|].
  assert (Hsh : shape_of_sequence (sequence_shape_dict_of rt db) key = sh).
  { unfold shape_of_sequence. by rewrite Hkey. }
  unfold street_features, straight_features.
  rewrite straight_sequences_eq. unfold final_NoRouteGenerated.
  rewrite street_chunks_eq, Hstreet. simpl.
  rewrite decide_False by naive_solver.
  set (selected := straight_selected (route_types_Straight params) (RouteDict_of rt db)
                     (sequence_shape_dict_of rt db) []).
  assert (Hsel : selected key =
                   route_type_in (ri_route_type info) (route_types_Straight params)).
  { unfold selected, straight_selected. rewrite Hinfo. simpl. apply orb_false_r. }
  destruct (route_type_in (ri_route_type info) (route_types_Straight params)).
  - unfold shape_geometries. rewrite omap_fmap_compose.
    apply (omap_unique _ _ key).
    + apply list_elem_of_filter. split; [by rewrite Hsel|done].
    + simpl. rewrite Hsh, decide_True by done. by rewrite straight_array_vertices.
    + intros k' [_ Hk']%list_elem_of_filter Hne. simpl. rewrite decide_False; [done|].
      intros Heq. apply Hne. apply (shape_of_inj _ _ Hrt Hinj); [done|done|congruence].
    + apply NoDup_filter, (NoDup_iter _ _ Hrt).
  - apply shape_geometries_nil. rewrite <- list_fmap_compose.
    intros (k' & Heq & [Hk'sel Hk']%list_elem_of_filter)%list_elem_of_fmap.
    simpl in Heq.
    assert (k' = key) as -> by (apply (shape_of_inj _ _ Hrt Hinj); [done|done|congruence]).
    by rewrite Hsel in Hk'sel.
Qed.

Lemma X10_witness :
  ∃ info,
    RouteDict_of ex_rt ex_db !! "R1" = Some info ∧
    shape_geometries (out_Shapes (run_result ex_rt ex_params_straight ex_db)) 1 =
      if route_type_in (ri_route_type info) (route_types_Straight ex_params_straight)
      then [StraightLine (omap (vertex_of (make_stoplatlon_dict (stops ex_db)))
                               ["S1"; "S2"])]
      else [].
Proof.
  apply (X10_straight_only_run_geometries ex_rt ex_params_straight ex_db
           (run_result ex_rt ex_params_straight ex_db) ("R1", ["S1"; "S2"]) 1).
  - apply ex_rt_with_laws.
  - reflexivity.
  - vm_compute. reflexivity.
  - vm_compute. reflexivity.
Defined.

(** ** The lists in the warnings of the street pass *)

Lemma Sorted_insert_sorted {A} (le : A → A → bool) (R : relation A) x l :
  (∀ a b, le a b = true → R a b) →
  (∀ a b, le a b = false → R b a) →
  Sorted R l → Sorted R (insert_sorted le x l).
Proof.
  intros Hle Hgt. induction 1 as [|y l Hl IH Hy]; simpl.
  - by repeat constructor.
  - destruct (le x y) eqn:Hxy.
    + constructor; [by constructor|]. constructor. by apply Hle.
    + constructor; [done|].
      destruct Hy as [|z l Hyz]; simpl.
      * constructor. by apply Hgt.
      * destruct (le x z); constructor; [by apply Hgt|done].
Qed.

Lemma Sorted_sorted {A} (le : A → A → bool) (R : relation A) l :
  (∀ a b, le a b = true → R a b) →
  (∀ a b, le a b = false → R b a) →
  Sorted R (sorted le l).
Proof.
  intros Hle Hgt. induction l as [|x l IH]; [constructor|].
  unfold sorted in *. simpl. by apply Sorted_insert_sorted.
Qed.

(** X12: the lists that the warnings closing the street pass carry are in
    ascending order: the shape ids without a street route, with the
    repetitions they had, and the stop ids missing from stops or from the
    located stops, each of them once. *)
Theorem X12_street_warnings_lists_sorted (rt : runtime) (st : street_state) (w : warning) :
  runtime_laws rt →
  w ∈ street_warnings rt st →
  match w with
  | WarnShapeIds shape_ids =>
      shape_ids ≡ₚ NoRouteGenerated (fc st) ∧ Sorted Z.le shape_ids
  | WarnTextStops text stop_ids =>
      text = msg_bad_stops ∧
      NoDup stop_ids ∧ (∀ stop, stop ∈ stop_ids ↔ stop ∈ badStops st) ∧
      Sorted (λ a b, String.leb a b = true) stop_ids
  | WarnText _ => True
  end.
Proof.
  intros Hrt. unfold street_warnings.
  rewrite !elem_of_app. intros [Hw|[Hw|Hw]].
  - destruct (NoRouteGenerated (fc st)) as [|z zs] eqn:Hn; [by apply elem_of_nil in Hw|].
    rewrite <- Hn in Hw |- *. clear Hn.
    repeat (apply elem_of_cons in Hw as [->|Hw]; [try done|]).
    + split; [apply sorted_Permutation|].
      apply Sorted_sorted; intros a b; [apply Z.leb_le|rewrite Z.leb_gt; lia].
    + by apply elem_of_nil in Hw.
  - destruct (badStops st) as [|s ss] eqn:Hb; [by apply elem_of_nil in Hw|].
    rewrite <- Hb in Hw |- *. clear Hb. apply list_elem_of_singleton in Hw as ->.
    split_and!; [done| | |].
    + rewrite sorted_Permutation. apply (iter_set_NoDup _ Hrt).
    + intros stop. rewrite sorted_Permutation. apply (iter_set_elem _ Hrt).
    + apply Sorted_sorted; [done|]. intros a b Hab.
      by destruct (String.leb_total a b) as [Heq|Heq]; [congruence|].
  - destruct (unlocated_stops st); [by apply elem_of_nil in Hw|].
    by apply list_elem_of_singleton in Hw as ->.
Qed.

Lemma X12_witness :
  msg_bad_stops = msg_bad_stops ∧
  NoDup ["a"; "b"] ∧ (∀ stop, stop ∈ ["a"; "b"] ↔ stop ∈ badStops ex_street_state) ∧
  Sorted (λ a b, String.leb a b = true) ["a"; "b"].
Proof.
  apply (X12_street_warnings_lists_sorted ex_rt ex_street_state
           (WarnTextStops msg_bad_stops ["a"; "b"])).
  - apply ex_rt_with_laws.
  - vm_compute. right. right. right. left.
Defined.

(** ** Strings as lists of characters *)

Lemma chars_inj s1 s2 : chars s1 = chars s2 → s1 = s2.
Proof.
  intros H. rewrite <- (string_of_list_ascii_of_string s1),
    <- (string_of_list_ascii_of_string s2). unfold chars in H. by rewrite H.
Qed.

Lemma chars_app s1 s2 : chars (s1 +:+ s2) = chars s1 ++ chars s2.
Proof. induction s1 as [|c s1 IH]; simpl; [done|]. by rewrite IH. Qed.

Lemma chars_rev_app s acc : chars (String.rev_app s acc) = reverse (chars s) ++ chars acc.
Proof.
  revert acc. induction s as [|c s IH]; intros acc; simpl; [done|].
  rewrite IH, reverse_cons, <- app_assoc. done.
Qed.

Lemma chars_rev s : chars (String.rev s) = reverse (chars s).
Proof. unfold String.rev. rewrite chars_rev_app. simpl. by rewrite app_nil_r. Qed.

Lemma rev_involutive s : String.rev (String.rev s) = s.
Proof. apply chars_inj. by rewrite !chars_rev, reverse_involutive. Qed.

Lemma app_assoc_string s1 s2 s3 : s1 +:+ (s2 +:+ s3) = (s1 +:+ s2) +:+ s3.
Proof. apply chars_inj. by rewrite !chars_app, app_assoc. Qed.

Lemma length_chars s : length (chars s) = String.length s.
Proof. induction s as [|c s IH]; simpl; [done|]. by rewrite IH. Qed.

Lemma length_app_string s1 s2 :
  String.length (s1 +:+ s2) = (String.length s1 + String.length s2)%nat.
Proof. by rewrite <- !length_chars, chars_app, length_app. Qed.

(** ** Decimal text of an integer and [int] *)

Lemma digits_value_chars acc s : digits_value acc s = digits_value_list acc (chars s).
Proof.
  revert acc. induction s as [|c s IH]; intros acc; simpl; [done|].
  destruct (digit_of c); [apply IH|done].
Qed.

Lemma digits_value_list_app acc l1 l2 :
  digits_value_list acc (l1 ++ l2) =
    digits_value_list acc l1 ≫= λ acc', digits_value_list acc' l2.
Proof.
  revert acc. induction l1 as [|c l1 IH]; intros acc; simpl; [done|].
  destruct (digit_of c); [apply IH|done].
Qed.

Lemma digit_of_pretty_N_char (d : N) :
  (d < 10)%N → digit_of (pretty_N_char d) = Some (Z.of_N d).
Proof.
  intros Hd.
  assert (d = 0 ∨ d = 1 ∨ d = 2 ∨ d = 3 ∨ d = 4 ∨ d = 5 ∨ d = 6 ∨ d = 7 ∨ d = 8 ∨ d = 9)%N
    as Hcases by lia.
  destruct_or!; subst d; reflexivity.
Qed.

Lemma digit_of_Some c d :
  digit_of c = Some d → (48 ≤ nat_of_ascii c ≤ 57)%nat.
Proof.
  unfold digit_of.
  destruct (48 <=? nat_of_ascii c)%nat eqn:H1; simpl; [|done].
  destruct (nat_of_ascii c <=? 57)%nat eqn:H2; simpl; [|done].
  apply Nat.leb_le in H1, H2. done.
Qed.

(** The digits that [pretty] writes for a natural number. *)
Lemma pretty_N_go_digits (x : N) :
  ∃ ds, (∀ s, chars (pretty_N_go x s) = ds ++ chars s) ∧
        digits_value_list 0 ds = Some (Z.of_N x) ∧
        Forall (λ c, is_Some (digit_of c)) ds ∧
        ((0 < x)%N → ds ≠ []).
Proof.
  induction x as [x IH] using (well_founded_ind N.lt_wf_0).
  destruct (decide (x = 0%N)) as [->|Hx].
  - exists []. split_and!; [|done|constructor|lia].
    intros s. by rewrite pretty_N_go_0.
  - destruct (IH (x `div` 10)%N) as (ds & Hds & Hval & Hdig & _).
    { apply N.div_lt; lia. }
    assert (Hd : digit_of (pretty_N_char (x `mod` 10)) = Some (Z.of_N (x `mod` 10))).
    { apply digit_of_pretty_N_char. apply N.mod_lt. lia. }
    exists (ds ++ [pretty_N_char (x `mod` 10)]). split_and!.
    + intros s. rewrite pretty_N_go_step by lia. rewrite Hds. simpl.
      by rewrite <- app_assoc.
    + rewrite digits_value_list_app, Hval. simpl. rewrite Hd. f_equal.
      rewrite (N.div_mod x 10) at 3 by lia. lia.
    + apply Forall_app. split; [done|]. constructor; [|constructor]. by rewrite Hd.
    + intros _ Hnil. by apply app_eq_nil in Hnil as [_ ?].
Qed.

Lemma pretty_N_digits (x : N) :
  ∃ c ds, chars (pretty x) = c :: ds ∧
          digits_value_list 0 (c :: ds) = Some (Z.of_N x) ∧
          Forall (λ c, is_Some (digit_of c)) (c :: ds).
Proof.
  unfold pretty, pretty_N. case_decide as Hx.
  - subst x. exists "0"%char, []. split_and!; [done|done|].
    constructor; [by eexists|constructor].
  - destruct (pretty_N_go_digits x) as (ds & Hds & Hval & Hdig & Hne).
    rewrite Hds. simpl. rewrite app_nil_r.
    destruct ds as [|c ds]; [by destruct Hne; [lia|]|].
    by exists c, ds.
Qed.

Lemma lstrip_no_space s :
  Forall (λ c, is_space c = false) (chars s) → lstrip s = s.
Proof. destruct s as [|c s]; simpl; [done|]. intros [-> _]%Forall_cons. done. Qed.

Lemma strip_no_space s :
  Forall (λ c, is_space c = false) (chars s) → strip s = s.
Proof.
  intros Hs. unfold strip. rewrite (lstrip_no_space s Hs).
  rewrite lstrip_no_space; [apply rev_involutive|].
  rewrite chars_rev. by apply Forall_reverse.
Qed.

Lemma digit_not_space c : is_Some (digit_of c) → is_space c = false.
Proof.
  intros [d Hd%digit_of_Some]. unfold is_space.
  destruct (Nat.eqb_spec (nat_of_ascii c) 32); [lia|].
  destruct (Nat.leb_spec 9 (nat_of_ascii c)); [|done].
  destruct (Nat.leb_spec (nat_of_ascii c) 13); [lia|done].
Qed.

Lemma digit_not_char c (x : ascii) :
  is_Some (digit_of c) → (nat_of_ascii x < 48 ∨ 57 < nat_of_ascii x)%nat → c ≠ x.
Proof. intros [d Hd%digit_of_Some] Hx ->. lia. Qed.

Lemma int_of_text_unsigned s c d :
  strip s = String c d → c ≠ "-"%char → c ≠ "+"%char →
  int_of_text s =
    match digits_value 0 (String c d) with
    | Some z => Ok z
    | None => Raise ValueError
    end.
Proof.
  intros Hstrip Hminus Hplus. unfold int_of_text. rewrite Hstrip.
  destruct c as [[] [] [] [] [] [] [] []]; done.
Qed.

Lemma int_of_text_digits s c ds z :
  chars s = c :: ds → Forall (λ c, is_Some (digit_of c)) (c :: ds) →
  digits_value_list 0 (c :: ds) = Some z →
  int_of_text s = Ok z.
Proof.
  intros Hs Hdig Hval. destruct s as [|c' d]; [done|]. injection Hs as -> Hd.
  rewrite (int_of_text_unsigned _ c d).
  - rewrite digits_value_chars. unfold chars at 1. simpl. fold (chars d).
    rewrite Hd. simpl in Hval. by rewrite Hval.
  - apply strip_no_space. unfold chars. simpl. fold (chars d). rewrite Hd.
    eapply Forall_impl; [exact Hdig|]. apply digit_not_space.
  - apply digit_not_char; [by apply Forall_cons in Hdig as [? _]|]. vm_compute. lia.
  - apply digit_not_char; [by apply Forall_cons in Hdig as [? _]|]. vm_compute. lia.
Qed.

Lemma int_of_text_minus_digits s c ds z :
  chars s = "-"%char :: c :: ds → Forall (λ c, is_Some (digit_of c)) (c :: ds) →
  digits_value_list 0 (c :: ds) = Some z →
  int_of_text s = Ok (- z)%Z.
Proof.
  intros Hs Hdig Hval. destruct s as [|c' d]; [done|]. injection Hs as -> Hd.
  unfold int_of_text. rewrite strip_no_space.
  - destruct d as [|c'' d']; [done|]. injection Hd as -> Hd'.
    rewrite digits_value_chars. unfold chars at 1. simpl. fold (chars d').
    rewrite Hd'. simpl in Hval. by rewrite Hval.
  - unfold chars. simpl. fold (chars d). rewrite Hd. constructor; [done|].
    eapply Forall_impl; [exact Hdig|]. apply digit_not_space.
Qed.

(** The characters of the decimal text of an integer: an optional minus
    sign, then digits. *)
Lemma pretty_Z_chars (z : Z) :
  ∃ c ds, Forall (λ c, is_Some (digit_of c)) (c :: ds) ∧
          digits_value_list 0 (c :: ds) = Some (Z.abs z) ∧
          chars (pretty z) = if decide (z < 0)%Z then "-"%char :: c :: ds else c :: ds.
Proof.
  destruct z as [|p|p].
  - exists "0"%char, []. split_and!; [|done|done]. constructor; [by eexists|constructor].
  - destruct (pretty_N_digits (N.pos p)) as (c & ds & Hc & Hval & Hdig).
    exists c, ds. split_and!; [done|done|]. rewrite decide_False by lia. done.
  - destruct (pretty_N_digits (N.pos p)) as (c & ds & Hc & Hval & Hdig).
    exists c, ds. split_and!; [done|done|]. rewrite decide_True by lia.
    change (pretty (Z.neg p)) with ("-" +:+ pretty (N.pos p)).
    rewrite chars_app, Hc. done.
Qed.

Lemma int_of_text_pretty (z : Z) : int_of_text (pretty z) = Ok z.
Proof.
  destruct (pretty_Z_chars z) as (c & ds & Hdig & Hval & Hchars).
  case_decide as Hz.
  - rewrite (int_of_text_minus_digits _ c ds (Z.abs z)); [f_equal; lia|done..].
  - rewrite (int_of_text_digits _ c ds (Z.abs z)); [f_equal; lia|done..].
Qed.

(** ** Reading a shape id off a warning of the solver *)

Lemma app_empty_r s : s +:+ "" = s.
Proof. apply chars_inj. rewrite chars_app. simpl. by rewrite app_nil_r. Qed.

Lemma substring_0_short n s :
  (String.length s ≤ n)%nat → substring 0 n s = s.
Proof.
  revert s. induction n as [|n IH]; intros [|c s] Hle; simpl in *.
  - done.
  - lia.
  - done.
  - f_equal. apply IH. lia.
Qed.

Lemma findall_quoted_group s g rest :
  g ≠ "" → Forall (λ c, c ≠ "034"%char) (chars s) →
  findall_quoted_from (Some g) (s +:+ String "034" rest) =
    (g +:+ s) :: findall_quoted_from None rest.
Proof.
  revert g. induction s as [|c s IH]; intros g Hg Hs.
  - destruct g as [|c0 g0]; [done|]. simpl. by rewrite app_empty_r.
  - apply Forall_cons in Hs as [Hc Hs]. fold (chars s) in Hs.
    destruct g as [|c0 g0]; [done|].
    change (String c s +:+ String "034" rest) with (String c (s +:+ String "034" rest)).
    cbn [findall_quoted_from].
    destruct (Ascii.eqb_spec c "034"%char) as [->|_]; [done|].
    rewrite IH; [|done|done].
    f_equal. apply chars_inj. rewrite !chars_app. simpl.
    by rewrite <- app_assoc.
Qed.

Lemma findall_quoted_open c s rest :
  Forall (λ c, c ≠ "034"%char) (chars s) →
  findall_quoted_from (Some "") (String c s +:+ String "034" rest) =
    String c s :: findall_quoted_from None rest.
Proof.
  intros Hs.
  change (String c s +:+ String "034" rest) with (String c (s +:+ String "034" rest)).
  cbn [findall_quoted_from].
  by rewrite findall_quoted_group.
Qed.

Lemma pretty_Z_no_quote (z : Z) :
  ∃ c s, pretty z = String c s ∧ Forall (λ c, c ≠ "034"%char) (chars s).
Proof.
  destruct (pretty_Z_chars z) as (c & ds & Hdig & _ & Hchars).
  assert (Hq : Forall (λ c, c ≠ "034"%char) (c :: ds)).
  { eapply Forall_impl; [exact Hdig|]. intros x Hx. apply digit_not_char; [done|].
    vm_compute. lia. }
  destruct (pretty z) as [|c' s'] eqn:Hp; [by case_decide|].
  exists c', s'. split; [done|]. unfold chars in Hchars. simpl in Hchars.
  case_decide; injection Hchars as -> Hs'; unfold chars; rewrite Hs'; [done|].
  by apply Forall_cons in Hq as [_ ?].
Qed.

(** X13: a warning line of the solver that starts with [No route for ] and
    then names a shape id between double quotes, as [str] writes it, adds
    that very shape id to NoRouteGenerated, whatever follows on the line,
    and leaves the list of unlocated stops as it is. *)
Theorem X13_no_route_warning_names_its_shape (NoRouteGenerated : list Z)
    (unlocated_stops : list string) (sh : Z) (rest : string) :
  read_warning (NoRouteGenerated, unlocated_stops)
               ("No route for " +:+ quoted (pretty sh) +:+ rest) =
    Ok (NoRouteGenerated ++ [sh], unlocated_stops).
Proof.
  unfold read_warning, quoted.
  destruct (pretty_Z_no_quote sh) as (c & s & Hp & Hs).
  assert (Hfind : findall_quoted
            ("No route for " +:+ String "034" (pretty sh +:+ String "034" "") +:+ rest) =
            pretty sh :: findall_quoted_from None rest).
  { unfold findall_quoted.
    repeat (rewrite ?String_app, ?empty_app, <- ?app_assoc_string).
    cbn [findall_quoted_from Ascii.eqb Bool.eqb].
    rewrite Hp. by apply findall_quoted_open. }
  rewrite Hfind. unfold re_match_No_route_for.
  rewrite !String_app, !empty_app. simpl. by rewrite int_of_text_pretty.
Qed.

(** ** The route type inputs *)

Lemma split_skip_nonempty sep k s : split_skip sep k s ≠ [].
Proof.
  revert k. induction s as [|c s IH]; intros k; [done|].
  destruct k as [|k]; cbn [split_skip]; [|apply IH].
  destruct (String.prefix sep (String c s)); [done|].
  by destruct (split_skip sep 0 s).
Qed.

Lemma prefix_empty t : String.prefix "" t = true.
Proof. by destruct t. Qed.

Lemma prefix_app s t : String.prefix s (s +:+ t) = true.
Proof.
  induction s as [|c s IH]; [apply prefix_empty|].
  rewrite String_app. simpl. by destruct (ascii_dec c c).
Qed.

Lemma py_split_char_sep ch s :
  py_split (String ch "") (String ch s) = "" :: py_split (String ch "") s.
Proof.
  unfold py_split. cbn [split_skip]. simpl.
  destruct (ascii_dec ch ch); [|done]. by rewrite prefix_empty.
Qed.

Lemma py_split_char_other ch c s :
  c ≠ ch →
  py_split (String ch "") (String c s) =
    match py_split (String ch "") s with
    | w :: ws => String c w :: ws
    | [] => [String c ""]
    end.
Proof.
  intros Hc. unfold py_split. cbn [split_skip]. simpl.
  destruct (ascii_dec ch c); [congruence|done].
Qed.

Lemma py_split_char_none ch a :
  Forall (λ c, c ≠ ch) (chars a) → py_split (String ch "") a = [a].
Proof.
  induction a as [|c a IH]; [done|].
  intros [Hc Ha]%Forall_cons. fold (chars a) in Ha.
  by rewrite py_split_char_other, IH.
Qed.

Lemma py_split_char_app ch a rest :
  Forall (λ c, c ≠ ch) (chars a) →
  py_split (String ch "") (a +:+ String ch rest) = a :: py_split (String ch "") rest.
Proof.
  induction a as [|c a IH].
  - intros _. by rewrite empty_app, py_split_char_sep.
  - intros [Hc Ha]%Forall_cons. fold (chars a) in Ha.
    by rewrite String_app, py_split_char_other, IH.
Qed.

Lemma py_split_concat ch l :
  l ≠ [] → Forall (λ a, Forall (λ c, c ≠ ch) (chars a)) l →
  py_split (String ch "") (String.concat (String ch "") l) = l.
Proof.
  induction l as [|a l IH]; [done|]. intros _ [Ha Hl]%Forall_cons.
  destruct l as [|b l].
  - simpl. by apply py_split_char_none.
  - change (String.concat (String ch "") (a :: b :: l))
      with (a +:+ String ch "" +:+ String.concat (String ch "") (b :: l)).
    rewrite String_app, empty_app, py_split_char_app by done.
    by rewrite IH.
Qed.

Lemma length_py_split_char ch s :
  length (py_split (String ch "") s) = S (length (filter (λ c, c = ch) (chars s))).
Proof.
  induction s as [|c s IH]; [done|].
  unfold chars. simpl. fold (chars s). rewrite filter_cons.
  case_decide as Hc.
  - subst c. rewrite py_split_char_sep. simpl. by rewrite IH.
  - rewrite py_split_char_other by done.
    destruct (py_split (String ch "") s) as [|w ws] eqn:Hsplit.
    + by apply split_skip_nonempty in Hsplit.
    + simpl in *. done.
Qed.

(** The text before the first occurrence of a separator. *)
Lemma py_split_head c0 sep' a b :
  Forall (λ c, c ≠ c0) (chars a) →
  head (py_split (String c0 sep') (a +:+ String c0 sep' +:+ b)) = Some a.
Proof.
  induction a as [|d a IH].
  - intros _. rewrite empty_app. unfold py_split.
    rewrite String_app. cbn [split_skip].
    rewrite <- String_app, prefix_app. done.
  - intros [Hd Ha]%Forall_cons. fold (chars a) in Ha.
    rewrite String_app. unfold py_split. cbn [split_skip].
    assert (String.prefix (String c0 sep') (String d (a +:+ String c0 sep' +:+ b)) = false)
      as ->.
    { simpl. destruct (ascii_dec c0 d); [congruence|done]. }
    specialize (IH Ha). unfold py_split in IH.
    destruct (split_skip (String c0 sep') 0 (a +:+ String c0 sep' +:+ b)) as [|w ws];
      [done|].
    simpl in *. by injection IH as ->.
Qed.

Lemma lstrip_char_none ch s :
  Forall (λ c, c ≠ ch) (chars s) → lstrip_char ch s = s.
Proof.
  destruct s as [|c s]; simpl; [done|]. intros [Hc _]%Forall_cons.
  by destruct (Ascii.eqb_spec c ch).
Qed.

Lemma strip_char_none ch s :
  Forall (λ c, c ≠ ch) (chars s) → strip_char ch s = s.
Proof.
  intros Hs. unfold strip_char. rewrite (lstrip_char_none ch s Hs).
  rewrite lstrip_char_none; [apply rev_involutive|].
  rewrite chars_rev. by apply Forall_reverse.
Qed.

Lemma strip_char_lead ch s : strip_char ch (String ch s) = strip_char ch s.
Proof. unfold strip_char. simpl. by rewrite Ascii.eqb_refl. Qed.

(** The decimal text of an integer has only digits and the minus sign. *)
Lemma pretty_Z_chars_not (z : Z) (x : ascii) :
  (nat_of_ascii x < 48 ∨ 57 < nat_of_ascii x)%nat → x ≠ "-"%char →
  Forall (λ c, c ≠ x) (chars (pretty z)).
Proof.
  intros Hx Hminus.
  destruct (pretty_Z_chars z) as (c & ds & Hdig & _ & Hchars).
  assert (Hq : Forall (λ c, c ≠ x) (c :: ds)).
  { eapply Forall_impl; [exact Hdig|]. intros y Hy. by apply digit_not_char. }
  rewrite Hchars. case_decide; [constructor; [done|]|]; done.
Qed.

Lemma route_type_of_text_entry (entry : bool * Z * string) :
  route_type_of_text (route_type_entry entry) = Ok entry.1.2.
Proof.
  destruct entry as [[quote z] label]. unfold route_type_of_text, route_type_entry.
  simpl.
  set (code := (if quote then "'" else "") +:+ pretty z).
  assert (Hcode : Forall (λ c, c ≠ " "%char) (chars code)).
  { unfold code. rewrite chars_app. apply Forall_app. split.
    - destruct quote; repeat constructor. done.
    - apply pretty_Z_chars_not; [vm_compute; lia|done]. }
  replace ((if quote then "'" else "") +:+ pretty z +:+ " - " +:+ label)
    with (code +:+ " - " +:+ label) by (unfold code; by rewrite <- app_assoc_string).
  assert (Hhead := py_split_head " "%char "- " code label Hcode).
  destruct (py_split " - " (code +:+ " - " +:+ label)) as [|w ws]; [done|].
  simpl in Hhead. injection Hhead as ->. simpl.
  assert (Hstrip : strip_char "'" code = pretty z).
  { unfold code. destruct quote.
    - rewrite String_app, empty_app, strip_char_lead.
      apply strip_char_none, pretty_Z_chars_not; [vm_compute; lia|done].
    - rewrite empty_app.
      apply strip_char_none, pretty_Z_chars_not; [vm_compute; lia|done]. }
  rewrite Hstrip. apply int_of_text_pretty.
Qed.

Lemma mapR_route_type_entries (entries : list (bool * Z * string)) :
  mapR route_type_of_text (route_type_entry <$> entries) = Ok (entries.*1.*2).
Proof.
  induction entries as [|entry entries IH]; [done|].
  rewrite !fmap_cons. cbn [mapR]. rewrite route_type_of_text_entry. cbn [bind].
  rewrite IH. done.
Qed.

(** X14: the codes are read back from an input written as the tool's dialog
    writes it: for a non-empty list of values [code - label], each between
    single quotes or not and with no semicolon in the label, joined by
    semicolons, the parsed list is the list of the codes, in order. *)
Theorem X14_route_types_read_back (entries : list (bool * Z * string)) :
  entries ≠ [] →
  Forall (λ entry, Forall (λ c, c ≠ ";"%char) (chars entry.2)) entries →
  parse_route_types (Some (String.concat ";" (route_type_entry <$> entries))) =
    Ok (entries.*1.*2).
Proof.
  intros Hne Hlabels. unfold parse_route_types.
  assert (Hsplit : py_split ";" (String.concat ";" (route_type_entry <$> entries)) =
                   route_type_entry <$> entries).
  { apply py_split_concat; [by destruct entries|].
    apply Forall_fmap. eapply Forall_impl; [exact Hlabels|].
    intros [[quote z] label] Hlabel. unfold route_type_entry. simpl in *.
    rewrite !chars_app. rewrite !Forall_app. split_and!; [| | |done].
    - destruct quote; repeat constructor. done.
    - apply pretty_Z_chars_not; [vm_compute; lia|done].
    - repeat constructor; done. }
  destruct (String.concat ";" (route_type_entry <$> entries)) as [|c s] eqn:Hconcat.
  - destruct entries as [|entry entries]; [done|].
    simpl in Hsplit. injection Hsplit as Hentry _.
    assert (Hlen := f_equal String.length Hentry). simpl in Hlen.
    unfold route_type_entry in Hlen. rewrite !length_app_string in Hlen. simpl in Hlen. lia.
  - rewrite Hsplit. apply mapR_route_type_entries.
Qed.

Lemma X14_witness :
  parse_route_types
    (Some (String.concat ";"
             (route_type_entry <$>
                [ (true, 0%Z, "Tram, Streetcar, Light rail'"); (false, 3%Z, "Bus") ]))) =
    Ok [0%Z; 3%Z].
Proof.
  apply (X14_route_types_read_back
           [ (true, 0%Z, "Tram, Streetcar, Light rail'"); (false, 3%Z, "Bus") ]).
  - done.
  - repeat constructor; done.
Defined.

Lemma int_of_text_raises s e : int_of_text s = Raise e → e = ValueError.
Proof.
  unfold int_of_text.
  destruct (match strip s with "" => _ | String _ _ => _ end); [done|].
  by intros [= <-].
Qed.

Lemma route_type_of_text_raises rtype e :
  route_type_of_text rtype = Raise e → e = ValueError.
Proof.
  unfold route_type_of_text.
  destruct (py_split " - " rtype) as [|code rest] eqn:Hsplit.
  - by apply split_skip_nonempty in Hsplit.
  - simpl. apply int_of_text_raises.
Qed.

Lemma mapR_raises {A B} (f : A → result B) (l : list A) e0 e :
  (∀ x e, f x = Raise e → e = e0) → mapR f l = Raise e → e = e0.
Proof.
  intros Hf. induction l as [|x l IH]; simpl; [done|].
  destruct (f x) as [y|e'] eqn:Hx; simpl.
  - destruct (mapR f l) as [ys|e'']; simpl; [done|]. intros [= <-]. by apply IH.
  - intros [= <-]. by eapply Hf.
Qed.

Lemma mapR_length {A B} (f : A → result B) (l : list A) l' :
  mapR f l = Ok l' → length l' = length l.
Proof. intros H%mapR_Forall2. symmetry. by eapply Forall2_length. Qed.

(** X15: an input that is missing or empty gives no code; otherwise the
    input yields one code per semicolon-separated value, none dropped and
    none added, or the parsing is abandoned with a ValueError (a value that
    does not start with an integer); it raises nothing else. *)
Theorem X15_route_types_one_code_per_value (in_route_type : option string) :
  parse_route_types None = Ok [] ∧
  parse_route_types (Some "") = Ok [] ∧
  (∀ e, parse_route_types in_route_type = Raise e → e = ValueError) ∧
  (∀ codes, parse_route_types in_route_type = Ok codes →
     length codes =
       match in_route_type with
       | None | Some EmptyString => 0%nat
       | Some s => S (length (filter (λ c, c = ";"%char) (chars s)))
       end).
Proof.
  split_and!; [done|done| |].
  - intros e. unfold parse_route_types. apply mapR_raises.
    apply route_type_of_text_raises.
  - intros codes Hcodes. unfold parse_route_types in Hcodes.
    apply mapR_length in Hcodes. rewrite Hcodes.
    destruct in_route_type as [[|c s]|]; [done| |done].
    apply length_py_split_char.
Qed.

(** ** The name of the output geodatabase *)

Lemma lower_app s t : lower (s +:+ t) = lower s +:+ lower t.
Proof.
  induction s as [|c s IH]; [done|].
  rewrite String_app. simpl. by rewrite IH, String_app.
Qed.

Lemma length_lower s : String.length (lower s) = String.length s.
Proof. induction s as [|c s IH]; simpl; [done|]. by rewrite IH. Qed.

Lemma substring_app_r s t :
  substring (String.length s) (String.length t) (s +:+ t) = t.
Proof.
  induction s as [|c s IH].
  - rewrite empty_app. simpl. by apply substring_0_short.
  - rewrite String_app. simpl. done.
Qed.

Lemma endswith_app s t : endswith (s +:+ t) t = true.
Proof.
  unfold endswith. rewrite length_app_string.
  replace (String.length s + String.length t - String.length t)%nat
    with (String.length s) by lia.
  rewrite substring_app_r, String.eqb_refl, andb_true_r.
  apply Nat.leb_le. lia.
Qed.

Lemma gdb_name_endswith outGDBName :
  endswith (lower (gdb_name outGDBName)) ".gdb" = true.
Proof.
  unfold gdb_name.
  destruct (endswith (lower outGDBName) ".gdb") eqn:Hends; simpl; [done|].
  rewrite lower_app. apply (endswith_app (lower outGDBName) ".gdb").
Qed.

(** X16: the name of the output geodatabase always ends with [.gdb], in
    whatever case; a name that already does is kept as it is (no second
    suffix, and [.GDB] is not rewritten), and any other name only gets the
    four characters appended. *)
Theorem X16_gdb_name_suffix (outGDBName : string) :
  endswith (lower (gdb_name outGDBName)) ".gdb" = true ∧
  gdb_name (gdb_name outGDBName) = gdb_name outGDBName ∧
  (endswith (lower outGDBName) ".gdb" = true → gdb_name outGDBName = outGDBName) ∧
  (endswith (lower outGDBName) ".gdb" = false →
   gdb_name outGDBName = outGDBName +:+ ".gdb").
Proof.
  split_and!.
  - apply gdb_name_endswith.
  - unfold gdb_name at 1. by rewrite gdb_name_endswith.
  - intros Hends. unfold gdb_name. by rewrite Hends.
  - intros Hends. unfold gdb_name. by rewrite Hends.
Qed.

(** ** The table schema sent to SQLite *)

Lemma substring_0_app s t : substring 0 (String.length s) (s +:+ t) = s.
Proof.
  induction s as [|c s IH].
  - rewrite empty_app. by destruct t.
  - rewrite String_app. simpl. by rewrite IH.
Qed.

Lemma drop_last2_app s : drop_last2 (s +:+ ", ") = s.
Proof.
  unfold drop_last2. rewrite length_app_string. simpl.
  replace (String.length s + 2 - 2)%nat with (String.length s) by lia.
  apply substring_0_app.
Qed.

Lemma concat_snoc sep (l : list string) x :
  l ≠ [] → String.concat sep (l ++ [x]) = String.concat sep l +:+ sep +:+ x.
Proof.
  induction l as [|y l IH]; [done|]. intros _.
  destruct l as [|z l].
  - done.
  - change (String.concat sep ((y :: z :: l) ++ [x]))
      with (y +:+ sep +:+ String.concat sep ((z :: l) ++ [x])).
    rewrite IH by done.
    change (String.concat sep (y :: z :: l)) with (y +:+ sep +:+ String.concat sep (z :: l)).
    apply chars_inj. rewrite !chars_app. by rewrite <- !app_assoc.
Qed.

Lemma schema_loop GTFSfile columns :
  columns ≠ [] →
  foldl (λ schema col, schema +:+ col +:+ " " +:+ column_type GTFSfile col +:+ ", ")
        "" columns =
  String.concat ", " ((λ col, col +:+ " " +:+ column_type GTFSfile col) <$> columns) +:+ ", ".
Proof.
  induction columns as [|col columns IH] using rev_ind; [done|]. intros _.
  rewrite foldl_app, fmap_app. simpl.
  destruct columns as [|col0 columns].
  - simpl. apply chars_inj. rewrite !chars_app. by rewrite <- !app_assoc.
  - rewrite IH by done. rewrite concat_snoc by done.
    apply chars_inj. rewrite !chars_app. by rewrite <- !app_assoc.
Qed.

(** X17: the column list of the CREATE TABLE statement is the header of the
    file, each name followed by its type (the type of the GTFS schema, TEXT
    for any other name) and the entries separated by a comma and a blank:
    the final slice removes exactly the separator left by the loop, and an
    empty header gives the empty text. *)
Theorem X17_schema_is_the_joined_column_definitions (GTFSfile : string)
    (columns : list string) :
  schema_of GTFSfile columns =
    String.concat ", " ((λ col, col +:+ " " +:+ column_type GTFSfile col) <$> columns).
Proof.
  unfold schema_of. destruct (decide (columns = [])) as [->|Hne]; [done|].
  rewrite schema_loop by done. apply drop_last2_app.
Qed.

(** ** Required fields *)

Section Required.
Variable host : loader_host.
Variable GTFSfile : string.
Variable columns : list string.
Variable fields : list (string * (string * Z)).

Local Abbreviation step :=
  (λ col rest,
     match assoc col fields with
     | Some (_, required) =>
         if (required =? 1)%Z && negb (bool_decide (col ∈ columns))
         then Abort (CustomError (msg_missing_field GTFSfile col))
         else rest
     | None => Abort (PythonError KeyError)
     end).

Lemma assoc_Some_key {V} (k : string) (d : list (string * V)) v :
  assoc k d = Some v → (k, v) ∈ d.
Proof.
  unfold assoc. destruct (filter _ d) as [|[k' v'] l] eqn:Hf; [done|].
  simpl. intros [= <-].
  assert ((k', v') ∈ filter (λ kv, kv.1 = k) d) as Hin by (rewrite Hf; left).
  apply list_elem_of_filter in Hin as [Hk Hin]. simpl in Hk. by subst k'.
Qed.

Lemma assoc_is_Some {V} (k : string) (d : list (string * V)) :
  k ∈ d.*1 → is_Some (assoc k d).
Proof.
  intros ([k' v] & Heq & Hin)%list_elem_of_fmap. simpl in Heq. subst k. unfold assoc.
  destruct (filter _ d) as [|kv l] eqn:Hf; [|simpl; eauto].
  assert ((k', v) ∈ filter (λ kv, kv.1 = k') d) as Hmem
    by (by apply list_elem_of_filter).
  rewrite Hf in Hmem. by apply elem_of_nil in Hmem.
Qed.

Lemma required_loop_Done l :
  (∀ col, col ∈ l → col ∈ fields.*1) →
  foldr step (Done tt) l = Done tt ↔
  ∀ col type, col ∈ l → assoc col fields = Some (type, 1%Z) → col ∈ columns.
Proof.
  induction l as [|col l IH]; intros Hkeys.
  - split; [|done]. intros _ col type Hin. by apply elem_of_nil in Hin.
  - simpl. destruct (assoc_is_Some col fields) as [[type required] Hcol];
      [apply Hkeys; left|].
    rewrite Hcol.
    destruct (Z.eqb_spec required 1) as [->|Hreq]; simpl.
    + destruct (bool_decide_reflect (col ∈ columns)) as [Hin|Hnot]; simpl.
      * rewrite IH by (intros c Hc; apply Hkeys; by right). split.
        -- intros Hall c t [->|Hc]%elem_of_cons Ht; [done|by eapply Hall].
        -- intros Hall c t Hc. apply Hall. by right.
      * split; [done|]. intros Hall. exfalso. apply Hnot. apply (Hall col type); [left|done].
    + rewrite IH by (intros c Hc; apply Hkeys; by right). split.
      * intros Hall c t [->|Hc]%elem_of_cons Ht; [congruence|by eapply Hall].
      * intros Hall c t Hc. apply Hall. by right.
Qed.

Lemma required_loop_Abort l e :
  (∀ col, col ∈ l → col ∈ fields.*1) →
  foldr step (Done tt) l = Abort e →
  ∃ col type, col ∈ l ∧ assoc col fields = Some (type, 1%Z) ∧ (col ∉ columns) ∧
              e = CustomError (msg_missing_field GTFSfile col).
Proof.
  induction l as [|col l IH]; intros Hkeys; [done|].
  simpl. destruct (assoc_is_Some col fields) as [[type required] Hcol];
    [apply Hkeys; left|].
  rewrite Hcol.
  destruct (Z.eqb_spec required 1) as [->|Hreq]; simpl.
  - destruct (bool_decide_reflect (col ∈ columns)) as [Hin|Hnot]; simpl.
    + intros (c & t & Hc & Hrest)%IH; [|intros c' Hc'; apply Hkeys; by right].
      exists c, t. split; [by right|done].
    + intros [= <-]. exists col, type. split; [left|done].
  - intros (c & t & Hc & Hrest)%IH; [|intros c' Hc'; apply Hkeys; by right].
    exists c, t. split; [by right|done].
Qed.
End Required.

(** X18: for a file of the GTFS schema, the check of the required fields
    passes exactly when the header has every field that the schema marks as
    required; otherwise it ends with CustomError after reporting one of the
    missing required fields by name, whatever the order in which the schema
    is visited. *)
Theorem X18_required_fields_checked (host : loader_host) (GTFSfile : string)
    (columns : list string) :
  loader_laws host →
  is_Some (assoc GTFSfile sql_schema) →
  (check_required_fields host GTFSfile columns = Done tt ↔
   ∀ col type, schema_field GTFSfile col = Some (type, 1%Z) → col ∈ columns) ∧
  (∀ e, check_required_fields host GTFSfile columns = Abort e →
        ∃ col type, schema_field GTFSfile col = Some (type, 1%Z) ∧ (col ∉ columns) ∧
                    e = CustomError (msg_missing_field GTFSfile col)).
Proof.
  intros Hhost [fields Hfields].
  unfold check_required_fields, schema_field. rewrite Hfields. simpl.
  assert (Hkeys : ∀ col, col ∈ iter_schema host fields.*1 → col ∈ fields.*1).
  { intros col. by rewrite (iter_schema_keys _ Hhost). }
  split.
  - rewrite required_loop_Done by done. split.
    + intros Hall col type Hcol. apply (Hall col type); [|done].
      rewrite (iter_schema_keys _ Hhost).
      apply assoc_Some_key in Hcol. apply list_elem_of_fmap. by exists (col, (type, 1%Z)).
    + intros Hall col type _. apply Hall.
  - intros e (col & type & _ & Hrest)%required_loop_Abort; [|done]. eauto.
Qed.

Lemma ex_host_laws : loader_laws ex_host.
Proof. by split. Qed.

Lemma X18_witness :
  (check_required_fields ex_host "stops" ex_stops_header = Done tt ↔
   ∀ col type, schema_field "stops" col = Some (type, 1%Z) → col ∈ ex_stops_header) ∧
  (∀ e, check_required_fields ex_host "stops" ex_stops_header = Abort e →
        ∃ col type, schema_field "stops" col = Some (type, 1%Z) ∧
                    (col ∉ ex_stops_header) ∧
                    e = CustomError (msg_missing_field "stops" col)).
Proof.
  apply (X18_required_fields_checked ex_host "stops" ex_stops_header).
  - apply ex_host_laws.
  - vm_compute. eauto.
Defined.

(** ** The check of stop_lat and stop_lon *)

Lemma float_in_range (a b : Q) (x : pyfloat) :
  float_le (Finite a) x && float_le x (Finite b) = true ↔
  ∃ p, x = Finite p ∧ (a <= p <= b)%Q.
Proof.
  destruct x as [p| | |]; simpl.
  - rewrite andb_true_iff, !Qle_bool_iff. split; [eauto|].
    by intros (p' & [= <-] & ?).
  - split; [done|]. by intros (p' & [=] & _).
  - split; [done|]. by intros (p' & [=] & _).
  - split; [done|]. by intros (p' & [=] & _).
Qed.

Lemma check_latlon_cols_spec (host : loader_host) (col_names : list string)
    (fname : string) (row row' : list string) :
  (check_latlon_cols host col_names fname row = Done row' ↔
   row' = row ∧
   ∃ i j k stop_id stop_lat stop_lon lat lon,
     list_index "stop_id" col_names = Done i ∧ row !! i = Some stop_id ∧
     list_index "stop_lat" col_names = Done j ∧ row !! j = Some stop_lat ∧
     list_index "stop_lon" col_names = Done k ∧ row !! k = Some stop_lon ∧
     float_of_text host stop_lat = Some (Finite lat) ∧
     float_of_text host stop_lon = Some (Finite lon) ∧
     (-90 <= lat <= 90)%Q ∧ (-180 <= lon <= 180)%Q) ∧
  (∀ e, check_latlon_cols host col_names fname row = Abort e →
        (∃ msg, e = CustomError msg) ∨ e = PythonError ValueError ∨
        e = PythonError IndexError).
Proof.
  unfold check_latlon_cols, row_item. split.
  - split.
    + destruct (list_index "stop_id" col_names) as [i|] eqn:Hi; cbn [outcome_bind negb]; [|done].
      destruct (row !! i) as [stop_id|] eqn:Hid; cbn [outcome_bind negb]; [|done].
      destruct (list_index "stop_lat" col_names) as [j|] eqn:Hj; cbn [outcome_bind negb]; [|done].
      destruct (row !! j) as [stop_lat|] eqn:Hlat; cbn [outcome_bind negb]; [|done].
      destruct (list_index "stop_lon" col_names) as [k|] eqn:Hk; cbn [outcome_bind negb]; [|done].
      destruct (row !! k) as [stop_lon|] eqn:Hlon; cbn [outcome_bind negb]; [|done].
      destruct (float_of_text host stop_lat) as [x|] eqn:Hx; [|done].
      destruct (float_of_text host stop_lon) as [y|] eqn:Hy; [|done].
      destruct (float_le (Finite (-90)) x && float_le x (Finite 90)) eqn:Hrx; cbn [outcome_bind negb]; [|done].
      destruct (float_le (Finite (-180)) y && float_le y (Finite 180)) eqn:Hry; cbn [outcome_bind negb]; [|done].
      intros [= <-]. split; [done|].
      apply float_in_range in Hrx as (lat & -> & Hlat_range).
      apply float_in_range in Hry as (lon & -> & Hlon_range).
      exists i, j, k, stop_id, stop_lat, stop_lon, lat, lon. done.
    + intros (-> & i & j & k & stop_id & stop_lat & stop_lon & lat & lon & Hi & Hid & Hj
              & Hjd & Hk & Hkd & Hx & Hy & Hlat & Hlon).
      rewrite Hi. cbn [outcome_bind]. rewrite Hid. cbn [outcome_bind].
      rewrite Hj. cbn [outcome_bind]. rewrite Hjd. cbn [outcome_bind].
      rewrite Hk. cbn [outcome_bind]. rewrite Hkd. cbn [outcome_bind].
      rewrite Hx, Hy.
      rewrite (proj2 (float_in_range (-90) 90 (Finite lat))) by eauto.
      rewrite (proj2 (float_in_range (-180) 180 (Finite lon))) by eauto.
      done.
  - intros e.
    assert (Hindex : ∀ x l e', list_index x l = Abort e' → e' = PythonError ValueError).
    { intros x l e'. induction l as [|y l IH]; simpl; [by intros [= <-]|].
      case_decide; [done|]. destruct (list_index x l); [done|]. intros [= <-]. by apply IH. }
    destruct (list_index "stop_id" col_names) as [i|] eqn:Hi; cbn [outcome_bind];
      [|intros [= <-]; right; left; by eapply Hindex].
    destruct (row !! i) as [stop_id|]; cbn [outcome_bind]; [|intros [= <-]; by right; right].
    destruct (list_index "stop_lat" col_names) as [j|] eqn:Hj; cbn [outcome_bind];
      [|intros [= <-]; right; left; by eapply Hindex].
    destruct (row !! j) as [stop_lat|]; cbn [outcome_bind]; [|intros [= <-]; by right; right].
    destruct (list_index "stop_lon" col_names) as [k|] eqn:Hk; cbn [outcome_bind];
      [|intros [= <-]; right; left; by eapply Hindex].
    destruct (row !! k) as [stop_lon|]; cbn [outcome_bind]; [|intros [= <-]; by right; right].
    destruct (float_of_text host stop_lat) as [x|]; [|intros [= <-]; left; eauto].
    destruct (float_of_text host stop_lon) as [y|]; [|intros [= <-]; left; eauto].
    destruct (negb _); [intros [= <-]; left; eauto|].
    destruct (negb _); [intros [= <-]; left; eauto|done].
Qed.

(** X19: a row of stops passes the check exactly when the header names
    stop_id, stop_lat and stop_lon, the row reaches these columns, and the
    texts of stop_lat and stop_lon read as finite numbers within -90..90 and
    -180..180; the row is then passed on unchanged. A text that reads as an
    infinity or as not-a-number is rejected like a value out of range. What
    the check raises is a CustomError, or a ValueError or IndexError when a
    column is missing or the row is short. *)
Theorem X19_latlon_check (host : loader_host) (col_names : list string)
    (fname : string) (row row' : list string) :
  (check_latlon_cols host col_names fname row = Done row' ↔
   row' = row ∧
   ∃ i j k stop_id stop_lat stop_lon lat lon,
     list_index "stop_id" col_names = Done i ∧ row !! i = Some stop_id ∧
     list_index "stop_lat" col_names = Done j ∧ row !! j = Some stop_lat ∧
     list_index "stop_lon" col_names = Done k ∧ row !! k = Some stop_lon ∧
     float_of_text host stop_lat = Some (Finite lat) ∧
     float_of_text host stop_lon = Some (Finite lon) ∧
     (-90 <= lat <= 90)%Q ∧ (-180 <= lon <= 180)%Q) ∧
  (∀ e, check_latlon_cols host col_names fname row = Abort e →
        (∃ msg, e = CustomError msg) ∨ e = PythonError ValueError ∨
        e = PythonError IndexError).
Proof. apply check_latlon_cols_spec. Qed.

(** ** The commands sent for one file *)

Lemma load_bind_inv {A B} (m : load A) (k : A → load B) log log' r :
  load_bind m k log = (log', r) →
  (∃ e, m log = (log', Abort e) ∧ r = Abort e) ∨
  (∃ a log1, m log = (log1, Done a) ∧ k a log1 = (log', r)).
Proof.
  unfold load_bind. destruct (m log) as [log1 [a|e]].
  - intros Hk. right. eauto.
  - intros [= <- <-]. left. eauto.
Qed.

Lemma send_inv host cmd log log' (r : outcome unit) :
  send host cmd log = (log', r) →
  (r = Done tt ∧ log' = log ++ [cmd]) ∨ (r = Abort SQLiteError ∧ log' = log).
Proof.
  unfold send. destruct (accepts host log cmd); intros [= <- <-]; [by left|by right].
Qed.

Lemma lift_inv {A} (x : outcome A) log log' r :
  lift x log = (log', r) → log' = log ∧ r = x.
Proof. unfold lift. by intros [= <- <-]. Qed.

Ltac load_step H :=
  first
    [ apply load_bind_inv in H as [(? & H & ->)|(? & ? & ? & H)]
    | apply send_inv in H as [[-> ->]|[-> ->]]
    | apply lift_inv in H as [-> ->] ].

Section FileCommands.
Variable host : loader_host.
Variables GTFSfile fname : string.
Variable columns : list string.

Local Abbreviation insert := (Execute (insert_stmt GTFSfile columns)).

Lemma clean_row_Abort r e : clean_row host r = Abort e → e = UnicodeDecodeError.
Proof.
  induction r as [|x r IH]; simpl; [done|].
  destruct (clean host x); [|by intros [= <-]].
  destruct (clean_row host r) as [ys|e']; simpl; [done|].
  intros [= <-]. by apply IH.
Qed.

Lemma insert_record_inv r log log' res :
  insert_record host GTFSfile fname columns r log = (log', res) →
  match res with
  | Done _ => ∃ row, clean_row host r = Done row ∧ log' = log ++ [insert row]
  | Abort e =>
      log' = log ∧
      ((∃ msg, e = CustomError msg) → GTFSfile = "stops")
  end.
Proof.
  unfold insert_record. intros H.
  apply load_bind_inv in H as [(e & H & ->)|(row & log1 & Hrow & H)].
  - apply lift_inv in H as [-> Hclean]. split; [done|]. intros [msg ->].
    symmetry in Hclean. by apply clean_row_Abort in Hclean.
  - apply lift_inv in Hrow as [-> Hclean].
    apply load_bind_inv in H as [(e & H & ->)|(row' & log2 & Hcheck & H)].
    + apply lift_inv in H as [-> Hcheck]. split; [done|]. intros _.
      by case_decide.
    + apply lift_inv in Hcheck as [-> Hcheck].
      assert (row' = row) as ->.
      { case_decide; [|by injection Hcheck].
        symmetry in Hcheck. by apply check_latlon_cols_spec in Hcheck as [-> _]. }
      apply send_inv in H as [[-> ->]|[-> ->]].
      * eauto.
      * split; [done|]. by intros [msg [=]].
Qed.

Lemma for_each_insert_inv rows log log' res :
  for_each (insert_record host GTFSfile fname columns) rows log = (log', res) →
  ∃ cleaned,
    log' = log ++ (insert <$> cleaned) ∧
    match res with
    | Done _ => Forall2 (λ r row, clean_row host r = Done row) rows cleaned
    | Abort e => (∃ msg, e = CustomError msg) → GTFSfile = "stops"
    end.
Proof.
  revert log. induction rows as [|r rows IH]; intros log; simpl.
  - intros [= <- <-]. exists []. by rewrite app_nil_r.
  - intros H. apply load_bind_inv in H as [(e & H & ->)|([] & log1 & Hr & H)].
    + apply insert_record_inv in H as [-> Hstops]. exists []. by rewrite app_nil_r.
    + apply insert_record_inv in Hr as (row & Hrow & ->).
      apply IH in H as (cleaned & -> & Hres). exists (row :: cleaned).
      rewrite <- app_assoc. split; [done|].
      destruct res; [by constructor|done].
Qed.

Lemma insert_record_Abort r log log' e :
  insert_record host GTFSfile fname columns r log = (log', Abort e) →
  log' = log ∧
  (clean_row host r = Abort e ∨
   ∃ row, clean_row host r = Done row ∧
          ((GTFSfile = "stops" ∧ check_latlon_cols host columns fname row = Abort e) ∨
           e = SQLiteError)).
Proof.
  unfold insert_record. intros H.
  apply load_bind_inv in H as [(e' & H & [= <-])|(row & log1 & Hrow & H)].
  - apply lift_inv in H as [-> Hclean]. split; [done|]. by left.
  - apply lift_inv in Hrow as [-> Hclean].
    apply load_bind_inv in H as [(e' & H & [= <-])|(row' & log2 & Hcheck & H)].
    + apply lift_inv in H as [-> Hcheck]. split; [done|]. right. exists row.
      split; [done|]. left. by case_decide.
    + apply lift_inv in Hcheck as [-> Hcheck].
      apply send_inv in H as [[[=] _]|[[= <-] ->]].
      split; [done|]. right. exists row. split; [done|]. by right.
Qed.

(** When the loop over the records stops, the rows before the one that
    stopped it were cleaned and inserted, in order, and nothing else was
    sent. *)
Lemma for_each_insert_Abort rows log log' e :
  for_each (insert_record host GTFSfile fname columns) rows log = (log', Abort e) →
  ∃ before bad after cleaned,
    rows = before ++ bad :: after ∧
    Forall2 (λ r row, clean_row host r = Done row) before cleaned ∧
    log' = log ++ (insert <$> cleaned) ∧
    insert_record host GTFSfile fname columns bad log' = (log', Abort e).
Proof.
  revert log. induction rows as [|r rows IH]; intros log; simpl.
  - by intros [= _ ?].
  - intros H. apply load_bind_inv in H as [(e' & H & [= <-])|([] & log1 & Hr & H)].
    + assert (log' = log) as -> by (by apply insert_record_Abort in H as [? _]).
      exists [], r, rows, []. split_and!; [done|apply Forall2_nil_2|by rewrite app_nil_r|done].
    + apply insert_record_inv in Hr as (row & Hrow & ->).
      apply IH in H as (before & bad & after & cleaned & -> & Hall & -> & Hbad).
      exists (r :: before), bad, after, (row :: cleaned).
      split_and!; [done|by constructor|by rewrite <- app_assoc|done].
Qed.

Lemma add_column_inv table col log log' (res : outcome unit) :
  add_column host table col (column_type table col) log = (log', res) →
  match res with
  | Done _ => log' = log ++ add_column_commands table col
  | Abort e => e = SQLiteError
  end.
Proof.
  unfold add_column, add_column_commands, alter_stmt. intros H.
  apply load_bind_inv in H as [(e & H & ->)|([] & log1 & Hsend & H)].
  - by apply send_inv in H as [[[=] _]|[[= ->] _]].
  - apply send_inv in Hsend as [[_ ->]|[[=] _]].
    apply send_inv in H as [[-> ->]|[-> ->]]; [|done].
    by rewrite <- app_assoc.
Qed.

Lemma for_each_add_column_inv table l log log' (res : outcome unit) :
  for_each (λ col, if bool_decide (col ∈ columns) then load_ret tt
                   else add_column host table col (column_type table col)) l log
    = (log', res) →
  match res with
  | Done _ => log' = log ++ (filter (λ col, col ∉ columns) l ≫= add_column_commands table)
  | Abort e => e = SQLiteError
  end.
Proof.
  revert log. induction l as [|col l IH]; intros log; simpl.
  - intros [= <- <-]. by rewrite app_nil_r.
  - intros H. apply load_bind_inv in H as [(e & H & ->)|([] & log1 & Hcol & H)].
    + destruct (bool_decide (col ∈ columns)); [done|].
      by apply add_column_inv in H.
    + apply IH in H. destruct res as [[]|e]; [|done]. subst log'.
      rewrite filter_cons.
      destruct (bool_decide_reflect (col ∈ columns)) as [Hin|Hnot].
      * injection Hcol as <-. by rewrite decide_False by auto.
      * apply add_column_inv in Hcol as ->. rewrite decide_True by done.
        simpl. by rewrite <- app_assoc.
Qed.
End FileCommands.

Lemma SQLize_file_Done host inGTFSdir GTFSfile records log log' :
  SQLize_file host inGTFSdir GTFSfile records log = (log', Done tt) →
  ∃ header rows columns cleaned,
    filter (λ r, (0 < length r)%nat) records = header :: rows ∧
    clean_row host header = Done columns ∧
    check_required_fields host GTFSfile columns = Done tt ∧
    Forall2 (λ r row, clean_row host r = Done row) rows cleaned ∧
    log' = log ++ drop_create GTFSfile columns
               ++ (Execute (insert_stmt GTFSfile columns) <$> cleaned)
               ++ [Commit]
               ++ (added_columns host GTFSfile columns ≫= add_column_commands GTFSfile).
Proof.
  unfold SQLize_file.
  destruct (filter _ records) as [|header rows]; [by intros [_ [=]]%lift_inv|].
  intros H. exists header, rows.
  apply load_bind_inv in H as [(e & _ & [=])|(columns & log1 & Hcols & H)].
  apply lift_inv in Hcols as [-> Hcols]. exists columns.
  apply load_bind_inv in H as [(e & _ & [=])|([] & log1 & Hreq & H)].
  apply lift_inv in Hreq as [-> Hreq].
  apply load_bind_inv in H as [(e & _ & [=])|([] & log1 & Hdrop & H)].
  apply send_inv in Hdrop as [[_ ->]|[[=] _]].
  apply load_bind_inv in H as [(e & _ & [=])|([] & log1 & Hcreate & H)].
  apply send_inv in Hcreate as [[_ ->]|[[=] _]].
  apply load_bind_inv in H as [(e & _ & [=])|([] & log1 & Hcommit & H)].
  apply send_inv in Hcommit as [[_ ->]|[[=] _]].
  apply load_bind_inv in H as [(e & _ & [=])|([] & log1 & Hins & H)].
  apply for_each_insert_inv in Hins as (cleaned & -> & Hcleaned). exists cleaned.
  apply load_bind_inv in H as [(e & _ & [=])|([] & log1 & Hcommit & H)].
  apply send_inv in Hcommit as [[_ ->]|[[=] _]].
  apply load_bind_inv in H as [(e & _ & [=])|([] & log1 & Hroutes & H)].
  apply load_bind_inv in H as [(e & _ & [=])|([] & log2 & Htrips & H)].
  split_and!; [done|done|done|done|].
  unfold added_columns, drop_create.
  assert (Hr : log1 = ((((log ++ [Execute ("DROP TABLE IF EXISTS " +:+ GTFSfile +:+ ";") []])
                  ++ [Execute ("CREATE TABLE " +:+ GTFSfile +:+ " (" +:+
                               schema_of GTFSfile columns +:+ ");") []])
                  ++ [Commit]) ++ (Execute (insert_stmt GTFSfile columns) <$> cleaned))
                  ++ [Commit]
                  ++ ((if decide (GTFSfile = "routes")
                       then filter (λ col, col ∉ columns)
                              (iter_schema host (default [] (assoc "routes" sql_schema)).*1)
                       else []) ≫= add_column_commands GTFSfile)).
  { clear H Htrips. destruct (decide (GTFSfile = "routes")) as [Hf|Hf].
    - subst GTFSfile. apply for_each_add_column_inv in Hroutes. rewrite Hroutes.
      by rewrite <- !app_assoc.
    - injection Hroutes as <-. simpl. by rewrite <- ?app_assoc. }
  assert (Ht : log2 = log1 ++ ((if decide (GTFSfile = "trips")
                                then if bool_decide ("shape_id" ∈ columns) then []
                                     else ["shape_id"]
                                else []) ≫= add_column_commands GTFSfile)).
  { clear Hr H Hroutes. destruct (decide (GTFSfile = "trips")) as [Hf|Hf].
    - subst GTFSfile. destruct (bool_decide ("shape_id" ∈ columns)).
      + injection Htrips as <-. by rewrite app_nil_r.
      + apply load_bind_inv in Htrips as [(e & _ & [=])|([] & log3 & Hsend & Htrips)].
        apply send_inv in Hsend as [[_ ->]|[[=] _]].
        apply send_inv in Htrips as [[_ ->]|[[=] _]].
        simpl. by rewrite <- app_assoc.
    - injection Htrips as <-. by rewrite app_nil_r. }
  assert (Hs : log' = log2 ++ ((if decide (GTFSfile = "stop_times")
                                then if bool_decide ("shape_dist_traveled" ∈ columns) then []
                                     else ["shape_dist_traveled"]
                                else []) ≫= add_column_commands GTFSfile)).
  { clear Hr Ht Hroutes Htrips. destruct (decide (GTFSfile = "stop_times")) as [Hf|Hf].
    - subst GTFSfile. destruct (bool_decide ("shape_dist_traveled" ∈ columns)).
      + injection H as <-. by rewrite app_nil_r.
      + apply load_bind_inv in H as [(e & _ & [=])|([] & log3 & Hsend & H)].
        apply send_inv in Hsend as [[_ ->]|[[=] _]].
        apply send_inv in H as [[_ ->]|[[=] _]].
        simpl. by rewrite <- app_assoc.
    - injection H as <-. by rewrite app_nil_r. }
  rewrite Hs, Ht, Hr. rewrite !bind_app. simpl. by rewrite <- !app_assoc.
Qed.

(** X20: when a file is loaded without error, the commands sent for it are,
    in this order: DROP TABLE IF EXISTS and CREATE TABLE with the schema of
    its header, a commit, one INSERT per record that follows the header, in
    the order of the file, with the cells cleaned and otherwise unchanged
    and the blank records left out, a commit, and then only the ALTER TABLE
    commands that add columns, each followed by a commit. *)
Theorem X20_commands_sent_for_a_file (host : loader_host) (inGTFSdir GTFSfile : string)
    (records : list (list string)) (log log' : list sql_command) :
  SQLize_file host inGTFSdir GTFSfile records log = (log', Done tt) →
  ∃ header rows columns cleaned,
    filter (λ r, (0 < length r)%nat) records = header :: rows ∧
    clean_row host header = Done columns ∧
    check_required_fields host GTFSfile columns = Done tt ∧
    Forall2 (λ r row, clean_row host r = Done row) rows cleaned ∧
    log' = log ++ drop_create GTFSfile columns
               ++ (Execute (insert_stmt GTFSfile columns) <$> cleaned)
               ++ [Commit]
               ++ (added_columns host GTFSfile columns ≫= add_column_commands GTFSfile).
Proof. apply SQLize_file_Done. Qed.

Lemma X20_witness :
  ∃ header rows columns cleaned,
    filter (λ r, (0 < length r)%nat) ex_trips_records = header :: rows ∧
    clean_row ex_host header = Done columns ∧
    check_required_fields ex_host "trips" columns = Done tt ∧
    Forall2 (λ r row, clean_row ex_host r = Done row) rows cleaned ∧
    commands_of (SQLize_file ex_host "gtfs" "trips" ex_trips_records) =
      [] ++ drop_create "trips" columns
         ++ (Execute (insert_stmt "trips" columns) <$> cleaned)
         ++ [Commit]
         ++ (added_columns ex_host "trips" columns ≫= add_column_commands "trips").
Proof.
  apply (X20_commands_sent_for_a_file ex_host "gtfs" "trips" ex_trips_records []
           (commands_of (SQLize_file ex_host "gtfs" "trips" ex_trips_records))).
  vm_compute. reflexivity.
Defined.

(** X21: when the loading of a file ends with a CustomError, the file has
    a header, and either nothing was sent for the file (a required field is
    missing from the header), or the file is stops, a row fails the check of
    its latitude and longitude, and what was sent is the DROP and CREATE of
    the table, a commit, and the INSERTs of the cleaned rows before that
    row, in order: no commit follows them. *)
Theorem X21_no_commit_after_a_failed_check (host : loader_host)
    (inGTFSdir GTFSfile : string) (records : list (list string))
    (log log' : list sql_command) (msg : string) :
  SQLize_file host inGTFSdir GTFSfile records log = (log', Abort (CustomError msg)) →
  ∃ header rows columns,
    filter (λ r, (0 < length r)%nat) records = header :: rows ∧
    clean_row host header = Done columns ∧
    ((log' = log ∧
      check_required_fields host GTFSfile columns = Abort (CustomError msg)) ∨
     (GTFSfile = "stops" ∧
      ∃ before bad after cleaned row,
        rows = before ++ bad :: after ∧
        Forall2 (λ r row, clean_row host r = Done row) before cleaned ∧
        clean_row host bad = Done row ∧
        check_latlon_cols host columns
          (os_path_join host inGTFSdir GTFSfile +:+ ".txt") row
          = Abort (CustomError msg) ∧
        log' = log ++ drop_create GTFSfile columns
                   ++ (Execute (insert_stmt GTFSfile columns) <$> cleaned))).
Proof.
  unfold SQLize_file.
  destruct (filter _ records) as [|header rows]; [by intros [_ [=]]%lift_inv|].
  intros H. exists header, rows.
  apply load_bind_inv in H as [(? & H & [= <-])|(columns & log1 & Hcols & H)].
  { apply lift_inv in H as [_ Hclean]. symmetry in Hclean.
    by apply clean_row_Abort in Hclean. }
  apply lift_inv in Hcols as [-> Hcols]. exists columns.
  split; [done|]. split; [done|].
  apply load_bind_inv in H as [(? & H & [= <-])|([] & log1 & Hreq & H)].
  { apply lift_inv in H as [-> Hreq]. left. eauto. }
  apply lift_inv in Hreq as [-> Hreq].
  apply load_bind_inv in H as [(? & H & [= <-])|([] & log1 & Hdrop & H)].
  { by apply send_inv in H as [[[=] _]|[[=] _]]. }
  apply send_inv in Hdrop as [[_ ->]|[[=] _]].
  apply load_bind_inv in H as [(? & H & [= <-])|([] & log1 & Hcreate & H)].
  { by apply send_inv in H as [[[=] _]|[[=] _]]. }
  apply send_inv in Hcreate as [[_ ->]|[[=] _]].
  apply load_bind_inv in H as [(? & H & [= <-])|([] & log1 & Hcommit & H)].
  { by apply send_inv in H as [[[=] _]|[[=] _]]. }
  apply send_inv in Hcommit as [[_ ->]|[[=] _]].
  apply load_bind_inv in H as [(? & H & [= <-])|([] & log1 & Hins & H)].
  { apply for_each_insert_Abort in H
      as (before & bad & after & cleaned & -> & Hall & -> & Hbad).
    apply insert_record_Abort in Hbad as [_ [Hclean|(row & Hclean & [[-> Hcheck]|[=]])]].
    { by apply clean_row_Abort in Hclean. }
    right. split; [done|]. exists before, bad, after, cleaned, row.
    split_and!; [done|done|done|done|].
    unfold drop_create. by rewrite <- !app_assoc. }
  exfalso. clear Hins.
  apply load_bind_inv in H as [(? & H & [= <-])|([] & log2 & Hcommit & H)].
  { by apply send_inv in H as [[[=] _]|[[=] _]]. }
  clear Hcommit.
  apply load_bind_inv in H as [(? & H & [= <-])|([] & log3 & Hroutes & H)].
  { destruct (decide (GTFSfile = "routes")) as [->|]; [|done].
    by apply for_each_add_column_inv in H. }
  clear Hroutes.
  apply load_bind_inv in H as [(? & H & [= <-])|([] & log4 & Htrips & H)].
  { destruct (decide (GTFSfile = "trips")); [|done].
    destruct (bool_decide _); [done|].
    apply load_bind_inv in H as [(? & H & [= <-])|([] & log5 & _ & H)];
      by apply send_inv in H as [[[=] _]|[[=] _]]. }
  clear Htrips.
  destruct (decide (GTFSfile = "stop_times"));
    cbv beta iota delta [load_ret] in H; [|discriminate H].
  destruct (bool_decide _); cbv beta iota delta [load_ret] in H; [discriminate H|].
  apply load_bind_inv in H as [(? & H & [= <-])|([] & log5 & _ & H)];
    by apply send_inv in H as [[[=] _]|[[=] _]].
Qed.

Lemma X21_witness :
  ∃ header rows columns,
    filter (λ r, (0 < length r)%nat) ex_stops_records = header :: rows ∧
    clean_row ex_host header = Done columns ∧
    ((commands_of (SQLize_file ex_host "gtfs" "stops" ex_stops_records) = [] ∧
      check_required_fields ex_host "stops" columns =
        Abort (CustomError (msg_lat_range "gtfs/stops.txt" "S2" "91"))) ∨
     ("stops" = "stops" ∧
      ∃ before bad after cleaned row,
        rows = before ++ bad :: after ∧
        Forall2 (λ r row, clean_row ex_host r = Done row) before cleaned ∧
        clean_row ex_host bad = Done row ∧
        check_latlon_cols ex_host columns
          (os_path_join ex_host "gtfs" "stops" +:+ ".txt") row
          = Abort (CustomError (msg_lat_range "gtfs/stops.txt" "S2" "91")) ∧
        commands_of (SQLize_file ex_host "gtfs" "stops" ex_stops_records) =
          [] ++ drop_create "stops" columns
             ++ (Execute (insert_stmt "stops" columns) <$> cleaned))).
Proof.
  apply (X21_no_commit_after_a_failed_check ex_host "gtfs" "stops" ex_stops_records []
           (commands_of (SQLize_file ex_host "gtfs" "stops" ex_stops_records))
           (msg_lat_range "gtfs/stops.txt" "S2" "91")).
  vm_compute. reflexivity.
Defined.

(** ** The columns the run relies on *)

Lemma schema_field_routes col :
  is_Some (schema_field "routes" col) →
  col ∈ (default [] (assoc "routes" sql_schema)).*1.
Proof.
  unfold schema_field.
  destruct (assoc "routes" sql_schema) as [fields|]; simpl; [|by intros [? [=]]].
  intros [v Hv]. apply assoc_Some_key in Hv. apply list_elem_of_fmap. by exists (col, v).
Qed.

(** X22: after a file is loaded without error, every column that the run
    reads or writes later (the nine fields of routes, shape_id of trips,
    shape_dist_traveled of stop_times) is in the header of the file or has
    been added by an ALTER TABLE command, and no column of the header is
    added a second time. *)
Theorem X22_columns_the_run_relies_on (host : loader_host) (inGTFSdir GTFSfile : string)
    (records : list (list string)) (log log' : list sql_command) :
  loader_laws host →
  SQLize_file host inGTFSdir GTFSfile records log = (log', Done tt) →
  ∃ header rows columns added before,
    filter (λ r, (0 < length r)%nat) records = header :: rows ∧
    clean_row host header = Done columns ∧
    log' = before ++ (added ≫= add_column_commands GTFSfile) ∧
    Forall (λ col, col ∉ columns) added ∧
    ∀ col, needed_column GTFSfile col → col ∈ columns ∨ col ∈ added.
Proof.
  intros Hhost (header & rows & columns & cleaned & Hfilter & Hcols & _ & _ & ->)
    %SQLize_file_Done.
  exists header, rows, columns, (added_columns host GTFSfile columns).
  eexists. split_and!; [done|done| | |].
  - rewrite !app_assoc. reflexivity.
  - unfold added_columns. rewrite !Forall_app. split_and!.
    + case_decide; [|constructor]. apply Forall_forall.
      by intros col [? _]%list_elem_of_filter.
    + case_decide; [|constructor].
      destruct (bool_decide_reflect ("shape_id" ∈ columns)); repeat constructor; done.
    + case_decide; [|constructor].
      destruct (bool_decide_reflect ("shape_dist_traveled" ∈ columns));
        repeat constructor; done.
  - intros col Hneeded.
    destruct (decide (col ∈ columns)) as [|Hnot]; [by left|right].
    unfold added_columns. rewrite !elem_of_app.
    destruct Hneeded as [[-> Hcol]|[[-> ->]|[-> ->]]].
    + left. rewrite decide_True by done. apply list_elem_of_filter. split; [done|].
      rewrite (iter_schema_keys _ Hhost). by apply schema_field_routes.
    + right. left. rewrite decide_True by done.
      rewrite bool_decide_eq_false_2 by done. left.
    + right. right. rewrite decide_True by done.
      rewrite bool_decide_eq_false_2 by done. left.
Qed.

Lemma X22_witness :
  ∃ header rows columns added before,
    filter (λ r, (0 < length r)%nat) ex_trips_records = header :: rows ∧
    clean_row ex_host header = Done columns ∧
    commands_of (SQLize_file ex_host "gtfs" "trips" ex_trips_records) =
      before ++ (added ≫= add_column_commands "trips") ∧
    Forall (λ col, col ∉ columns) added ∧
    ∀ col, needed_column "trips" col → col ∈ columns ∨ col ∈ added.
Proof.
  apply (X22_columns_the_run_relies_on ex_host "gtfs" "trips" ex_trips_records []
           (commands_of (SQLize_file ex_host "gtfs" "trips" ex_trips_records))).
  - apply ex_host_laws.
  - vm_compute. reflexivity.
Defined.

(** ** The stage as a whole *)

Lemma for_each_files_inv host inGTFSdir records_of files log log' (r : outcome unit) :
  for_each (λ GTFSfile, SQLize_file host inGTFSdir GTFSfile (records_of GTFSfile)) files log
    = (log', r) →
  match r with
  | Done _ =>
      Forall (λ GTFSfile, ∃ l l', SQLize_file host inGTFSdir GTFSfile (records_of GTFSfile) l
                                  = (l', Done tt)) files
  | Abort e =>
      ∃ files1 GTFSfile files2 l,
        files = files1 ++ GTFSfile :: files2 ∧
        for_each (λ GTFSfile, SQLize_file host inGTFSdir GTFSfile (records_of GTFSfile))
                 files1 log = (l, Done tt) ∧
        SQLize_file host inGTFSdir GTFSfile (records_of GTFSfile) l = (log', Abort e)
  end.
Proof.
  revert log. induction files as [|f files IH]; intros log; simpl.
  - intros [= <- <-]. constructor.
  - intros H. apply load_bind_inv in H as [(e & H & ->)|([] & log1 & Hf & H)].
    + exists [], f, files, log. done.
    + apply IH in H. destruct r as [[]|e].
      * constructor; eauto.
      * destruct H as (files1 & g & files2 & l & -> & Hfiles1 & Hg).
        exists (f :: files1), g, files2, l. split_and!; [done| |done].
        simpl. unfold load_bind. by rewrite Hf.
Qed.

(** X23: the files are loaded in the order given and the stage stops at the
    first one that fails: when the stage ends with a CustomError, the files
    before the failing one were loaded completely, the error is the one of
    that file, nothing is sent for the files after it, and the two indices
    are not created. *)
Theorem X23_stage_stops_at_the_first_failing_file (host : loader_host)
    (inGTFSdir : string) (files : list string)
    (records_of : string → list (list string)) (log log' : list sql_command)
    (msg : string) :
  SQLize_GTFS host inGTFSdir files records_of log = (log', Abort (CustomError msg)) →
  ∃ files1 GTFSfile files2 l,
    files = files1 ++ GTFSfile :: files2 ∧
    for_each (λ GTFSfile, SQLize_file host inGTFSdir GTFSfile (records_of GTFSfile))
             files1 log = (l, Done tt) ∧
    SQLize_file host inGTFSdir GTFSfile (records_of GTFSfile) l
      = (log', Abort (CustomError msg)).
Proof.
  unfold SQLize_GTFS. intros H.
  apply load_bind_inv in H as [(? & H & [= <-])|([] & log1 & _ & H)].
  - by apply for_each_files_inv in H.
  - exfalso.
    apply load_bind_inv in H as [(? & H & [= <-])|([] & log2 & _ & H)];
      by apply send_inv in H as [[[=] _]|[[=] _]].
Qed.

Lemma X23_witness :
  ∃ files1 GTFSfile files2 l,
    files_to_sqlize = files1 ++ GTFSfile :: files2 ∧
    for_each (λ GTFSfile, SQLize_file ex_host "gtfs" GTFSfile (ex_records_of GTFSfile))
             files1 [] = (l, Done tt) ∧
    SQLize_file ex_host "gtfs" GTFSfile (ex_records_of GTFSfile) l
      = (commands_of (SQLize_GTFS ex_host "gtfs" files_to_sqlize ex_records_of),
         Abort (CustomError (msg_lat_range "gtfs/stops.txt" "S2" "91"))).
Proof.
  apply (X23_stage_stops_at_the_first_failing_file ex_host "gtfs" files_to_sqlize
           ex_records_of []).
  vm_compute. reflexivity.
Defined.

(** ** A shape for which the solver reports no route *)

Section NoRoute.
Variable rt : runtime.
Variables route_types_Street route_types_Straight : list Z.
Variable CurbApproach : Z.
Variable stoplatlon_dict : gmap string (Q * Q).
Variable RouteDict : gmap string route_info.
Variable sequence_shape_dict : gmap sequence_key Z.
Hypothesis Hrt : runtime_laws rt.
Hypothesis Hinj : ∀ k1 k2 sh,
  sequence_shape_dict !! k1 = Some sh → sequence_shape_dict !! k2 = Some sh → k1 = k2.

Local Abbreviation iter := (iter_sequence_shape_dict rt sequence_shape_dict).
Local Abbreviation shape_of' := (shape_of_sequence sequence_shape_dict).
Local Abbreviation chunk_points' :=
  (chunk_points rt CurbApproach stoplatlon_dict sequence_shape_dict).
Local Abbreviation chunk_shapes' := (chunk_shapes sequence_shape_dict).
Local Abbreviation street_chunks' :=
  (street_chunks rt route_types_Street RouteDict sequence_shape_dict).
Local Abbreviation final_NoRouteGenerated' :=
  (final_NoRouteGenerated rt route_types_Street CurbApproach stoplatlon_dict RouteDict
     sequence_shape_dict).
Local Abbreviation street_features' :=
  (street_features rt route_types_Street CurbApproach stoplatlon_dict RouteDict
     sequence_shape_dict).
Local Abbreviation straight_features' :=
  (straight_features rt route_types_Street route_types_Straight CurbApproach
     stoplatlon_dict RouteDict sequence_shape_dict).

Lemma no_route_chunk_geometries chunk RoutesLayer warning_messages sh :
  solver_contract (Solve rt) →
  (∀ sequence, sequence ∈ iter → is_Some (RouteDict !! sequence.1)) →
  chunk ∈ street_chunks' →
  Solve rt (chunk_points' chunk) = Solved RoutesLayer warning_messages →
  sh ∈ no_route_ids warning_messages →
  ∃ k, k ∈ chunk ∧ shape_of' k = sh ∧
       shape_geometries (street_features' ++ straight_features') sh =
         [StraightLine (straight_array stoplatlon_dict k.2)].
Proof.
  intros Hsolver HRoute Hchunk Hsolved Hno.
  assert (Hnamed : routes_named_by_input (Solve rt)).
  { intros pts R wm Hsolve. by destruct (Hsolver pts R wm Hsolve) as (_ & ? & _). }
  destruct (Hsolver _ _ _ Hsolved) as (_ & _ & Hno').
  destruct (Hno' sh Hno) as [Hpts Hnot].
  apply list_elem_of_fmap in Hpts as (pt & -> & Hpt).
  apply elem_of_chunk_points in Hpt as [Hshape _].
  assert (Hshape' := Hshape).
  apply list_elem_of_fmap in Hshape' as (k & Hk_eq & Hk).
  exists k. split; [done|]. split; [done|]. rewrite Hk_eq in *.
  destruct (elem_of_street_chunks _ _ _ _ chunk k Hchunk Hk) as (Hne & Hiter & Hsel).
  rewrite shape_geometries_app.
  rewrite shape_geometries_nil; simpl.
  - unfold straight_features, shape_geometries. rewrite omap_fmap_compose.
    apply (omap_unique _ _ k).
    + rewrite straight_sequences_eq.
      assert (Hnrg : shape_of' k ∈ final_NoRouteGenerated').
      { apply list_elem_of_bind. exists chunk. split; [|done].
        unfold chunk_no_route. by rewrite Hsolved. }
      rewrite decide_False.
      * apply list_elem_of_filter. split; [|done]. apply Is_true_true.
        unfold straight_selected. destruct (HRoute k Hiter) as [info ->].
        rewrite (bool_decide_eq_true_2 _ Hnrg). apply orb_true_r.
      * intros [_ Hnil]. rewrite Hnil in Hnrg. by apply elem_of_nil in Hnrg.
    + simpl. by rewrite decide_True.
    + intros k' Hk' Hne'. simpl. rewrite decide_False; [done|].
      intros Heq. apply Hne'.
      apply elem_of_straight_sequences in Hk' as [Hk' _].
      by apply (shape_of_inj _ _ Hrt Hinj).
    + by apply NoDup_straight_sequences.
  - unfold street_features. rewrite fmap_bind_list.
    intros (chunk' & Hname & Hchunk')%list_elem_of_bind.
    apply chunk_routes_names in Hname as (Hshape'' & R & wm & Hsolved' & HR); [|done].
    assert (chunk' = chunk) as ->
      by (by eapply (street_chunk_unique _ _ _ _ Hrt Hinj)).
    rewrite Hsolved in Hsolved'. injection Hsolved' as <- <-. done.
Qed.
End NoRoute.

(** X24: when the solver returns for a chunk and its warnings name a shape
    of the chunk in a [No route for ] line, the shape has no line from the
    solver and the run draws exactly one straight line for it, whether or
    not its route type is among the straight-line types. *)
Theorem X24_no_route_warning_gets_a_straight_line (rt : runtime) (params : parameters)
    (db : gtfs) (out : output) (chunk : list sequence_key)
    (RoutesLayer : list (Z * list point)) (warning_messages : string) (sh : Z) :
  runtime_laws rt →
  solver_contract (Solve rt) →
  RunStep1 rt params db = Ok out →
  chunk ∈ run_street_chunks rt params db →
  Solve rt (run_chunk_points rt params db chunk) = Solved RoutesLayer warning_messages →
  sh ∈ no_route_ids warning_messages →
  sh ∈ run_chunk_shapes rt db chunk ∧
  ∃ vertices, shape_geometries (out_Shapes out) sh = [StraightLine vertices].
Proof.
  intros Hrt Hsolver Hrun Hchunk Hsolved Hno.
  assert (Hgeo := RunStep1_geometries rt params db out sh Hrun).
  apply RunStep1_Ok in Hrun
    as (RouteDict & st & srd & trips' & fc & rows & _ & Hphase & Hgen & _ & _ & _ & _
        & HRD & Hssd).
  unfold run_street_chunks, run_chunk_points, run_chunk_shapes in *.
  rewrite HRD, Hssd in *.
  apply generate_shapes_Ok in Hgen as (_ & _ & _ & Hkeys).
  assert (Hne : route_types_Street params ≠ []).
  { intros Hnil. rewrite street_chunks_eq, Hnil in Hchunk. simpl in Hchunk.
    by apply elem_of_nil in Hchunk. }
  destruct (Hkeys Hne) as [HRoute _].
  edestruct (no_route_chunk_geometries rt (route_types_Street params)
               (route_types_Straight params) (CurbApproach_of (driveSide params))
               (make_stoplatlon_dict (stops db)) RouteDict (sequence_shape_dict st) Hrt)
    as (k & Hk & Hsh & Hgeo'); [|done|done|done|done|done|].
  - intros k1 k2 sh'. by eapply dedup_phase_inj.
  - split.
    + apply list_elem_of_fmap. eauto.
    + eexists. rewrite Hgeo. exact Hgeo'.
Qed.

Lemma solver_contract_solve_but_1 : solver_contract solve_but_1.
Proof.
  intros pts R wm. unfold solve_but_1.
  destruct (bool_decide_reflect (1%Z ∈ pt_shape_id <$> pts)) as [Hin|Hnot].
  - intros [= <- <-]. rewrite <- list_fmap_compose.
    assert (Hid : (fst ∘ (λ sh : Z, (sh, @nil point))) <$>
                    remove_dups (filter (λ sh, sh ≠ 1%Z) (pt_shape_id <$> pts))
                  = remove_dups (filter (λ sh, sh ≠ 1%Z) (pt_shape_id <$> pts))).
    { rewrite <- (list_fmap_id (remove_dups _)) at 2. by apply list_fmap_ext. }
    rewrite Hid. split_and!.
    + apply NoDup_remove_dups.
    + intros name. rewrite elem_of_remove_dups. by intros [_ ?]%list_elem_of_filter.
    + intros name Hname. vm_compute in Hname.
      apply list_elem_of_singleton in Hname as ->. split; [done|].
      rewrite elem_of_remove_dups. by intros [? _]%list_elem_of_filter.
  - apply solver_contract_solve_all.
Qed.

Lemma X24_witness :
  let rt := ex_rt_with solve_but_1 in
  let chunk := first_chunk (run_street_chunks rt ex_params ex_db) in
  1%Z ∈ run_chunk_shapes rt ex_db chunk ∧
  ∃ vertices,
    shape_geometries (out_Shapes (run_result rt ex_params ex_db)) 1 =
      [StraightLine vertices].
Proof.
  apply (X24_no_route_warning_gets_a_straight_line (ex_rt_with solve_but_1) ex_params
           ex_db (run_result (ex_rt_with solve_but_1) ex_params ex_db) _
           [(2%Z, [])] ("No route for " +:+ quoted "1" +:+ ".")).
  - apply ex_rt_with_laws.
  - apply solver_contract_solve_but_1.
  - vm_compute. reflexivity.
  - vm_compute. left.
  - vm_compute. reflexivity.
  - vm_compute. left.
Defined.

(** ** When the run returns *)

Section StreetPassReturns.
Variable rt : runtime.
Variable route_types_Street : list Z.
Variable CurbApproach : Z.
Variable stoplatlon_dict : gmap string (Q * Q).
Variable RouteDict : gmap string route_info.
Variable sequence_shape_dict : gmap sequence_key Z.
Hypothesis Hrt : runtime_laws rt.
Hypothesis Hsolver : solver_readable (Solve rt).
Hypothesis HRoute : ∀ sequence : sequence_key,
  is_Some (sequence_shape_dict !! sequence) → is_Some (RouteDict !! sequence.1).

Lemma sequences_Streets_total :
  ∃ l, sequences_Streets rt route_types_Street RouteDict sequence_shape_dict = Ok l.
Proof.
  unfold sequences_Streets. apply foldM_total.
  intros acc sequence Hin%(elem_of_iter _ _ Hrt).
  destruct Hin as [sh Hsh]. destruct (HRoute sequence) as [info Hinfo]; [eauto|].
  unfold getitem, route_type_of, getitem. rewrite Hsh. simpl. rewrite Hinfo. simpl. eauto.
Qed.

Lemma street_chunk_total st chunk :
  (∀ sequence, sequence ∈ chunk → is_Some (sequence_shape_dict !! sequence)) →
  ∃ st', street_chunk rt CurbApproach stoplatlon_dict sequence_shape_dict st chunk = Ok st'.
Proof.
  intros Hkeys. unfold street_chunk.
  rewrite foldM_street_sequence_total by done. simpl.
  destruct (Solve rt _) as [wm em|RoutesLayer wm] eqn:Hsolve; [eauto|].
  rewrite foldM_read_warning_eq.
  destruct (Hsolver _ _ _ Hsolve) as (_ & ids & stops & ->). simpl. eauto.
Qed.

Lemma Generate_Shapes_Street_total st :
  ∃ st', Generate_Shapes_Street rt route_types_Street CurbApproach stoplatlon_dict
           RouteDict sequence_shape_dict st = Ok st'.
Proof.
  unfold Generate_Shapes_Street, sequences_Streets_chunked.
  destruct sequences_Streets_total as [l Hl]. rewrite Hl. simpl.
  assert (Hfilter : l = filter (street_selected route_types_Street RouteDict)
                               (iter_sequence_shape_dict rt sequence_shape_dict)).
  { unfold sequences_Streets in Hl. by apply foldM_sequences_Streets in Hl as [_ ->]. }
  edestruct (foldM_total (street_chunk rt CurbApproach stoplatlon_dict sequence_shape_dict)
               (chunked ChunkSize l)) as [st' ->]; [|simpl; eauto].
  intros st0 chunk Hchunk. apply street_chunk_total.
  intros sequence Hin. apply (elem_of_iter _ _ Hrt).
  assert (sequence ∈ l) as Hl' by (eapply elem_of_chunked; [|done..]; unfold ChunkSize; lia).
  rewrite Hfilter in Hl'. by apply list_elem_of_filter in Hl' as [_ ?].
Qed.
End StreetPassReturns.

Lemma add_route_info_total RouteDict shape_route_dict row (key : sequence_key) :
  shape_route_dict !! sf_Name row = Some [key.1] →
  is_Some (RouteDict !! key.1) →
  ∃ row', add_route_info RouteDict shape_route_dict row = Ok row'.
Proof.
  intros Hroutes [info Hinfo]. unfold add_route_info, getitem.
  rewrite Hroutes. simpl. rewrite Hinfo. simpl. eauto.
Qed.

(** X11: the run returns on every feed in which the trip ids of stop_times
    have no quote and no NUL in them, [int] reads every route type as one of
    0..7, every trip of stop_times has a row in trips and every route id of
    trips has a row in routes, when some straight-line type is chosen and
    either no street type is chosen or the solver answers in the way the
    script reads it (lines named after shape ids of its input, integers
    quoted in its no-route warnings). Stops that stops lacks, trips without
    stop times and chunks on which Solve fails do not stop it. *)
Theorem X11_run_returns (rt : runtime) (params : parameters) (db : gtfs) :
  runtime_laws rt →
  route_types_Street params = [] ∨ solver_readable (Solve rt) →
  route_types_Straight params ≠ [] →
  (∀ T, T ∈ st_trip_id <$> stop_times db → plain_id T = true) →
  Forall (known_route_type rt) (routes db) →
  (∀ T, T ∈ st_trip_id <$> stop_times db → T ∈ tr_trip_id <$> trips db) →
  (∀ row, row ∈ trips db → tr_route_id row ∈ r_route_id <$> routes db) →
  ∃ out, RunStep1 rt params db = Ok out.
Proof.
  intros Hrt Hstreet Hstraight Hplain Hknown Htrips Hroutes.
  assert (∃ RouteDict, make_RouteDict rt (routes db) = Ok RouteDict) as [RouteDict HRD].
  { unfold make_RouteDict. rewrite foldM_RouteDict_known by done. eauto. }
  destruct (proj2 (dedup_phase_Ok_iff rt db Hrt Hplain) Htrips) as (st & srd & trips' & Hphase).
  destruct (dedup_phase_shape_routes rt db st srd trips' Hrt Hphase)
    as (Hdom & Hrange & Hsingle & Hrow).
  assert (HRoute : ∀ sequence : sequence_key,
            is_Some (sequence_shape_dict st !! sequence) →
            is_Some (RouteDict !! sequence.1)).
  { intros key Hkey. destruct (Hrow key Hkey) as (row & Hin & Heq).
    rewrite (make_RouteDict_lookup _ _ _ key.1 HRD).
    apply fmap_is_Some, last_is_Some.
    apply Hroutes in Hin. rewrite Heq in Hin.
    apply list_elem_of_fmap in Hin as (route & Hid & Hroute).
    intros Hnil.
    assert (route ∈ rows_with r_route_id key.1 (routes db)) as Hmem
      by (by apply list_elem_of_filter).
    rewrite Hnil in Hmem. by apply elem_of_nil in Hmem. }
  assert (Hinj : ∀ k1 k2 sh, sequence_shape_dict st !! k1 = Some sh →
                   sequence_shape_dict st !! k2 = Some sh → k1 = k2).
  { intros k1 k2 sh. by eapply dedup_phase_inj. }
  set (CurbApproach := CurbApproach_of (driveSide params)).
  set (stoplatlon_dict := make_stoplatlon_dict (stops db)).
  assert (Hgen : ∃ fc rows,
            generate_shapes rt (route_types_Street params) (route_types_Straight params)
              CurbApproach stoplatlon_dict RouteDict (sequence_shape_dict st) = Ok fc ∧
            outRoutesfc fc = Some rows).
  { rewrite generate_shapes_eq. cbv zeta.
    destruct (decide (route_types_Street params = [])) as [Hnil|Hne]; simpl.
    - rewrite decide_False by naive_solver.
      edestruct (Generate_Shapes_Straight_total rt (route_types_Straight params)
                   CurbApproach stoplatlon_dict RouteDict (sequence_shape_dict st) false)
        as (fc & Hfc & [rows Hrows]); [done|exact HRoute|]. eauto.
    - destruct Hstreet as [?|Hsolver]; [done|].
      edestruct (Generate_Shapes_Street_total rt (route_types_Street params) CurbApproach
                   stoplatlon_dict RouteDict (sequence_shape_dict st) Hrt Hsolver HRoute)
        as [st1 ->].
      simpl. rewrite decide_False by naive_solver.
      edestruct (Generate_Shapes_Straight_total rt (route_types_Straight params)
                   CurbApproach stoplatlon_dict RouteDict (sequence_shape_dict st) true)
        as (fc & Hfc & [rows Hrows]); [done|exact HRoute|]. eauto. }
  destruct Hgen as (fc & rows & Hgen & Hrows).
  unfold RunStep1. rewrite HRD. simpl. rewrite Hphase. simpl.
  fold CurbApproach stoplatlon_dict. rewrite Hgen. simpl.
  unfold add_route_information. rewrite Hrows.
  apply generate_shapes_Ok in Hgen as (Hfeatures & _ & _ & _).
  rewrite Hrows in Hfeatures. simpl in Hfeatures. subst rows.
  assert (Hkey : ∀ key, key ∈ iter_sequence_shape_dict rt (sequence_shape_dict st) →
            srd !! shape_of_sequence (sequence_shape_dict st) key = Some [key.1] ∧
            is_Some (RouteDict !! key.1)).
  { intros key [sh Hsh]%(elem_of_iter _ _ Hrt). unfold shape_of_sequence. rewrite Hsh.
    simpl. split; [by apply Hsingle|]. apply HRoute. eauto. }
  edestruct (mapR_total (add_route_info RouteDict srd)) as [Shapes ->]; [|simpl; eauto].
  intros row [Hrow_in|Hrow_in]%elem_of_app.
  - assert (Hname : sf_Name row ∈ sf_Name <$>
              street_features rt (route_types_Street params) CurbApproach stoplatlon_dict
                RouteDict (sequence_shape_dict st)) by (apply list_elem_of_fmap; eauto).
    unfold street_features in Hname. rewrite fmap_bind_list in Hname.
    apply list_elem_of_bind in Hname as (chunk & Hname & Hchunk).
    assert (Hsolver : routes_named_by_input (Solve rt)).
    { destruct Hstreet as [Hnil|Hsolver].
      - rewrite street_chunks_eq, decide_True in Hchunk by done.
        by apply elem_of_nil in Hchunk.
      - intros pts R wm Hsolve. by destruct (Hsolver pts R wm Hsolve) as [? _]. }
    apply chunk_routes_names in Hname as [Hshape _]; [|done].
    apply list_elem_of_fmap in Hshape as (key & Hkey_eq & Hkey_in).
    destruct (elem_of_street_chunks _ _ _ _ _ _ Hchunk Hkey_in) as (_ & Hiter & _).
    destruct (Hkey key Hiter) as [Hsrd HRD'].
    apply (add_route_info_total _ _ _ key); [by rewrite Hkey_eq|done].
  - unfold straight_features in Hrow_in.
    apply list_elem_of_fmap in Hrow_in as (key & -> & Hkey_in).
    apply elem_of_straight_sequences in Hkey_in as [Hiter _].
    destruct (Hkey key Hiter) as [Hsrd HRD'].
    by apply (add_route_info_total _ _ _ key).
Qed.

Lemma solver_readable_solve_all : solver_readable solve_all.
Proof.
  intros pts R wm. unfold solve_all. intros [= <- <-]. split.
  - intros name. rewrite <- list_fmap_compose.
    intros (sh & -> & Hsh)%list_elem_of_fmap. simpl.
    by apply elem_of_remove_dups.
  - exists [], []. by vm_compute.
Qed.

Lemma X11_witness : ∃ out, RunStep1 ex_rt ex_params_both ex_db_bad_stops = Ok out.
Proof.
  apply (X11_run_returns ex_rt ex_params_both ex_db_bad_stops).
  - apply ex_rt_with_laws.
  - right. apply solver_readable_solve_all.
  - discriminate.
  - intros T HT. cbn in HT.
    repeat (apply elem_of_cons in HT as [->|HT]; [done|]).
    by apply elem_of_nil in HT.
  - repeat constructor; exists 3%Z; (split; [reflexivity|lia]).
  - intros T HT. vm_compute in HT.
    repeat (apply elem_of_cons in HT as [->|HT]; [vm_compute; left|]).
    by apply elem_of_nil in HT.
  - intros row Hrow. unfold ex_db_bad_stops, ex_trips in Hrow. simpl in Hrow.
    repeat (apply elem_of_cons in Hrow as [->|Hrow];
            [vm_compute; first [left|right; left]|]).
    by apply elem_of_nil in Hrow.
Defined.

(** ** Feeds whose trip ids read the same inside quotes

    What the dedup phase does when no trip id of stop_times has a quote or a
    NUL in it: the statements with the pasted ids select and update the
    rows of the trips they were built for. *)

Lemma make_trip_route_dict_last l id :
  make_trip_route_dict l !! id = tr_route_id <$> last (filter (λ row, tr_trip_id row = id) l).
Proof.
  induction l as [|row l IH] using rev_ind; [done|].
  rewrite make_trip_route_dict_snoc, filter_app, filter_cons, filter_nil.
  case_decide as Hid.
  - subst id. by rewrite lookup_insert_eq, last_snoc.
  - by rewrite lookup_insert_ne, app_nil_r.
Qed.

Section PlainFeed.
Variable rt : runtime.
Variable db : gtfs.
Hypothesis Hrt : runtime_laws rt.
Hypothesis Hplain : ∀ T, T ∈ st_trip_id <$> stop_times db → plain_id T = true.

Lemma key_of_spec_key T :
  T ∈ st_trip_id <$> stop_times db →
  key_of rt (make_trip_route_dict (trips db)) (stop_times db) T = spec_key db T.
Proof.
  intros HT. rewrite key_of_plain by auto. unfold spec_key.
  rewrite make_trip_route_dict_last. by rewrite <- option_fmap_compose.
Qed.

Lemma omap_key_of_spec_key (ts : list string) :
  (∀ T, T ∈ ts → T ∈ st_trip_id <$> stop_times db) →
  omap (key_of rt (make_trip_route_dict (trips db)) (stop_times db)) ts =
  omap (spec_key db) ts.
Proof.
  induction ts as [|T ts IH]; intros Hin; [done|]. cbn [omap list_omap].
  rewrite key_of_spec_key by (apply Hin; left).
  rewrite IH by (intros T' HT'; apply Hin; by right). done.
Qed.

Lemma alltrips_in_stop_times T :
  T ∈ alltrips rt db ↔ T ∈ st_trip_id <$> stop_times db.
Proof. unfold alltrips. apply (select_distinct_elem _ Hrt). Qed.

Lemma plain_dedup_shapes st T1 T2 k1 k2 :
  dedup rt (make_trip_route_dict (trips db)) (stop_times db) (alltrips rt db) = Ok st →
  T1 ∈ st_trip_id <$> stop_times db →
  T2 ∈ st_trip_id <$> stop_times db →
  spec_key db T1 = Some k1 →
  spec_key db T2 = Some k2 →
  ∃ sh1 sh2,
    (∀ sh, T1 ∈ trips_of_shape st sh ↔ sh = sh1) ∧
    (∀ sh, T2 ∈ trips_of_shape st sh ↔ sh = sh2) ∧
    (sh1 = sh2 ↔ k1 = k2).
Proof.
  intros Hst HT1 HT2 Hk1 Hk2.
  apply dedup_Ok_inv in Hst as [_ Hinv].
  rewrite <- key_of_spec_key in Hk1, Hk2 by done.
  destruct (dedup_shape_of_trip _ _ _ _ _ _ _ Hinv (proj2 (alltrips_in_stop_times T1) HT1) Hk1)
    as (sh1 & Hsh1 & Hu1).
  destruct (dedup_shape_of_trip _ _ _ _ _ _ _ Hinv (proj2 (alltrips_in_stop_times T2) HT2) Hk2)
    as (sh2 & Hsh2 & Hu2).
  exists sh1, sh2. split_and!; [done|done|]. split.
  - intros ->. by apply (inv_ssd_inj Hinv _ _ _ Hsh1 Hsh2).
  - intros ->. congruence.
Qed.

Lemma plain_dedup_dense st :
  dedup rt (make_trip_route_dict (trips db)) (stop_times db) (alltrips rt db) = Ok st →
  numshapes st =
    Z.of_nat (size (list_to_set (omap (spec_key db) (st_trip_id <$> stop_times db))
                    : gset sequence_key)) ∧
  (∀ sh, (∃ k, sequence_shape_dict st !! k = Some sh) ↔ (1 ≤ sh ≤ numshapes st)%Z) ∧
  (∀ sh, is_Some (shape_trip_dict st !! sh) ↔ (1 ≤ sh ≤ numshapes st)%Z) ∧
  (∀ k sh, sequence_shape_dict st !! k = Some sh ↔
     ∃ n : nat, first_seen (omap (spec_key db) (alltrips rt db)) !! n = Some k ∧
                sh = (Z.of_nat n + 1)%Z).
Proof.
  intros Hst. apply dedup_Ok_inv in Hst as [_ Hinv].
  assert (Hkeys : omap (key_of rt (make_trip_route_dict (trips db)) (stop_times db))
                       (alltrips rt db) = omap (spec_key db) (alltrips rt db)).
  { apply omap_key_of_spec_key. intros T. apply alltrips_in_stop_times. }
  split_and!.
  - unfold numshapes. rewrite (inv_shape_id _ _ Hinv), keyed_keys, Hkeys.
    rewrite length_first_seen_size.
    replace (list_to_set (omap (spec_key db) (st_trip_id <$> stop_times db)) : gset _)
      with (list_to_set (omap (spec_key db) (alltrips rt db)) : gset sequence_key); [lia|].
    apply set_eq. intros k. rewrite !elem_of_list_to_set, !list_elem_of_omap.
    by setoid_rewrite alltrips_in_stop_times.
  - apply (inv_ssd_range Hinv).
  - intros sh. rewrite (inv_std_dom _ _ Hinv). apply (inv_ssd_range Hinv).
  - intros k sh. rewrite (inv_ssd _ _ Hinv). by rewrite keyed_keys, Hkeys.
Qed.

Lemma plain_orphan_KeyError T :
  T ∈ st_trip_id <$> stop_times db →
  T ∉ tr_trip_id <$> trips db →
  dedup rt (make_trip_route_dict (trips db)) (stop_times db) (alltrips rt db) = Raise KeyError ∧
  dedup_phase rt db = Raise KeyError ∧
  ∀ params,
    (∃ e, RunStep1 rt params db = Raise e) ∧
    (∀ RouteDict, make_RouteDict rt (routes db) = Ok RouteDict →
                  RunStep1 rt params db = Raise KeyError).
Proof.
  intros HT Hrow.
  assert (Hd : dedup rt (make_trip_route_dict (trips db)) (stop_times db) (alltrips rt db)
               = Raise KeyError).
  { apply (foldM_dedup_KeyError _ _ _ _ _ T).
    - intros t Ht%alltrips_in_stop_times. rewrite stop_sequence_of_plain by auto. eauto.
    - by apply alltrips_in_stop_times.
    - by apply make_trip_route_dict_None. }
  assert (Hp : dedup_phase rt db = Raise KeyError).
  { unfold dedup_phase. by rewrite Hd. }
  split_and!; [done|done|]. intros params. split.
  - unfold RunStep1. destruct (make_RouteDict rt (routes db)); simpl; [|eauto].
    rewrite Hp. simpl. eauto.
  - intros RouteDict HR. unfold RunStep1. rewrite HR. simpl. by rewrite Hp.
Qed.
End PlainFeed.

Lemma plain_ex_db T : T ∈ st_trip_id <$> stop_times ex_db → plain_id T = true.
Proof. apply plain_ex_stop_times. Qed.

Lemma plain_ex_db_orphan T : T ∈ st_trip_id <$> stop_times ex_db_orphan → plain_id T = true.
Proof.
  cbn. intros HT.
  repeat (apply elem_of_cons in HT as [->|HT]; [done|]).
  by apply elem_of_nil in HT.
Qed.

(** X25: on a feed whose trip ids have no quote and no NUL in them, each
    trip of stop_times that has a row in trips is in the trip list of
    exactly one shape id, and two such trips have the same shape id exactly
    when they have the same route id and the same ordered sequence of stop
    ids in stop_times. *)
Theorem X25_same_shape_iff_same_route_and_stops (rt : runtime) (db : gtfs)
    (st : dedup_state) (T1 T2 : string) (k1 k2 : sequence_key) :
  runtime_laws rt →
  (∀ T, T ∈ st_trip_id <$> stop_times db → plain_id T = true) →
  dedup rt (make_trip_route_dict (trips db)) (stop_times db) (alltrips rt db) = Ok st →
  T1 ∈ st_trip_id <$> stop_times db →
  T2 ∈ st_trip_id <$> stop_times db →
  spec_key db T1 = Some k1 →
  spec_key db T2 = Some k2 →
  ∃ sh1 sh2,
    (∀ sh, T1 ∈ trips_of_shape st sh ↔ sh = sh1) ∧
    (∀ sh, T2 ∈ trips_of_shape st sh ↔ sh = sh2) ∧
    (sh1 = sh2 ↔ k1.1 = k2.1 ∧ k1.2 = k2.2).
Proof.
  intros Hrt Hplain Hst HT1 HT2 Hk1 Hk2.
  destruct (plain_dedup_shapes rt db Hrt Hplain st T1 T2 k1 k2 Hst HT1 HT2 Hk1 Hk2)
    as (sh1 & sh2 & Hu1 & Hu2 & Hiff).
  exists sh1, sh2. split_and!; [done|done|]. rewrite Hiff.
  destruct k1, k2. simpl. naive_solver.
Qed.

Lemma X25_witness :
  ∃ sh1 sh2,
    (∀ sh, "A" ∈ trips_of_shape (dedup_result ex_rt ex_db) sh ↔ sh = sh1) ∧
    (∀ sh, "C" ∈ trips_of_shape (dedup_result ex_rt ex_db) sh ↔ sh = sh2) ∧
    (sh1 = sh2 ↔ ("R1", ["S1"; "S2"]).1 = ("R2", ["S1"; "S2"]).1 ∧
                 ("R1", ["S1"; "S2"]).2 = ("R2", ["S1"; "S2"]).2).
Proof.
  apply (X25_same_shape_iff_same_route_and_stops ex_rt ex_db (dedup_result ex_rt ex_db)
           "A" "C" ("R1", ["S1"; "S2"]) ("R2", ["S1"; "S2"])).
  - apply ex_rt_with_laws.
  - apply plain_ex_db.
  - vm_compute. reflexivity.
  - cbn. rewrite !elem_of_cons. auto.
  - cbn. rewrite !elem_of_cons. auto 10.
  - vm_compute. reflexivity.
  - vm_compute. reflexivity.
Defined.

(** X26: on a feed whose trip ids have no quote and no NUL in them, the
    shape ids handed out are exactly 1..numshapes, numshapes is the number
    of distinct (route_id, ordered stop sequence) keys of the trips of
    stop_times, and the key met n-th (counting from 0) gets shape id n+1. *)
Theorem X26_shape_ids_dense_first_seen (rt : runtime) (db : gtfs) (st : dedup_state) :
  runtime_laws rt →
  (∀ T, T ∈ st_trip_id <$> stop_times db → plain_id T = true) →
  dedup rt (make_trip_route_dict (trips db)) (stop_times db) (alltrips rt db) = Ok st →
  numshapes st =
    Z.of_nat (size (list_to_set (omap (spec_key db) (st_trip_id <$> stop_times db))
                    : gset sequence_key)) ∧
  (∀ sh, (∃ k, sequence_shape_dict st !! k = Some sh) ↔ (1 ≤ sh ≤ numshapes st)%Z) ∧
  (∀ sh, is_Some (shape_trip_dict st !! sh) ↔ (1 ≤ sh ≤ numshapes st)%Z) ∧
  (∀ k sh, sequence_shape_dict st !! k = Some sh ↔
     ∃ n : nat, first_seen (omap (spec_key db) (alltrips rt db)) !! n = Some k ∧
                sh = (Z.of_nat n + 1)%Z).
Proof. intros Hrt Hplain. by apply plain_dedup_dense. Qed.

Lemma X26_witness :
  let st := dedup_result ex_rt ex_db in
  numshapes st =
    Z.of_nat (size (list_to_set (omap (spec_key ex_db) (st_trip_id <$> stop_times ex_db))
                    : gset sequence_key)) ∧
  (∀ sh, (∃ k, sequence_shape_dict st !! k = Some sh) ↔ (1 ≤ sh ≤ numshapes st)%Z) ∧
  (∀ sh, is_Some (shape_trip_dict st !! sh) ↔ (1 ≤ sh ≤ numshapes st)%Z) ∧
  (∀ k sh, sequence_shape_dict st !! k = Some sh ↔
     ∃ n : nat, first_seen (omap (spec_key ex_db) (alltrips ex_rt ex_db)) !! n = Some k ∧
                sh = (Z.of_nat n + 1)%Z).
Proof.
  apply (X26_shape_ids_dense_first_seen ex_rt ex_db (dedup_result ex_rt ex_db)).
  - apply ex_rt_with_laws.
  - apply plain_ex_db.
  - vm_compute. reflexivity.
Defined.

(** X27: on a feed whose trip ids have no quote and no NUL in them, after
    the dedup phase the row of every trip of stop_times holds the id of the
    one shape whose trip list has the trip, the other rows are as they were,
    every trip of stop_times has a row, nothing is left uncommitted when the
    connection is closed, and the run's later stages leave the table as it
    is. *)
Theorem X27_trips_table_holds_shape_ids (rt : runtime) (db : gtfs) (st : dedup_state)
    (shape_route_dict : gmap Z (list string)) (trips' : list trip_row) :
  runtime_laws rt →
  (∀ T, T ∈ st_trip_id <$> stop_times db → plain_id T = true) →
  dedup_phase rt db = Ok (st, shape_route_dict, trips') →
  Forall2 (λ r r',
      tr_trip_id r' = tr_trip_id r ∧ tr_route_id r' = tr_route_id r ∧
      if decide (tr_trip_id r ∈ st_trip_id <$> stop_times db)
      then ∃ sh, (∀ sh', tr_trip_id r ∈ trips_of_shape st sh' ↔ sh' = sh) ∧
                 tr_shape_id r' = Some (pretty sh)
      else r' = r) (trips db) trips' ∧
  (∀ T, T ∈ st_trip_id <$> stop_times db → ∃ r', r' ∈ trips' ∧ tr_trip_id r' = T) ∧
  (∃ conn,
      update_trips_table rt (make_trip_route_dict (trips db)) (shape_trip_dict st)
        (connect (trips db)) = Ok (shape_route_dict, conn) ∧
      working conn = committed conn ∧ trips' = close conn) ∧
  (∀ params out, RunStep1 rt params db = Ok out → out_trips out = trips').
Proof. apply trips_table_holds_shape_ids. Qed.

Lemma X27_witness :
  let '(st, shape_route_dict, trips') := dedup_phase_result ex_rt ex_db in
  Forall2 (λ r r',
      tr_trip_id r' = tr_trip_id r ∧ tr_route_id r' = tr_route_id r ∧
      if decide (tr_trip_id r ∈ st_trip_id <$> stop_times ex_db)
      then ∃ sh, (∀ sh', tr_trip_id r ∈ trips_of_shape st sh' ↔ sh' = sh) ∧
                 tr_shape_id r' = Some (pretty sh)
      else r' = r) (trips ex_db) trips' ∧
  (∀ T, T ∈ st_trip_id <$> stop_times ex_db → ∃ r', r' ∈ trips' ∧ tr_trip_id r' = T) ∧
  (∃ conn,
      update_trips_table ex_rt (make_trip_route_dict (trips ex_db)) (shape_trip_dict st)
        (connect (trips ex_db)) = Ok (shape_route_dict, conn) ∧
      working conn = committed conn ∧ trips' = close conn) ∧
  (∀ params out, RunStep1 ex_rt params ex_db = Ok out → out_trips out = trips').
Proof.
  destruct (dedup_phase_result ex_rt ex_db) as [[st srd] trips'] eqn:Heq.
  apply (X27_trips_table_holds_shape_ids ex_rt ex_db st srd trips').
  - apply ex_rt_with_laws.
  - apply plain_ex_db.
  - rewrite <- Heq. vm_compute. reflexivity.
Defined.

(** X28: on a feed whose trip ids have no quote and no NUL in them, a trip
    id of stop_times without a row in the trips table makes the dedup loop
    raise KeyError at [trip_route_dict[trip[0]]]; nothing catches it, so the
    phase and the run end with an exception (KeyError when the route
    dictionary loaded). *)
Theorem X28_trip_without_row_raises_KeyError (rt : runtime) (db : gtfs) (T : string) :
  runtime_laws rt →
  (∀ T, T ∈ st_trip_id <$> stop_times db → plain_id T = true) →
  T ∈ st_trip_id <$> stop_times db →
  T ∉ tr_trip_id <$> trips db →
  dedup rt (make_trip_route_dict (trips db)) (stop_times db) (alltrips rt db) = Raise KeyError ∧
  dedup_phase rt db = Raise KeyError ∧
  ∀ params,
    (∃ e, RunStep1 rt params db = Raise e) ∧
    (∀ RouteDict, make_RouteDict rt (routes db) = Ok RouteDict →
                  RunStep1 rt params db = Raise KeyError).
Proof. intros Hrt Hplain. by apply plain_orphan_KeyError. Qed.

Lemma X28_witness :
  dedup ex_rt (make_trip_route_dict (trips ex_db_orphan)) (stop_times ex_db_orphan)
        (alltrips ex_rt ex_db_orphan) = Raise KeyError ∧
  dedup_phase ex_rt ex_db_orphan = Raise KeyError ∧
  ∀ params,
    (∃ e, RunStep1 ex_rt params ex_db_orphan = Raise e) ∧
    (∀ RouteDict, make_RouteDict ex_rt (routes ex_db_orphan) = Ok RouteDict →
                  RunStep1 ex_rt params ex_db_orphan = Raise KeyError).
Proof.
  apply (X28_trip_without_row_raises_KeyError ex_rt ex_db_orphan "E").
  - apply ex_rt_with_laws.
  - apply plain_ex_db_orphan.
  - cbn. rewrite !elem_of_cons. auto 10.
  - cbn. rewrite !elem_of_cons, elem_of_nil. naive_solver.
Defined.
